(** * Sharded Adam optimizer ([torch_mnm/optimizer/adam.py])

    A shallow embedding of the [Adam] optimizer class: hyper-parameter
    validation in [__init__], the ZeRO partitioning helpers
    [_need_partition], [_create_partitioned_buffer] and [_partition], and
    the per-parameter body of [step] with its write-back.

    Conventions.
    - Python integers are [Z]; tensor dimensions (entries of a
      [torch.Size]) and list positions are [nat].
    - A tensor is its shape together with its elements in row-major
      order, plus the attributes the optimizer reads ([dtype], [device],
      [requires_grad], [is_sparse]).
    - Python exceptions are values of [exn]; code that can raise lives in
      the error monad [exn + _], and [step], which mutates parameters and
      optimizer state before it may raise, lives in a state-and-error
      monad over [world]. *)

From Stdlib Require Import ZArith QArith Lia.
From stdpp Require Import base numbers list option strings pretty functions gmap.

Local Open Scope Z_scope.
Local Open Scope nat_scope.

(** ** Exceptions and the error monad *)

Inductive exn : Type :=
  | ValueError (msg : string)
  | NotImplementedError (msg : string)
  | RuntimeError (msg : string)
  | IndexError (msg : string)
  | KeyError (key : string)
  | AssertionError
  | ZeroDivisionError.

Definition result (A : Type) : Type := exn + A.

Definition ok {A} (a : A) : result A := inr a.
Definition raise {A} (e : exn) : result A := inl e.

Definition rbind {A B} (m : result A) (k : A → result B) : result B :=
  match m with
  | inl e => inl e
  | inr a => k a
  end.

Notation "'let?' x ':=' m 'in' k" := (rbind m (λ x, k))
  (at level 10, x pattern, m at level 100, k at level 200, only parsing).

(** ** Tensors *)

Inductive scalar_type : Type := float32 | float64 | float16 | bfloat16 | int64.

Record tensor (A : Type) : Type := Tensor {
  shape : list nat;
  dtype : scalar_type;
  device : string;
  requires_grad : bool;
  is_sparse : bool;
  data : list A
}.
Arguments Tensor {A} _ _ _ _ _ _.
Arguments shape {A} _.
Arguments dtype {A} _.
Arguments device {A} _.
Arguments requires_grad {A} _.
Arguments is_sparse {A} _.
Arguments data {A} _.

(** Number of elements of a shape. *)
Definition numel (sh : list nat) : nat := foldr Nat.mul 1 sh.

(** A tensor is well formed when its storage has one element per index. *)
Definition wf_tensor {A} (t : tensor A) : Prop := length (data t) = numel (shape t).

(** Row-major index arithmetic. *)
Fixpoint unravel (sh : list nat) (o : nat) : list nat :=
  match sh with
  | [] => []
  | _ :: sh' => (o / numel sh') :: unravel sh' (o mod numel sh')
  end.

Fixpoint ravel (sh idx : list nat) : nat :=
  match sh, idx with
  | _ :: sh', i :: idx' => i * numel sh' + ravel sh' idx'
  | _, _ => 0
  end.

(** [t.to(device=d)] *)
Definition to_device {A} (t : tensor A) (d : string) : tensor A :=
  Tensor (shape t) (dtype t) d (requires_grad t) (is_sparse t) (data t).

(** [torch.zeros(sh, dtype=dt, requires_grad=rg)]: a fresh dense tensor on
    the default device. *)
Definition torch_zeros {A} (zero : A) (sh : list nat) (dt : scalar_type) (rg : bool) : tensor A :=
  Tensor sh dt "cpu" rg false (replicate (numel sh) zero).

(** [t.shape[0]]: indexing an empty [torch.Size] raises. *)
Definition shape0 {A} (t : tensor A) : result nat :=
  match shape t with
  | [] => raise (IndexError "tuple index out of range")
  | n :: _ => ok n
  end.

(** The [i]-th entry along the leading dimension, flattened. *)
Definition row {A} (t : tensor A) (i : nat) : list A :=
  take (numel (tail (shape t))) (drop (i * numel (tail (shape t))) (data t)).

(** ** Tensor operations of the runtime used by the optimizer *)

(** [torch.nn.functional.pad(input, pad)] in constant mode with value 0.
    [pad] lists (left, right) amounts starting from the LAST dimension;
    dimensions not reached by [pad] are left alone, and a negative amount
    crops. The element at an output index comes from the input index
    shifted by the left amounts when that lies inside the input, and is
    zero otherwise. *)
Fixpoint pad_pairs (pad : list Z) : list (Z * Z) :=
  match pad with
  | l :: r :: rest => (l, r) :: pad_pairs rest
  | _ => []
  end.

Definition pad_dims (nd : nat) (pad : list Z) : list (Z * Z) :=
  replicate (nd - length pad / 2) (0, 0)%Z ++ reverse (pad_pairs pad).

Fixpoint pad_source (sh : list nat) (pairs : list (Z * Z)) (idx : list nat) : option (list nat) :=
  match sh, pairs, idx with
  | d :: sh', (l, _) :: pairs', i :: idx' =>
      let s := (Z.of_nat i - l)%Z in
      if bool_decide (0 ≤ s < Z.of_nat d)%Z
      then cons (Z.to_nat s) <$> pad_source sh' pairs' idx'
      else None
  | [], _, _ => Some []
  | _, _, _ => None
  end.

Definition F_pad {A} (zero : A) (input : tensor A) (pad : list Z) : result (tensor A) :=
  let nd := length (shape input) in
  if negb (Nat.even (length pad)) then
    raise (RuntimeError "Padding length must be divisible by 2")
  else if nd <? length pad / 2 then
    raise (RuntimeError "Padding length should be less than or equal to two times the input dimension")
  else
    let pairs := pad_dims nd pad in
    let new_dims := zip_with (λ d lr, Z.of_nat d + lr.1 + lr.2)%Z (shape input) pairs in
    if bool_decide (Exists (λ d, d < 0)%Z new_dims) then
      raise (RuntimeError "The input size plus negative padding resulted in a negative output size")
    else
      let new_shape := Z.to_nat <$> new_dims in
      ok (Tensor new_shape (dtype input) (device input) (requires_grad input) (is_sparse input)
            ((λ o, match pad_source (shape input) pairs (unravel new_shape o) with
                   | Some j => default zero (data input !! ravel (shape input) j)
                   | None => zero
                   end) <$> seq 0 (numel new_shape))).

(** Python's normalisation of one bound of a slice over [n] items:
    a negative bound counts from the end, and the result is clamped. *)
Definition slice_bound (n : nat) (i : Z) : nat :=
  Z.to_nat (Z.max 0 (Z.min (Z.of_nat n) (if bool_decide (i < 0)%Z then i + Z.of_nat n else i)%Z)).

(** [t[start:stop]]: basic slicing along the leading dimension. *)
Definition getitem_slice {A} (t : tensor A) (start stop : Z) : result (tensor A) :=
  match shape t with
  | [] => raise (IndexError "slice() cannot be applied to a 0-dim tensor.")
  | n :: tr =>
      let a := slice_bound n start in
      let b := slice_bound n stop in
      ok (Tensor ((b - a) :: tr) (dtype t) (device t) (requires_grad t) (is_sparse t)
            (take ((b - a) * numel tr) (drop (a * numel tr) (data t))))
  end.

(** [self.scatter_(dim=0, index=index, src=src)]:
    [self[index[i][j]...][j]... = src[i][j]...] for every position of
    [index]. A 0-dim tensor counts as one of shape [1]. The writes are
    applied in row-major order of [index]; PyTorch leaves the winner among
    writes to one cell unspecified, the sequential kernel keeps the last. *)
Definition nonempty_dims (sh : list nat) : list nat :=
  match sh with [] => [1] | _ => sh end.

Fixpoint scatter_writes {A} (ssh ish rsh : list nat) (index : list Z) (src : list A)
    (os : list nat) (acc : list A) : result (list A) :=
  match os with
  | [] => ok acc
  | o :: os' =>
      match unravel ish o, index !! o with
      | i :: js, Some r =>
          if bool_decide (0 ≤ r < Z.of_nat (hd 0%nat ssh))%Z then
            match src !! ravel rsh (i :: js) with
            | Some v => scatter_writes ssh ish rsh index src os'
                          (<[ravel ssh (Z.to_nat r :: js) := v]> acc)
            | None => raise (RuntimeError "scatter_(): src storage out of range")
            end
          else raise (RuntimeError "index out of range in self")
      | _, _ => raise (RuntimeError "scatter_(): index storage out of range")
      end
  end.

Definition scatter_0 {A} (self : tensor A) (index : tensor Z) (src : tensor A) : result (tensor A) :=
  let ssh := nonempty_dims (shape self) in
  let ish := nonempty_dims (shape index) in
  let rsh := nonempty_dims (shape src) in
  if negb (bool_decide (length ish = length ssh ∧ length ish = length rsh)) then
    raise (RuntimeError "Index tensor must have the same number of dimensions as self and src tensor")
  else if negb (bool_decide (Forall2 le ish rsh ∧ Forall2 le (tail ish) (tail ssh))) then
    raise (RuntimeError "Expected index to be no larger than self apart from dimension 0 and no larger than src")
  else
    let? d := scatter_writes ssh ish rsh (data index) (data src) (seq 0 (numel ish)) (data self) in
    ok (Tensor (shape self) (dtype self) (device self) (requires_grad self) (is_sparse self) d).

(** [self[:] = value]: copy [value], broadcast to the shape of [self], into
    the storage of [self]. *)
Definition broadcastable (src dst : list nat) : bool :=
  bool_decide (length src ≤ length dst ∧
               Forall2 (λ s d, s = d ∨ s = 1) src (drop (length dst - length src) dst)).

Definition broadcast_index (src dst : list nat) (o : nat) : nat :=
  ravel src (zip_with (λ s i, if s =? 1 then 0 else i) src
               (drop (length dst - length src) (unravel dst o))).

Definition setitem_all {A} (self value : tensor A) : result (tensor A) :=
  match shape self with
  | [] => raise (IndexError "slice() cannot be applied to a 0-dim tensor.")
  | _ =>
      if broadcastable (shape value) (shape self) then
        ok (Tensor (shape self) (dtype self) (device self) (requires_grad self) (is_sparse self)
              (imap (λ o old, from_option id old
                                (data value !! broadcast_index (shape value) (shape self) o))
                    (data self)))
      else raise (RuntimeError "The expanded size of the tensor must match the existing size")
  end.

(** ** The optimizer object *)

(** Hyper-parameters of a parameter group; Python floats are taken as
    rationals, which is all the validation needs (comparisons with 0 and 1). *)
Record hyper : Type := Hyper {
  lr : Q;
  betas : Q * Q;
  eps : Q;
  weight_decay : Q;
  amsgrad : bool
}.

(** A group holds its parameters by identity. *)
Record param_group : Type := ParamGroup {
  params : list nat;
  group_hyper : hyper
}.

Record Adam : Type := mkAdam {
  param_groups : list param_group;
  _zero_opt_level : Z;
  _rank : Z;
  _world_size : Z;
  _lm : bool
}.

(** *** Construction *)

(** What [mnm.distributed.get_context()] returns. *)
Record dist_context : Type := DistContext {
  zero_opt_level : Z;
  rank : Z;
  size : Z
}.

(** What [__init__] calls outside this class: the constructor of the base
    class [torch.optim.Optimizer], which builds the parameter groups from
    [params] and the defaults (and may reject [params]), the distributed
    context, and the import of the lazy-tensor module. *)
Record host : Type := Host {
  Optimizer_init : list nat → hyper → result (list param_group);
  get_context : dist_context;
  import_lazy_model : result unit
}.

Definition Qlt_bool (a b : Q) : bool := negb (Qle_bool b a).

Definition __init__ (h : host) (params : list nat) (lr : Q) (betas : Q * Q) (eps : Q)
    (weight_decay : Q) (amsgrad : bool) (mark_step : bool) : result Adam :=
  if negb (Qle_bool 0 lr) then raise (ValueError "Invalid learning rate")
  else if negb (Qle_bool 0 eps) then raise (ValueError "Invalid epsilon value")
  else if negb (Qle_bool 0 betas.1 && Qlt_bool betas.1 1) then
    raise (ValueError "Invalid beta parameter at index 0")
  else if negb (Qle_bool 0 betas.2 && Qlt_bool betas.2 1) then
    raise (ValueError "Invalid beta parameter at index 1")
  else if negb (Qle_bool 0 weight_decay) then raise (ValueError "Invalid weight_decay value")
  else if negb (negb amsgrad) then raise (NotImplementedError "amsgrad==True is not yet supported")
  else
    let defaults := Hyper lr betas eps weight_decay amsgrad in
    let? groups := Optimizer_init h params defaults in
    let dctx := get_context h in
    let? _ := (if mark_step then import_lazy_model h else ok tt) in
    ok (mkAdam groups (zero_opt_level dctx) (rank dctx) (size dctx) mark_step).

(** The default arguments of [__init__]. *)
Definition default_lr : Q := 1 # 1000.
Definition default_betas : Q * Q := (9 # 10, 999 # 1000).
Definition default_eps : Q := 1 # 100000000.
Definition default_weight_decay : Q := 0.
Definition default_amsgrad : bool := false.
Definition default_mark_step : bool := false.

(** *** Partitioning helpers *)

(** [self._zero_opt_level > 0 and data.shape[0] >= self._world_size];
    [and] does not look at the shape when the level is not positive. *)
Definition _need_partition {A} (self : Adam) (data : tensor A) : result bool :=
  if bool_decide (_zero_opt_level self > 0)%Z then
    let? n := shape0 data in
    ok (bool_decide (Z.of_nat n >= _world_size self)%Z)
  else ok false.

(** [a / b] on two Python integers is the double nearest to the exact
    quotient, ties going to the even mantissa, with gradual underflow
    (CPython's [long_true_divide] rounds the quotient of the integers once,
    whatever their size), and [math.ceil] of a double is an exact integer.
    A double is kept here as its value [mantissa * 2 ^ exponent], with 53
    bits of mantissa and no exponent below -1074.

    The quotient of a tensor dimension (an int64) by a non-zero integer is
    below 2^63 in size, far from the largest double; the [OverflowError]
    with which Python answers a quotient beyond 2^1024 is therefore out of
    reach and the exponent is not capped from above. *)
Record double : Type := Double {
  mantissa : Z;
  exponent : Z
}.

(** The integer nearest to [x / y] for [0 <= x] and [0 < y], ties to even. *)
Definition round_half_even (x y : Z) : Z :=
  let q := (x / y)%Z in
  let r := (x mod y)%Z in
  if bool_decide (2 * r < y)%Z then q
  else if bool_decide (y < 2 * r)%Z then (q + 1)%Z
  else if Z.even q then q else (q + 1)%Z.

(** The integer part of the base-2 logarithm of [a / b], for positive [a]
    and [b]. *)
Definition quotient_log2 (a b : Z) : Z :=
  let d := (Z.log2 a - Z.log2 b)%Z in
  if bool_decide (b * 2 ^ Z.log2 a ≤ a * 2 ^ Z.log2 b)%Z then d else (d - 1)%Z.

(** [a / b] *)
Definition int_truediv (a b : Z) : result double :=
  if bool_decide (b = 0)%Z then raise ZeroDivisionError
  else if bool_decide (a = 0)%Z then ok (Double 0 0)
  else
    let e := Z.max (quotient_log2 (Z.abs a) (Z.abs b) - 52) (-1074) in
    let m := round_half_even (Z.abs a * 2 ^ Z.max 0 (- e)) (Z.abs b * 2 ^ Z.max 0 e) in
    ok (Double (Z.sgn a * Z.sgn b * m) e).

(** [math.ceil(x)] *)
Definition math_ceil (x : double) : Z :=
  if bool_decide (0 ≤ exponent x)%Z then (mantissa x * 2 ^ exponent x)%Z
  else (- ((- mantissa x) / 2 ^ (- exponent x)))%Z.

(** [math.ceil(a / b)] *)
Definition ceil_div (a b : Z) : result Z :=
  let? x := int_truediv a b in
  ok (math_ceil x).

(** [str(list)] of a list of integers, as torch prints a size. *)
Fixpoint join_ints (xs : list Z) : string :=
  match xs with
  | [] => ""
  | [x] => pretty x
  | x :: xs' => pretty x +:+ ", " +:+ join_ints xs'
  end.

(** [torch.zeros] called with the entries of [size] as its sizes, integers
    read at run time: the first negative entry is refused. *)
Definition torch_zeros_size {A} (zero : A) (size : list Z) (dt : scalar_type) (rg : bool)
    : result (tensor A) :=
  match filter (λ d, d < 0)%Z size with
  | d :: _ =>
      raise (RuntimeError ("Trying to create tensor with negative dimension " +:+ pretty d
                           +:+ ": [" +:+ join_ints size +:+ "]"))
  | [] => ok (torch_zeros zero (Z.to_nat <$> size) dt rg)
  end.

Definition _create_partitioned_buffer {A} (zero : A) (self : Adam) (data : tensor A)
    : result (tensor A) :=
  let new_shape := Z.of_nat <$> shape data in
  let? n := match new_shape !! 0 with
            | Some n => ok n
            | None => raise (IndexError "list index out of range")
            end in
  let? q := ceil_div n (_world_size self) in
  let new_shape := <[0 := q]> new_shape in
  let? buf := torch_zeros_size zero new_shape (dtype data) false in
  ok (to_device buf (device data)).

(** How the tensor returned by [_partition] relates to its argument. *)
Inductive origin : Type :=
  | SameObject                      (* the argument itself *)
  | ViewOf (start stop : nat)       (* a view of the argument's storage *)
  | FreshTensor.                    (* storage of its own *)

Definition _partition {A} (zero : A) (self : Adam) (global_data : tensor A)
    (local_data : tensor A) : result (origin * tensor A) :=
  let? need := _need_partition self global_data in
  if need then
    let? part_size := shape0 local_data in
    let? n := shape0 global_data in
    let lo := (_rank self * Z.of_nat part_size)%Z in
    let hi := ((_rank self + 1) * Z.of_nat part_size)%Z in
    if bool_decide (_world_size self * Z.of_nat part_size > Z.of_nat n)%Z then
      let pad_width :=
        <[length (shape global_data) * 2 - 1 :=
            (_world_size self * Z.of_nat part_size - Z.of_nat n)%Z]>
          (replicate (length (shape global_data) * 2) 0%Z) in
      let? part_data := F_pad zero global_data pad_width in
      let? part_data := getitem_slice part_data lo hi in
      ok (FreshTensor, part_data)
    else
      let? part_data := getitem_slice global_data lo hi in
      ok (ViewOf (slice_bound n lo) (slice_bound n hi), part_data)
  else ok (SameObject, global_data).

(** ** The step *)

(** What [_functional.adam] hands back: the updated parameter value, and the
    two moment buffers after their in-place update. *)
Record adam_out (A : Type) : Type := AdamOut {
  updated : tensor A;
  exp_avg_out : tensor A;
  exp_avg_sq_out : tensor A
}.
Arguments AdamOut {A} _ _ _.
Arguments updated {A} _.
Arguments exp_avg_out {A} _.
Arguments exp_avg_sq_out {A} _.

(** The numeric runtime: the element type with its zero, and the Adam kernel
    [_functional.adam], which is not among the sources at hand and is taken
    as a parameter. Its arguments are, in the order of the call in [step]:
    the parameter, gradient and the two moment buffers (each passed as a
    one-element list), the step count, then [amsgrad], [beta1], [beta2],
    [lr], [weight_decay] and [eps]. *)
Class Runtime : Type := {
  elem : Type;
  zero : elem;
  F_adam : tensor elem → tensor elem → tensor elem → tensor elem → Z →
           bool → Q → Q → Q → Q → Q → adam_out elem
}.

(** A parameter: its [data] and its [grad] (which may be [None]). *)
Record param `{Runtime} : Type := Param {
  p_data : tensor elem;
  p_grad : option (tensor elem)
}.
Arguments Param {_} _ _.

(** The per-parameter state dictionary with its three possible keys. *)
Record pstate `{Runtime} : Type := PState {
  st_step : option Z;
  st_exp_avg : option (tensor elem);
  st_exp_avg_sq : option (tensor elem)
}.
Arguments PState {_} _ _ _.

(** What [step] reads and mutates: the parameters (by identity),
    [self.state], and the number of [mark_step] calls issued. *)
Record world `{Runtime} : Type := World {
  heap : nat → param;
  opt_state : gmap nat pstate;
  mark_steps : nat
}.
Arguments World {_} _ _ _.

Section Step.
Context `{RT : Runtime}.

Definition empty_state : pstate := PState None None None.

(** [len(state)] *)
Definition state_len (st : pstate) : nat :=
  (if st_step st is Some _ then 1 else 0) + (if st_exp_avg st is Some _ then 1 else 0)
  + (if st_exp_avg_sq st is Some _ then 1 else 0).

(** Stateful computations that may raise; what was mutated before the
    exception stays mutated. *)
Definition M (A : Type) : Type := world → world * result A.

Definition mpure {A} (a : A) : M A := λ w, (w, ok a).
Definition mthrow {A} (e : exn) : M A := λ w, (w, raise e).
Definition mlift {A} (r : result A) : M A := λ w, (w, r).
Definition mseq {A B} (m : M A) (k : A → M B) : M B :=
  λ w, match m w with
       | (w', inl e) => (w', inl e)
       | (w', inr a) => k a w'
       end.

Notation "'let!' x ':=' m 'in' k" := (mseq m (λ x, k))
  (at level 10, x pattern, m at level 100, k at level 200, only parsing).

Fixpoint for_each {A} (xs : list A) (body : A → M unit) : M unit :=
  match xs with
  | [] => mpure tt
  | x :: xs' => let! _ := body x in for_each xs' body
  end.

Definition get_param (k : nat) : M param := λ w, (w, ok (heap w k)).

Definition set_param_data (k : nat) (d : tensor elem) : M unit :=
  λ w, (World (<[k := Param d (p_grad (heap w k))]> (heap w)) (opt_state w) (mark_steps w),
        ok tt).

(** [self.state[p]]: [self.state] is a [defaultdict(dict)], so looking up
    a parameter without state first stores an empty dictionary for it. *)
Definition state_of (k : nat) : M pstate :=
  λ w, match opt_state w !! k with
       | Some st => (w, ok st)
       | None => (World (heap w) (<[k := empty_state]> (opt_state w)) (mark_steps w),
                  ok empty_state)
       end.

Definition update_state (k : nat) (f : pstate → pstate) : M unit :=
  λ w, (World (heap w) (alter f k (opt_state w)) (mark_steps w), ok tt).

(** [state[key] = v] *)
Definition set_step (k : nat) (v : Z) : M unit :=
  update_state k (λ st, PState (Some v) (st_exp_avg st) (st_exp_avg_sq st)).
Definition set_exp_avg (k : nat) (v : tensor elem) : M unit :=
  update_state k (λ st, PState (st_step st) (Some v) (st_exp_avg_sq st)).
Definition set_exp_avg_sq (k : nat) (v : tensor elem) : M unit :=
  update_state k (λ st, PState (st_step st) (st_exp_avg st) (Some v)).

(** [state[key]] *)
Definition get_item {A} (k : nat) (key : string) (field : pstate → option A) : M A :=
  λ w, match opt_state w !! k ≫= field with
       | Some v => (w, ok v)
       | None => (w, raise (KeyError key))
       end.

(** [self._lm.mark_step()] *)
Definition mark_step : M unit :=
  λ w, (World (heap w) (opt_state w) (S (mark_steps w)), ok tt).

Definition sparse_msg : string :=
  "Adam does not support sparse gradients, please consider SparseAdam instead".

(** Lines 95-105: lazy state initialization. *)
Definition lazy_init (self : Adam) (k : nat) (p : param) : M unit :=
  let! _ := set_step k 0%Z in
  let! need := mlift (_need_partition self (p_data p)) in
  if need : bool then
    let! m := mlift (_create_partitioned_buffer zero self (p_data p)) in
    let! _ := set_exp_avg k m in
    let! v := mlift (_create_partitioned_buffer zero self (p_data p)) in
    set_exp_avg_sq k v
  else
    let! _ := set_exp_avg k
                (to_device (torch_zeros zero (shape (p_data p)) (dtype (p_data p)) false)
                           (device (p_data p))) in
    set_exp_avg_sq k
      (to_device (torch_zeros zero (shape (p_data p)) (dtype (p_data p)) false)
                 (device (p_data p))).

(** The index tensor of the write-back (line 133): zeros of type int64,
    shaped like the updated value and on its device. *)
Definition zero_index (updated_param_with_grad_local : tensor elem) : tensor Z :=
  to_device (torch_zeros 0%Z (shape updated_param_with_grad_local) int64 false)
            (device updated_param_with_grad_local).

(** Lines 130-137: write the updated value back into the parameter. *)
Definition write_back (self : Adam) (k : nat) (p : param)
    (updated_param_with_grad_local : tensor elem) : M unit :=
  let! need := mlift (_need_partition self (p_data p)) in
  if need : bool then
    let index := zero_index updated_param_with_grad_local in
    let! d := mlift (scatter_0 (p_data p) index updated_param_with_grad_local) in
    set_param_data k d
  else
    let! d := mlift (setitem_all (p_data p) updated_param_with_grad_local) in
    set_param_data k d.

(** Lines 107-141: read the moment buffers, cut the local shard of the
    parameter and of its gradient, bump the step count, run the kernel
    (which updates the moment buffers in place), write the result back
    and, if asked to, mark the step. *)
Definition adam_update (self : Adam) (group : param_group) (k : nat) (p : param)
    (p_grad : tensor elem) : M unit :=
  let '(beta1, beta2) := betas (group_hyper group) in
  let! exp_avg := get_item k "exp_avg" st_exp_avg in
  let! exp_avg_sq := get_item k "exp_avg_sq" st_exp_avg_sq in
  let! _ := (if bool_decide (shape exp_avg = shape exp_avg_sq) then mpure tt
             else mthrow AssertionError) in
  let! param_with_grad_local := mlift (_partition zero self (p_data p) exp_avg) in
  let! grad := mlift (_partition zero self p_grad exp_avg) in
  let! s := get_item k "step" st_step in
  let! _ := set_step k (s + 1)%Z in
  let state_step := (s + 1)%Z in
  let out := F_adam param_with_grad_local.2 grad.2 exp_avg exp_avg_sq state_step
               (amsgrad (group_hyper group)) beta1 beta2 (lr (group_hyper group))
               (weight_decay (group_hyper group)) (eps (group_hyper group)) in
  let! _ := set_exp_avg k (exp_avg_out out) in
  let! _ := set_exp_avg_sq k (exp_avg_sq_out out) in
  let! _ := write_back self k p (updated out) in
  if _lm self then mark_step else mpure tt.

(** Lines 88-141: the body of the loop for one parameter. *)
Definition step_param (self : Adam) (group : param_group) (k : nat) : M unit :=
  let! p := get_param k in
  match p_grad p with
  | None => mpure tt
  | Some p_grad =>
      if is_sparse p_grad then mthrow (RuntimeError sparse_msg)
      else
        let! state := state_of k in
        let! _ := (if state_len state =? 0 then lazy_init self k p else mpure tt) in
        adam_update self group k p p_grad
  end.

(** Lines 79-82: the closure, when given, is evaluated first. *)
Definition eval_closure (closure : option (M (tensor elem))) : M (option (tensor elem)) :=
  match closure with
  | None => mpure None
  | Some c => let! l := c in mpure (Some l)
  end.

(** Lines 84-141: every parameter of every group, in order. *)
Definition step_loop (self : Adam) : M unit :=
  for_each (param_groups self)
    (λ group, for_each (params group) (λ p, step_param self group p)).

Definition step (self : Adam) (closure : option (M (tensor elem))) : M (option (tensor elem)) :=
  let! loss := eval_closure closure in
  let! _ := step_loop self in
  mpure loss.

(** *** Executions *)

(** The kernel updates the moment buffers in place: they keep their shape. *)
Definition moments_in_place : Prop :=
  ∀ p g m v s ams b1 b2 l wd e,
    shape (exp_avg_out (F_adam p g m v s ams b1 b2 l wd e)) = shape m
    ∧ shape (exp_avg_sq_out (F_adam p g m v s ams b1 b2 l wd e)) = shape v.

(** The shapes of a moment buffer with which the update of a parameter [t]
    goes through: the shape of [t] when [t] is not shard-eligible, and when
    it is, the trailing dimensions of [t] under any number of rows. *)
Definition moment_shape_ok (self : Adam) (t : tensor elem) (sh : list nat) : Prop :=
  (_need_partition self t = ok false ∧ sh = shape t)
  ∨ (_need_partition self t = ok true
     ∧ ∃ n tr q, shape t = n :: tr ∧ sh = q :: tr).

(** The shape [step] gives the moment buffers it creates for a parameter
    [t]: the shape of [t] when [t] is not shard-eligible, and when it is,
    the shape of [t] with the leading dimension [n] replaced by
    [math.ceil(n / world_size)]. *)
Definition created_shape (self : Adam) (t : tensor elem) (sh : list nat) : Prop :=
  (_need_partition self t = ok false ∧ sh = shape t)
  ∨ (_need_partition self t = ok true
     ∧ ∃ n tr q, shape t = n :: tr
                 ∧ ceil_div (Z.of_nat n) (_world_size self) = ok q
                 ∧ sh = Z.to_nat q :: tr).






(** *** Well-formed configurations and worlds *)

(** The distributed context as the data model has it: a positive world
    size and a rank below it. *)
Definition wf_config (self : Adam) : Prop :=
  (0 < _world_size self)%Z ∧ (0 ≤ _rank self < _world_size self)%Z.

(** On well-formed arguments of one shape the kernel returns an updated
    value of that shape, with one element per index. *)
Definition kernel_keeps_shape : Prop :=
  ∀ p g m v s ams b1 b2 l wd e,
    wf_tensor p → wf_tensor g →
    shape g = shape p → shape m = shape p → shape v = shape p →
    shape (updated (F_adam p g m v s ams b1 b2 l wd e)) = shape p
    ∧ wf_tensor (updated (F_adam p g m v s ams b1 b2 l wd e)).

(** A parameter has at least one dimension, and a dense gradient has the
    shape of its parameter. *)
Definition wf_param (p : param) : Prop :=
  shape (p_data p) ≠ []
  ∧ wf_tensor (p_data p)
  ∧ ∀ g, p_grad p = Some g → is_sparse g = false →
         shape g = shape (p_data p) ∧ wf_tensor g.

(** A state dictionary is empty or complete, with buffers of a right shape. *)
Definition wf_state (self : Adam) (p : param) (st : pstate) : Prop :=
  st = empty_state
  ∨ ∃ s m v, st = PState (Some s) (Some m) (Some v)
             ∧ shape m = shape v
             ∧ moment_shape_ok self (p_data p) (shape m).

Definition wf_world (self : Adam) (w : world) : Prop :=
  ∀ k, wf_param (heap w k)
       ∧ ∀ st, opt_state w !! k = Some st → wf_state self (heap w k) st.

End Step.

(** ** A small runtime over the integers

    It instantiates the development on concrete inputs: elements are
    integers and the kernel is a stand-in with the interface of
    [_functional.adam] (the value moves against the gradient, the moment
    buffers accumulate the gradient and its square, in place). *)

Definition inplace {A} (t : tensor A) (d : list A) : tensor A :=
  Tensor (shape t) (dtype t) (device t) (requires_grad t) (is_sparse t) d.

Definition toy_adam (param grad exp_avg exp_avg_sq : tensor Z) (step : Z)
    (amsgrad : bool) (beta1 beta2 lr weight_decay eps : Q) : adam_out Z :=
  AdamOut
    (Tensor (shape param) (dtype param) (device param) false false
       (zip_with Z.sub (data param) (data grad)))
    (inplace exp_avg (zip_with Z.add (data exp_avg) (data grad)))
    (inplace exp_avg_sq (zip_with (λ v g, v + g * g)%Z (data exp_avg_sq) (data grad))).

Definition toy_runtime : Runtime := {| elem := Z; zero := 0%Z; F_adam := toy_adam |}.

(** A host whose base-class constructor makes one group of the given
    parameters with the defaults, as [torch.optim.Optimizer] does for a
    non-empty list of tensors. *)
Definition toy_host (ctx : dist_context) : host :=
  Host (λ ps d, match ps with
                | [] => raise (ValueError "optimizer got an empty parameter list")
                | _ => ok [ParamGroup ps d]
                end)
       ctx (ok tt).

(** A two-rank configuration seen from rank 1, with one [4, 1] parameter. *)
Definition toy_hyper : hyper :=
  Hyper default_lr default_betas default_eps default_weight_decay default_amsgrad.

Definition toy_optimizer : Adam := mkAdam [ParamGroup [0] toy_hyper] 1 1 2 false.

Definition toy_tensor (sparse : bool) (d : list Z) : tensor Z :=
  Tensor [4; 1] float32 "cpu" false sparse d.

Definition toy_updated : tensor Z := Tensor [2; 1] float32 "cpu" false false [27; 36]%Z.

Definition toy_param : @param toy_runtime :=
  @Param toy_runtime (toy_tensor false [10; 20; 30; 40]%Z)
                     (Some (toy_tensor false [1; 2; 3; 4]%Z)).

Definition toy_world : @world toy_runtime := @World toy_runtime (λ _, toy_param) ∅ 0.

(** A parameter without dimensions, with a dense gradient. *)
Definition scalar_param : @param toy_runtime :=
  @Param toy_runtime (Tensor [] float32 "cpu" false false [10%Z])
                     (Some (Tensor [] float32 "cpu" false false [1%Z])).

Definition scalar_world : @world toy_runtime := @World toy_runtime (λ _, scalar_param) ∅ 0.

Definition toy_sparse_world : @world toy_runtime :=
  @World toy_runtime
    (λ _, @Param toy_runtime (toy_tensor false [10; 20; 30; 40]%Z)
                             (Some (toy_tensor true [])))
    ∅ 0.

(** ** Further parts of the sources *)

(** *** [Adam.__setstate__]

    After the base class has restored the attributes, every parameter group
    (a Python dictionary) gets [amsgrad = False] unless it has the key
    already: [group.setdefault('amsgrad', False)]. *)

Inductive pyval : Type :=
  | PyBool (b : bool)
  | PyNum (q : Q)
  | PyPair (a b : Q)
  | PyParams (ks : list nat)
  | PyNone.

(** [d.setdefault(key, v)], as far as the dictionary is concerned. *)
Definition setdefault (key : string) (v : pyval) (d : gmap string pyval) : gmap string pyval :=
  match d !! key with
  | Some _ => d
  | None => <[key := v]> d
  end.

(** [param_groups] is [self.param_groups] as the base class left it. *)
Definition __setstate__ (param_groups : list (gmap string pyval)) : list (gmap string pyval) :=
  setdefault "amsgrad" (PyBool false) <$> param_groups.

(** *** The same optimizer on another rank *)

Definition with_rank (self : Adam) (r : Z) : Adam :=
  mkAdam (param_groups self) (_zero_opt_level self) r (_world_size self) (_lm self).

(** The parameters [step] visits, in order (a parameter listed twice is
    visited twice). *)
Definition visited (self : Adam) : list nat :=
  param_groups self ≫= params.

(** *** bfloat16 conversions of [tests/python/model/test_linear_bf16.py]

    Arrays are lists of unsigned integers; [uint32] and [uint16] arithmetic
    wraps around. A float32 is seen through its bit pattern ([view("<u4")]). *)

Definition uint32 (x : Z) : Z := x mod 2 ^ 32.
Definition uint16 (x : Z) : Z := x mod 2 ^ 16.

(** One element of [np_float2np_bf16]:
    [bias = ((orig >> 16) & 1) + 0x7FFF] and [(orig + bias) >> 16], in
    [uint32], then [astype("uint16")]. *)
Definition float2bf16 (orig : Z) : Z :=
  let bias := uint32 (Z.land (Z.shiftr orig 16) 1 + 0x7FFF) in
  uint16 (Z.shiftr (uint32 (orig + bias)) 16).

Definition np_float2np_bf16 (arr : list Z) : list Z := float2bf16 <$> arr.

(** One element of [np_bf162np_float]: [arr.astype("uint32") << 16]. *)
Definition bf162float (b : Z) : Z := uint32 (Z.shiftl (uint32 b) 16).

Definition np_bf162np_float (arr : list Z) : list Z := bf162float <$> arr.

(** The fields of a float32 bit pattern. *)
Definition f32_sign (x : Z) : Z := Z.shiftr x 31.
Definition f32_exponent (x : Z) : Z := Z.land (Z.shiftr x 23) 0xFF.
Definition f32_mantissa (x : Z) : Z := Z.land x 0x7FFFFF.

(** * Properties *)

(** ** Index arithmetic *)

Lemma numel_cons d sh : numel (d :: sh) = d * numel sh.
Proof. reflexivity. Qed.

Lemma length_unravel sh o : length (unravel sh o) = length sh.
Proof. revert o; induction sh as [|d sh IH]; intros o; simpl; [done|]. by rewrite IH. Qed.

Lemma unravel_lt sh o : o < numel sh → Forall2 lt (unravel sh o) sh.
Proof.
  revert o; induction sh as [|d sh IH]; intros o Ho; simpl; [constructor|].
  rewrite numel_cons in Ho.
  assert (0 < numel sh) by (destruct (numel sh); lia).
  constructor.
  - apply Nat.Div0.div_lt_upper_bound. lia.
  - apply IH. apply Nat.mod_upper_bound. lia.
Qed.

Lemma ravel_unravel sh o : o < numel sh → ravel sh (unravel sh o) = o.
Proof.
  revert o; induction sh as [|d sh IH]; intros o Ho; simpl in *; [lia|].
  fold (numel sh) in *.
  assert (0 < numel sh) by (destruct (numel sh); lia).
  rewrite IH by (apply Nat.mod_upper_bound; lia).
  pose proof (Nat.div_mod_eq o (numel sh)). lia.
Qed.

(** ** Shard eligibility *)

Lemma need_partition_cons {A} (self : Adam) (data : tensor A) n tr :
  shape data = n :: tr →
  _need_partition self data
  = ok (bool_decide (_zero_opt_level self > 0)%Z && bool_decide (Z.of_nat n >= _world_size self)%Z).
Proof.
  intros Hsh. unfold _need_partition, shape0. rewrite Hsh.
  by destruct (bool_decide (_zero_opt_level self > 0)%Z).
Qed.

Lemma need_partition_true {A} (self : Adam) (data : tensor A) :
  _need_partition self data = ok true ↔
  (_zero_opt_level self > 0)%Z ∧
  ∃ n tr, shape data = n :: tr ∧ (Z.of_nat n >= _world_size self)%Z.
Proof.
  unfold _need_partition, shape0. split.
  - case_bool_decide as Hlvl; [|discriminate].
    destruct (shape data) as [|n tr]; [discriminate|]. simpl.
    intros [= Hb]. apply bool_decide_eq_true in Hb. eauto.
  - intros (Hlvl & n & tr & -> & Hn). simpl.
    rewrite !bool_decide_eq_true_2 by done. done.
Qed.

(** C3. [_need_partition] answers true exactly when [zero_opt_level > 0] and
    the leading dimension is at least [world_size]; on every tensor that has
    a leading dimension it returns that boolean; with [zero_opt_level = 0]
    it is false whatever the shape; and with [world_size = 4] and
    [zero_opt_level = 1] a [10, 8] parameter is eligible, a [3, 8] one is
    not. *)
Theorem C3_need_partition {A} (self : Adam) (data : tensor A) :
  (_need_partition self data = ok true ↔
     (_zero_opt_level self > 0)%Z ∧
     ∃ n tr, shape data = n :: tr ∧ (Z.of_nat n >= _world_size self)%Z)
  ∧ (∀ n tr, shape data = n :: tr →
       _need_partition self data
       = ok (bool_decide ((_zero_opt_level self > 0)%Z ∧ (Z.of_nat n >= _world_size self)%Z)))
  ∧ (∀ groups rk ws lm, _need_partition (mkAdam groups 0 rk ws lm) data = ok false)
  ∧ (∀ groups rk lm dt dev rg sp (d : list A),
       _need_partition (mkAdam groups 1 rk 4 lm) (Tensor [10; 8] dt dev rg sp d) = ok true
       ∧ _need_partition (mkAdam groups 1 rk 4 lm) (Tensor [3; 8] dt dev rg sp d) = ok false).
Proof.
  split; [apply need_partition_true|]. split.
  - intros n tr Hsh. rewrite (need_partition_cons _ _ _ _ Hsh). f_equal.
    repeat case_bool_decide; simpl; try done; tauto.
  - split; [done|]. intros. split; reflexivity.
Qed.

Lemma C3_need_partition_witness :
  _need_partition (mkAdam [] 2 1 4 true)
    (Tensor [4; 2] float32 "cpu" true false (replicate 8 0%Z)) = ok true.
Proof.
  apply (proj2 (proj1 (C3_need_partition _ _))).
  split; [simpl; lia|]. exists 4, [2]. split; [reflexivity|]. simpl. lia.
Defined.

(** ** Shard buffers *)

(** *** The ceiling through a double *)

Lemma round_half_even_near (x y : Z) :
  (0 ≤ x)%Z → (0 < y)%Z →
  (2 * x - y ≤ 2 * (round_half_even x y * y) ≤ 2 * x + y)%Z
  ∧ (0 ≤ round_half_even x y)%Z
  ∧ ((x mod y = 0)%Z → round_half_even x y = (x / y)%Z).
Proof.
  intros Hx Hy. unfold round_half_even.
  pose proof (Z.div_mod x y ltac:(lia)) as Hdm.
  pose proof (Z.mod_pos_bound x y Hy) as Hr.
  assert (0 ≤ x / y)%Z by (apply Z.div_pos; lia).
  repeat case_bool_decide; try destruct (Z.even (x / y)); split_and!; try nia; try done;
    intros; lia.
Qed.

Lemma ceil_unique (m T c : Z) :
  (0 < T)%Z → ((c - 1) * T < m ≤ c * T)%Z → (- ((- m) / T))%Z = c.
Proof.
  intros HT Hc.
  pose proof (Z.div_mod (- m) T ltac:(lia)) as Hdm.
  pose proof (Z.mod_pos_bound (- m) T HT) as Hr.
  nia.
Qed.

Lemma quotient_log2_scale (a b : Z) :
  (0 < a < 2 ^ 53)%Z → (0 < b < 2 ^ 1022)%Z →
  (0 ≤ 52 - quotient_log2 a b ≤ 1074)%Z
  ∧ (b * 2 ^ 52 ≤ a * 2 ^ (52 - quotient_log2 a b) < b * 2 ^ 53)%Z.
Proof.
  intros [Ha Ha'] [Hb Hb'].
  pose proof (Z.log2_spec a Ha) as [HA HA'].
  pose proof (Z.log2_spec b Hb) as [HB HB'].
  pose proof (Z.log2_nonneg a) as Hla.
  pose proof (Z.log2_nonneg b) as Hlb.
  assert (Z.log2 a < 53)%Z as Hla' by (apply Z.log2_lt_pow2; lia).
  assert (Z.log2 b < 1022)%Z as Hlb' by (apply Z.log2_lt_pow2; lia).
  rewrite Z.pow_succ_r in HA', HB' by done.
  assert (2 ^ Z.log2 a * 2 ^ (52 - Z.log2 a) = 2 ^ 52)%Z as HK
    by (rewrite <- Z.pow_add_r by lia; f_equal; lia).
  assert (0 < 2 ^ (52 - Z.log2 a))%Z as HP by (apply Z.pow_pos_nonneg; lia).
  set (A := (2 ^ Z.log2 a)%Z) in *. set (B := (2 ^ Z.log2 b)%Z) in *.
  set (P := (2 ^ (52 - Z.log2 a))%Z) in *.
  replace (2 ^ 53)%Z with (2 * 2 ^ 52)%Z by done.
  set (K := (2 ^ 52)%Z) in *.
  unfold quotient_log2. fold A B. case_bool_decide as Htest.
  - split; [lia|].
    replace (52 - (Z.log2 a - Z.log2 b))%Z with ((52 - Z.log2 a) + Z.log2 b)%Z by lia.
    rewrite Z.pow_add_r by lia. fold P B. nia.
  - split; [lia|].
    replace (52 - (Z.log2 a - Z.log2 b - 1))%Z with (1 + ((52 - Z.log2 a) + Z.log2 b))%Z by lia.
    rewrite Z.pow_add_r by lia. rewrite Z.pow_add_r by lia. fold P B.
    change (2 ^ 1)%Z with 2%Z. nia.
Qed.

(** Below 2^53 the ceiling taken through a double is the ceiling of the
    quotient. *)
Lemma ceil_div_exact (a b : Z) :
  (0 ≤ a < 2 ^ 53)%Z → (0 < b < 2 ^ 1022)%Z →
  ceil_div a b = ok (- ((- a) / b))%Z.
Proof.
  intros [Ha Ha'] Hb. unfold ceil_div, int_truediv.
  rewrite bool_decide_eq_false_2 by lia.
  case_bool_decide as Ha0.
  { subst a. simpl. unfold math_ceil. simpl. done. }
  rewrite (Z.abs_eq a), (Z.abs_eq b), (Z.sgn_pos a), (Z.sgn_pos b) by lia.
  destruct (quotient_log2_scale a b) as [Ht [F1 F2]]; [lia|done|].
  set (L := quotient_log2 a b) in *.
  rewrite (Z.max_l (L - 52) (-1074)) by lia.
  replace (Z.max 0 (- (L - 52)))%Z with (52 - L)%Z by lia.
  replace (Z.max 0 (L - 52))%Z with 0%Z by lia.
  rewrite Z.pow_0_r, (Z.mul_1_r b), !Z.mul_1_l.
  assert (0 < 2 ^ (52 - L))%Z as HT by (apply Z.pow_pos_nonneg; lia).
  set (T := (2 ^ (52 - L))%Z) in *.
  destruct (round_half_even_near (a * T) b) as (Hnear & Hm0 & Hexact); [nia|lia|].
  set (m := round_half_even (a * T) b) in *.
  set (c := (- ((- a) / b))%Z).
  assert ((c - 1) * b < a ≤ c * b)%Z as Hc.
  { unfold c. pose proof (Z.mul_div_le (- a) b ltac:(lia)).
    pose proof (Z.mul_succ_div_gt (- a) b ltac:(lia)). lia. }
  assert (b < 2 * T)%Z as HbT.
  { change (2 ^ 53)%Z with (2 * 2 ^ 52)%Z in Ha', F2. nia. }
  assert ((c - 1) * T < m ≤ c * T)%Z as Hm.
  { split.
    - assert ((c - 1) * b * T + T ≤ a * T)%Z by nia. nia.
    - destruct (decide (a = c * b)%Z) as [Heq|Hne].
      + assert (m = (a * T / b)%Z) as ->.
        { apply Hexact. rewrite Heq.
          replace (c * b * T)%Z with (c * T * b)%Z by lia. apply Z.mod_mul. lia. }
        rewrite Heq. replace (c * b * T)%Z with (c * T * b)%Z by lia.
        rewrite Z.div_mul by lia. lia.
      + assert (a * T + T ≤ c * b * T)%Z by nia. nia. }
  unfold math_ceil, ok. simpl. f_equal. case_bool_decide as He.
  - assert (L = 52)%Z as HL by lia.
    assert (T = 1)%Z as HT1 by (unfold T; by replace (52 - L)%Z with 0%Z by lia).
    replace (L - 52)%Z with 0%Z by lia. rewrite Z.pow_0_r. clearbody T m. subst T. lia.
  - replace (- (L - 52))%Z with (52 - L)%Z by lia. fold T. by apply ceil_unique.
Qed.

Lemma ceil_div_spec (a b : Z) :
  (0 ≤ a < 2 ^ 53)%Z → (0 < b < 2 ^ 1022)%Z →
  ∃ q, ceil_div a b = ok q ∧ ((q - 1) * b < a ≤ q * b)%Z.
Proof.
  intros Ha Hb. rewrite ceil_div_exact by done.
  eexists; split; [reflexivity|].
  pose proof (Z.mul_div_le (- a) b ltac:(lia)).
  pose proof (Z.mul_succ_div_gt (- a) b ltac:(lia)). lia.
Qed.

(** With a positive divisor the division does not raise, and leaves a
    number of rows. *)
Lemma ceil_div_nonneg (a b : Z) :
  (0 ≤ a)%Z → (0 < b)%Z → ∃ q, ceil_div a b = ok q ∧ (0 ≤ q)%Z.
Proof.
  intros Ha Hb. unfold ceil_div, int_truediv.
  rewrite bool_decide_eq_false_2 by lia.
  case_bool_decide as Ha0.
  { eexists. split; [reflexivity|]. unfold math_ceil. simpl. lia. }
  rewrite (Z.abs_eq a), (Z.abs_eq b), (Z.sgn_pos a), (Z.sgn_pos b) by lia.
  set (e := Z.max (quotient_log2 a b - 52) (-1074)).
  assert (0 < 2 ^ Z.max 0 (- e))%Z by (apply Z.pow_pos_nonneg; lia).
  assert (0 < 2 ^ Z.max 0 e)%Z by (apply Z.pow_pos_nonneg; lia).
  destruct (round_half_even_near (a * 2 ^ Z.max 0 (- e)) (b * 2 ^ Z.max 0 e))
    as (_ & Hm0 & _); [nia|nia|].
  set (m := round_half_even _ _) in *.
  eexists. split; [reflexivity|]. unfold math_ceil. simpl.
  rewrite !Z.mul_1_l. case_bool_decide.
  - apply Z.mul_nonneg_nonneg; [done|]. apply Z.pow_nonneg. lia.
  - assert (0 < 2 ^ (- e))%Z by (apply Z.pow_pos_nonneg; lia).
    assert ((- m) / 2 ^ (- e) ≤ 0)%Z; [|lia].
    apply Z.div_le_upper_bound; lia.
Qed.

(** Beyond 2^53 the double rounds the quotient, and the ceiling with it:
    [math.ceil((2^53 + 1) / 2)] is [2^52], one less than the ceiling of the
    quotient; and a quotient too small for a double is rounded to zero. *)
Lemma ceil_div_rounds :
  ceil_div (2 ^ 53 + 1) 2 = ok (2 ^ 52)%Z
  ∧ ceil_div (2 ^ 53 + 1) (2 ^ 40) = ok 8192%Z
  ∧ ceil_div 1 (2 ^ 1100) = ok 0%Z.
Proof. split_and!; vm_compute; reflexivity. Qed.

(** *** The buffer *)

Lemma fmap_to_nat_of_nat (l : list nat) : Z.to_nat <$> (Z.of_nat <$> l) = l.
Proof. induction l as [|x l IH]; [done|]. rewrite !fmap_cons, Nat2Z.id. by f_equal. Qed.

Lemma filter_negative_of_nat (l : list nat) : filter (λ d, d < 0)%Z (Z.of_nat <$> l) = [].
Proof.
  induction l as [|x l IH]; [done|].
  rewrite fmap_cons, filter_cons_False by lia. done.
Qed.

(** The buffer in terms of the row count [math.ceil(n / world_size)]. *)
Lemma create_partitioned_buffer_rows {A} (zero : A) (self : Adam) (t : tensor A)
    (n : nat) (tr : list nat) (q : Z) :
  shape t = n :: tr →
  ceil_div (Z.of_nat n) (_world_size self) = ok q →
  (0 ≤ q)%Z →
  _create_partitioned_buffer zero self t
  = ok (to_device (torch_zeros zero (Z.to_nat q :: tr) (dtype t) false) (device t)).
Proof.
  intros Hsh Hq Hq0. unfold _create_partitioned_buffer. rewrite Hsh. simpl. rewrite Hq. simpl.
  unfold torch_zeros_size. rewrite filter_cons_False by lia.
  rewrite filter_negative_of_nat. simpl. by rewrite fmap_to_nat_of_nat.
Qed.

Lemma create_partitioned_buffer_inv {A} (zero : A) (self : Adam) (t m : tensor A) :
  _create_partitioned_buffer zero self t = ok m →
  ∃ n tr q, shape t = n :: tr
            ∧ ceil_div (Z.of_nat n) (_world_size self) = ok q
            ∧ (0 ≤ q)%Z
            ∧ m = to_device (torch_zeros zero (Z.to_nat q :: tr) (dtype t) false) (device t).
Proof.
  unfold _create_partitioned_buffer.
  destruct (shape t) as [|n tr] eqn:Hsh; [done|]. simpl.
  destruct (ceil_div _ _) as [e|q] eqn:Hq; [done|]. simpl.
  unfold torch_zeros_size.
  destruct (decide (q < 0)%Z) as [Hneg|Hpos].
  - rewrite filter_cons_True by done. done.
  - rewrite filter_cons_False by done. rewrite filter_negative_of_nat. simpl.
    rewrite fmap_to_nat_of_nat. intros [= <-]. exists n, tr, q. split_and!; try done. lia.
Qed.

(** The exceptions of the buffer creation: no leading dimension, a world
    size of zero, a negative row count. *)
Lemma create_partitioned_buffer_raises {A} (zero : A) :
  (∀ (self : Adam) (t : tensor A),
     shape t = [] →
     _create_partitioned_buffer zero self t = raise (IndexError "list index out of range"))
  ∧ (∀ (self : Adam) (t : tensor A),
       shape t ≠ [] → _world_size self = 0%Z →
       _create_partitioned_buffer zero self t = raise ZeroDivisionError)
  ∧ (∀ groups lvl rk lm dt dev rg sp (d : list A),
       _create_partitioned_buffer zero (mkAdam groups lvl rk (-1) lm)
         (Tensor [2; 3] dt dev rg sp d)
       = raise (RuntimeError "Trying to create tensor with negative dimension -2: [-2, 3]")).
Proof.
  split_and!.
  - intros self t Hsh. unfold _create_partitioned_buffer. by rewrite Hsh.
  - intros self t Hsh Hws. unfold _create_partitioned_buffer, ceil_div, int_truediv.
    destruct (shape t) as [|n tr]; [done|]. simpl.
    rewrite Hws. by rewrite bool_decide_eq_true_2 by done.
  - intros. vm_compute. reflexivity.
Qed.

(** C4. On a parameter with leading dimension [n] below 2^53 and trailing
    dimensions [tr], with a positive world size below 2^1022,
    [_create_partitioned_buffer] returns a buffer of shape [q :: tr] where
    [q] is the ceiling of [n / world_size] (the one integer with
    [(q-1) * world_size < n <= q * world_size]), filled with zeros, of the
    parameter's dtype and device, dense and without gradient tracking. With
    [world_size = 4], leading dimension 10 gives 3 and leading dimension 8
    gives 2. (The bounds are those within which the double that
    [math.ceil(n / world_size)] goes through holds the quotient well enough.) *)
Theorem C4_create_partitioned_buffer {A} (zero : A) (self : Adam) (param : tensor A)
    (n : nat) (tr : list nat) :
  shape param = n :: tr →
  (Z.of_nat n < 2 ^ 53)%Z →
  (0 < _world_size self < 2 ^ 1022)%Z →
  (∃ (buf : tensor A) (q : nat),
      _create_partitioned_buffer zero self param = ok buf
      ∧ shape buf = q :: tr
      ∧ ((Z.of_nat q - 1) * _world_size self < Z.of_nat n ≤ Z.of_nat q * _world_size self)%Z
      ∧ dtype buf = dtype param
      ∧ device buf = device param
      ∧ requires_grad buf = false
      ∧ is_sparse buf = false
      ∧ data buf = replicate (q * numel tr) zero)
  ∧ (∀ groups lvl rk lm dt dev rg sp (d : list A),
       _create_partitioned_buffer zero (mkAdam groups lvl rk 4 lm) (Tensor (10 :: tr) dt dev rg sp d)
       = ok (Tensor (3 :: tr) dt dev false false (replicate (3 * numel tr) zero))
       ∧ _create_partitioned_buffer zero (mkAdam groups lvl rk 4 lm) (Tensor (8 :: tr) dt dev rg sp d)
       = ok (Tensor (2 :: tr) dt dev false false (replicate (2 * numel tr) zero))).
Proof.
  intros Hsh Hn Hws. split.
  - destruct (ceil_div_spec (Z.of_nat n) (_world_size self)) as (q & Hq & Hlo & Hhi);
      [lia|done|].
    assert (0 ≤ q)%Z by nia.
    exists (to_device (torch_zeros zero (Z.to_nat q :: tr) (dtype param) false) (device param)),
           (Z.to_nat q).
    rewrite (create_partitioned_buffer_rows zero self param n tr q) by done.
    rewrite Z2Nat.id by done. repeat split; done.
  - intros. split.
    + by rewrite (create_partitioned_buffer_rows zero _ _ 10 tr 3).
    + by rewrite (create_partitioned_buffer_rows zero _ _ 8 tr 2).
Qed.

Lemma C4_create_partitioned_buffer_witness :
  ∃ buf, _create_partitioned_buffer 0%Z (mkAdam [] 1 0 3 false)
           (Tensor [10; 2] bfloat16 "lazy:0" true false (replicate 20 7%Z)) = ok buf
         ∧ shape buf = [4; 2].
Proof.
  destruct (C4_create_partitioned_buffer 0%Z (mkAdam [] 1 0 3 false)
              (Tensor [10; 2] bfloat16 "lazy:0" true false (replicate 20 7%Z)) 10 [2])
    as [(buf & q & Hbuf & Hshape & Hq & _) _]; [reflexivity | simpl; lia | simpl; lia |].
  exists buf. split; [exact Hbuf|].
  rewrite Hshape. f_equal. simpl in Hq. lia.
Defined.

(** Outside these bounds the leading dimension is not the ceiling: a
    parameter of [2^53 + 1] rows (and no elements) gets, for two ranks, a
    buffer of [2^52] rows, one fewer than the ceiling [2^52 + 1]; and with a
    world size of [2^1100] a parameter of one row gets a buffer of no rows. *)
Lemma C4_counterexample :
  (∃ buf,
     _create_partitioned_buffer 0%Z (mkAdam [] 1 0 2 false)
       (Tensor [Z.to_nat (2 ^ 53 + 1)%Z; 0] float32 "cpu" false false []) = ok buf
     ∧ shape buf = [Z.to_nat (2 ^ 52)%Z; 0]
     ∧ ¬ ∃ q, shape buf = [q; 0]
              ∧ ((Z.of_nat q - 1) * 2 < Z.of_nat (Z.to_nat (2 ^ 53 + 1)%Z)
                 ≤ Z.of_nat q * 2)%Z)
  ∧ (∃ buf,
       _create_partitioned_buffer 0%Z (mkAdam [] 1 0 (2 ^ 1100) false)
         (Tensor [1] float32 "cpu" false false [7%Z]) = ok buf
       ∧ shape buf = [0]
       ∧ ¬ ∃ q, shape buf = [q]
                ∧ ((Z.of_nat q - 1) * 2 ^ 1100 < Z.of_nat 1 ≤ Z.of_nat q * 2 ^ 1100)%Z).
Proof.
  assert (Hhead : ∀ (x y : nat) (l l' : list nat), x :: l = y :: l' → x = y)
    by (by intros x y l l' [= -> _]).
  split.
  - eexists. split; [|split].
    + apply (create_partitioned_buffer_rows 0%Z _ _ (Z.to_nat (2 ^ 53 + 1)%Z) [0] (2 ^ 52)%Z);
        [reflexivity| |lia].
      rewrite Z2Nat.id by lia. apply ceil_div_rounds.
    + reflexivity.
    + intros (q & Hq & Hlo & Hhi). cbn [shape to_device torch_zeros] in Hq.
      apply Hhead in Hq. rewrite Z2Nat.id in Hlo, Hhi by lia.
      assert (Z.of_nat q = 2 ^ 52)%Z by (rewrite <- Hq; apply Z2Nat.id; lia). lia.
  - eexists. split; [|split].
    + apply (create_partitioned_buffer_rows 0%Z _ _ 1 [] 0%Z); [reflexivity| |lia].
      apply ceil_div_rounds.
    + reflexivity.
    + intros (q & Hq & Hlo & Hhi). cbn [shape to_device torch_zeros] in Hq.
      apply Hhead in Hq. subst q. simpl in Hhi. lia.
Qed.

(** ** Construction *)

Lemma Qle_bool_false (a b : Q) : Qle_bool a b = false ↔ (b < a)%Q.
Proof.
  split.
  - intros Hf. apply Qnot_le_lt. intros Hle. apply Qle_bool_iff in Hle. congruence.
  - intros Hlt. destruct (Qle_bool a b) eqn:E; [|done].
    apply Qle_bool_iff in E. by apply Qlt_not_le in Hlt.
Qed.

Lemma Qlt_bool_iff (a b : Q) : Qlt_bool a b = true ↔ (a < b)%Q.
Proof. unfold Qlt_bool. rewrite negb_true_iff. apply Qle_bool_false. Qed.

(** The numeric constraints of the constructor. *)
Definition valid_numerics (lr : Q) (betas : Q * Q) (eps weight_decay : Q) : Prop :=
  (0 <= lr)%Q ∧ (0 <= eps)%Q ∧ (0 <= betas.1)%Q ∧ (betas.1 < 1)%Q
  ∧ (0 <= betas.2)%Q ∧ (betas.2 < 1)%Q ∧ (0 <= weight_decay)%Q.

Lemma init_valid (h : host) ps lr betas eps wd ams mark :
  valid_numerics lr betas eps wd →
  __init__ h ps lr betas eps wd ams mark
  = if ams then raise (NotImplementedError "amsgrad==True is not yet supported")
    else let? groups := Optimizer_init h ps (Hyper lr betas eps wd false) in
         let? _ := (if mark then import_lazy_model h else ok tt) in
         ok (mkAdam groups (zero_opt_level (get_context h)) (rank (get_context h))
                    (size (get_context h)) mark).
Proof.
  intros (Hlr & Heps & Hb1 & Hb1' & Hb2 & Hb2' & Hwd). unfold __init__.
  apply Qle_bool_iff in Hlr, Heps, Hb1, Hb2, Hwd.
  apply Qlt_bool_iff in Hb1', Hb2'.
  rewrite Hlr, Heps, Hb1, Hb1', Hb2, Hb2', Hwd. simpl. by destruct ams.
Qed.

Lemma init_invalid (h : host) ps lr betas eps wd ams mark :
  ¬ valid_numerics lr betas eps wd →
  ∃ msg, __init__ h ps lr betas eps wd ams mark = raise (ValueError msg).
Proof.
  intros Hinv. unfold __init__, Qlt_bool.
  destruct (Qle_bool 0 lr) eqn:Hlr; simpl; [|eauto].
  destruct (Qle_bool 0 eps) eqn:Heps; simpl; [|eauto].
  destruct (Qle_bool 0 betas.1) eqn:Hb1; simpl; [|eauto].
  destruct (Qle_bool 1 betas.1) eqn:Hb1'; simpl; [eauto|].
  destruct (Qle_bool 0 betas.2) eqn:Hb2; simpl; [|eauto].
  destruct (Qle_bool 1 betas.2) eqn:Hb2'; simpl; [eauto|].
  destruct (Qle_bool 0 wd) eqn:Hwd; simpl; [|eauto].
  exfalso. apply Hinv.
  apply Qle_bool_iff in Hlr, Heps, Hb1, Hb2, Hwd.
  apply Qle_bool_false in Hb1', Hb2'. repeat split; done.
Qed.

(** C8. Hyper-parameter validation in [__init__]. A negative [lr], a negative
    [eps], a [beta] outside [0, 1) or a negative [weight_decay] raises
    [ValueError] (whatever [amsgrad] is: the numeric checks come first);
    [amsgrad = True] with valid numbers raises [NotImplementedError], so
    with [amsgrad = True] the constructor always raises one of the two; a
    raising constructor returns no optimizer. With the default
    arguments every check passes: the constructor goes on to the base-class
    constructor and returns the optimizer built from the groups that one
    returns. *)
Theorem C8_init_validation (h : host) (ps : list nat) (lr : Q) (betas : Q * Q)
    (eps wd : Q) (ams mark : bool) :
  ((lr < 0 ∨ eps < 0 ∨ ¬ (0 <= betas.1 ∧ betas.1 < 1) ∨ ¬ (0 <= betas.2 ∧ betas.2 < 1)
    ∨ wd < 0)%Q →
     ∃ msg, __init__ h ps lr betas eps wd ams mark = raise (ValueError msg))
  ∧ (valid_numerics lr betas eps wd →
     __init__ h ps lr betas eps wd true mark
     = raise (NotImplementedError "amsgrad==True is not yet supported"))
  ∧ (∃ e, __init__ h ps lr betas eps wd true mark = raise e
          ∧ (e = NotImplementedError "amsgrad==True is not yet supported"
             ∨ ∃ msg, e = ValueError msg))
  ∧ __init__ h ps default_lr default_betas default_eps default_weight_decay
             default_amsgrad default_mark_step
    = (let? groups := Optimizer_init h ps
                        (Hyper default_lr default_betas default_eps default_weight_decay
                               default_amsgrad) in
       ok (mkAdam groups (zero_opt_level (get_context h)) (rank (get_context h))
                  (size (get_context h)) false))
  ∧ (∀ groups,
       Optimizer_init h ps (Hyper default_lr default_betas default_eps default_weight_decay
                                  default_amsgrad) = ok groups →
       __init__ h ps default_lr default_betas default_eps default_weight_decay
                default_amsgrad default_mark_step
       = ok (mkAdam groups (zero_opt_level (get_context h)) (rank (get_context h))
                    (size (get_context h)) false)).
Proof.
  assert (Hdef : valid_numerics default_lr default_betas default_eps default_weight_decay)
    by (repeat split; done).
  split; [|split; [|split; [|split]]].
  - intros Hbad. apply init_invalid. intros (Hlr & Heps & Hb1 & Hb1' & Hb2 & Hb2' & Hwd).
    destruct Hbad as [Hbad|[Hbad|[Hbad|[Hbad|Hbad]]]].
    + by apply Qlt_not_le in Hbad.
    + by apply Qlt_not_le in Hbad.
    + by apply Hbad.
    + by apply Hbad.
    + by apply Qlt_not_le in Hbad.
  - intros Hv. by rewrite init_valid.
  - destruct (Qle_bool 0 lr && Qle_bool 0 eps && Qle_bool 0 betas.1 && Qlt_bool betas.1 1
              && Qle_bool 0 betas.2 && Qlt_bool betas.2 1 && Qle_bool 0 wd) eqn:E.
    + repeat (apply andb_prop in E as [E ?]).
      exists (NotImplementedError "amsgrad==True is not yet supported"). split; [|by left].
      rewrite init_valid; [done|].
      repeat split; first [by apply Qle_bool_iff | by apply Qlt_bool_iff].
    + destruct (init_invalid h ps lr betas eps wd true mark) as [msg Hmsg].
      * intros (Hlr & Heps & Hb1 & Hb1' & Hb2 & Hb2' & Hwd).
        apply Qle_bool_iff in Hlr, Heps, Hb1, Hb2, Hwd. apply Qlt_bool_iff in Hb1', Hb2'.
        rewrite Hlr, Heps, Hb1, Hb1', Hb2, Hb2', Hwd in E. discriminate.
      * exists (ValueError msg). split; [done|]. right. eauto.
  - by rewrite init_valid.
  - intros groups Hg. rewrite init_valid by done.
    unfold default_amsgrad, default_mark_step in *. by rewrite Hg.
Qed.

Lemma C8_init_validation_witness :
  (∃ msg, __init__ (toy_host (DistContext 1 0 2)) [1; 2] (-1 # 10) (9 # 10, 999 # 1000)
            (1 # 100) 0 false false = raise (ValueError msg))
  ∧ __init__ (toy_host (DistContext 1 0 2)) [1; 2] default_lr default_betas default_eps
             default_weight_decay default_amsgrad default_mark_step
    = ok (mkAdam [ParamGroup [1; 2]
                    (Hyper default_lr default_betas default_eps default_weight_decay false)]
            1 0 2 false).
Proof.
  split.
  - apply (proj1 (C8_init_validation (toy_host (DistContext 1 0 2)) [1; 2] (-1 # 10)
                    (9 # 10, 999 # 1000) (1 # 100) 0 false false)).
    left. reflexivity.
  - apply (proj2 (proj2 (proj2 (proj2
             (C8_init_validation (toy_host (DistContext 1 0 2)) [1; 2] default_lr
                default_betas default_eps default_weight_decay false false))))).
    reflexivity.
Defined.

(** ** Padding and slicing *)

Lemma pad_pairs_zeros (m : nat) (rest : list Z) :
  pad_pairs (replicate (2 * m) 0%Z ++ rest) = replicate m (0, 0)%Z ++ pad_pairs rest.
Proof.
  induction m as [|m IH]; [done|].
  replace (2 * S m) with (S (S (2 * m))) by lia.
  cbn [replicate app pad_pairs]. by rewrite IH.
Qed.

Lemma pad_width_last (m : nat) (k : Z) :
  <[S m * 2 - 1 := k]> (replicate (S m * 2) 0%Z) = replicate (2 * m) 0%Z ++ [0%Z; k].
Proof.
  replace (S m * 2) with (2 * m + 2) by lia.
  rewrite replicate_add. change (replicate 2 0%Z) with [0%Z; 0%Z].
  replace (2 * m + 2 - 1) with (length (replicate (2 * m) 0%Z) + 1)
    by (rewrite length_replicate; lia).
  by rewrite insert_app_r.
Qed.

Lemma pad_dims_last (m : nat) (k : Z) :
  pad_dims (S m) (<[S m * 2 - 1 := k]> (replicate (S m * 2) 0%Z))
  = (0, k)%Z :: replicate m (0, 0)%Z.
Proof.
  unfold pad_dims. rewrite length_insert, length_replicate.
  replace (S m * 2 / 2) with (S m) by (symmetry; apply Nat.div_mul; lia).
  rewrite Nat.sub_diag, pad_width_last, pad_pairs_zeros. simpl.
  rewrite reverse_app, reverse_replicate. done.
Qed.

Lemma pad_source_id (sh idx : list nat) :
  Forall2 lt idx sh → pad_source sh (replicate (length sh) (0, 0)%Z) idx = Some idx.
Proof.
  intros H. induction H as [|i d idx sh Hi _ IH]; [done|]. simpl.
  rewrite bool_decide_eq_true_2 by lia. rewrite IH. simpl.
  f_equal. f_equal. lia.
Qed.

Lemma zip_with_pad_none (tr : list nat) :
  Z.to_nat <$> zip_with (λ d lr, Z.of_nat d + lr.1 + lr.2)%Z tr
                 (replicate (length tr) (0, 0)%Z) = tr.
Proof.
  induction tr as [|d tr IH]; [done|].
  cbn [length replicate zip_with fmap list_fmap]. rewrite IH. f_equal. simpl. lia.
Qed.

Lemma zip_with_pad_nonneg (tr : list nat) :
  ¬ Exists (λ d, d < 0)%Z
      (zip_with (λ d lr, Z.of_nat d + lr.1 + lr.2)%Z tr (replicate (length tr) (0, 0)%Z)).
Proof.
  induction tr as [|d tr IH]; simpl; [by intros ?%Exists_nil|].
  intros [?|?]%Exists_cons; [lia|done].
Qed.

(** Padding as [_partition] asks for it (all amounts zero but the last
    entry of the list) appends zero entries along the leading dimension
    and touches nothing else. *)
Lemma F_pad_leading {A} (zero : A) (t : tensor A) (n : nat) (tr : list nat) (k : nat) :
  shape t = n :: tr →
  wf_tensor t →
  F_pad zero t (<[length (shape t) * 2 - 1 := Z.of_nat k]>
                  (replicate (length (shape t) * 2) 0%Z))
  = ok (Tensor ((n + k) :: tr) (dtype t) (device t) (requires_grad t) (is_sparse t)
          (data t ++ replicate (k * numel tr) zero)).
Proof.
  intros Hsh Hwf. unfold wf_tensor in Hwf. rewrite Hsh, numel_cons in Hwf.
  unfold F_pad. rewrite Hsh. cbn [length].
  rewrite length_insert, length_replicate.
  replace (Nat.even (S (length tr) * 2)) with true
    by (symmetry; apply Nat.even_spec; exists (S (length tr)); lia).
  replace (S (length tr) * 2 / 2) with (S (length tr)) by (symmetry; apply Nat.div_mul; lia).
  rewrite (proj2 (Nat.ltb_ge _ _)) by lia. cbn [negb].
  rewrite pad_dims_last. cbn [zip_with fst snd fmap list_fmap].
  rewrite bool_decide_eq_false_2; last first.
  { intros [?|?]%Exists_cons; [lia|]. by eapply zip_with_pad_nonneg. }
  rewrite zip_with_pad_none.
  replace (Z.to_nat (Z.of_nat n + 0 + Z.of_nat k)) with (n + k) by lia.
  unfold ok. do 2 f_equal.
  set (s := numel tr).
  apply list_eq. intros o. rewrite list_lookup_fmap.
  destruct (decide (o < numel ((n + k) :: tr))) as [Ho|Ho].
  - rewrite lookup_seq_lt by done. simpl.
    rewrite numel_cons in Ho. fold s in Ho.
    assert (0 < s) by (destruct s; lia).
    fold (numel tr). fold s.
    pose proof (Nat.div_mod_eq o s) as Hdm.
    pose proof (Nat.mod_upper_bound o s ltac:(lia)) as Hmod.
    case_bool_decide as Hin.
    + rewrite pad_source_id by (apply unravel_lt; done). simpl.
      rewrite ravel_unravel by done.
      replace (Z.to_nat (Z.of_nat (o `div` s) - 0) * s + o `mod` s) with o by lia.
      assert (o < n * s) by nia.
      rewrite lookup_app_l by lia.
      destruct (data t !! o) eqn:E; [done|].
      apply lookup_ge_None in E. lia.
    + assert (n * s ≤ o) by nia.
      rewrite lookup_app_r by lia.
      symmetry. apply lookup_replicate_2. rewrite Hwf. fold s. nia.
  - rewrite lookup_seq_ge by lia. simpl. symmetry. apply lookup_ge_None.
    rewrite length_app, length_replicate, Hwf. rewrite numel_cons in Ho. fold s in Ho |- *. lia.
Qed.

Lemma slice_bound_in (n : nat) (i : Z) :
  (0 ≤ i ≤ Z.of_nat n)%Z → slice_bound n i = Z.to_nat i.
Proof. intros Hi. unfold slice_bound. rewrite bool_decide_eq_false_2 by lia. lia. Qed.

(** The [i]-th entry of a slice is entry [a + i] of the sliced list. *)
Lemma take_drop_slice {A} (l : list A) (s a len i : nat) :
  i < len →
  take s (drop (i * s) (take (len * s) (drop (a * s) l))) = take s (drop ((a + i) * s) l).
Proof.
  intros Hi.
  replace (len * s) with (i * s + (len - i) * s) by nia.
  rewrite <- take_drop_commute, take_take, drop_drop.
  f_equal; [nia|f_equal; lia].
Qed.

Lemma row_app_l {A} (d z : list A) (s n j : nat) :
  length d = n * s → j < n →
  take s (drop (j * s) (d ++ z)) = take s (drop (j * s) d).
Proof.
  intros Hd Hj. rewrite drop_app_le by nia.
  apply take_app_le. rewrite length_drop. nia.
Qed.

Lemma row_app_r {A} (d : list A) (x : A) (s n k j : nat) :
  length d = n * s → n ≤ j < n + k →
  take s (drop (j * s) (d ++ replicate (k * s) x)) = replicate s x.
Proof.
  intros Hd Hj. rewrite drop_app_ge by nia.
  rewrite drop_replicate, take_replicate. f_equal. nia.
Qed.

Lemma partition_padded {A} (zero : A) (self : Adam) (g l : tensor A)
    (n ps : nat) (tr tr' : list nat) :
  _need_partition self g = ok true →
  shape g = n :: tr →
  wf_tensor g →
  shape l = ps :: tr' →
  (_world_size self * Z.of_nat ps > Z.of_nat n)%Z →
  (0 ≤ _rank self < _world_size self)%Z →
  _partition zero self g l
  = ok (FreshTensor,
        Tensor (ps :: tr) (dtype g) (device g) (requires_grad g) (is_sparse g)
          (take (ps * numel tr)
             (drop (Z.to_nat (_rank self) * ps * numel tr)
                (data g ++ replicate
                   (Z.to_nat (_world_size self * Z.of_nat ps - Z.of_nat n) * numel tr) zero)))).
Proof.
  intros Hneed Hg Hwf Hl Hgt Hrank.
  unfold _partition. rewrite Hneed. simpl.
  unfold shape0. rewrite Hl, Hg. simpl.
  rewrite bool_decide_eq_true_2 by done.
  set (k := Z.to_nat (_world_size self * Z.of_nat ps - Z.of_nat n)).
  replace (_world_size self * Z.of_nat ps - Z.of_nat n)%Z with (Z.of_nat k) by lia.
  pose proof (F_pad_leading zero g n tr k Hg Hwf) as Hpad.
  rewrite Hg in Hpad. simpl in Hpad. rewrite Hpad. simpl.
  unfold getitem_slice. simpl.
  rewrite !slice_bound_in by nia.
  replace (Z.to_nat ((_rank self + 1) * Z.of_nat ps) - Z.to_nat (_rank self * Z.of_nat ps))
    with ps by nia.
  replace (Z.to_nat (_rank self * Z.of_nat ps)) with (Z.to_nat (_rank self) * ps) by nia.
  done.
Qed.

Lemma partition_unpadded {A} (zero : A) (self : Adam) (g l : tensor A)
    (n ps : nat) (tr tr' : list nat) :
  _need_partition self g = ok true →
  shape g = n :: tr →
  shape l = ps :: tr' →
  (_world_size self * Z.of_nat ps ≤ Z.of_nat n)%Z →
  (0 ≤ _rank self < _world_size self)%Z →
  _partition zero self g l
  = ok (ViewOf (Z.to_nat (_rank self) * ps) ((Z.to_nat (_rank self) + 1) * ps),
        Tensor (ps :: tr) (dtype g) (device g) (requires_grad g) (is_sparse g)
          (take (ps * numel tr) (drop (Z.to_nat (_rank self) * ps * numel tr) (data g)))).
Proof.
  intros Hneed Hg Hl Hle Hrank.
  unfold _partition. rewrite Hneed. simpl.
  unfold shape0. rewrite Hl, Hg. simpl.
  rewrite bool_decide_eq_false_2 by lia.
  unfold getitem_slice. rewrite Hg. simpl.
  rewrite !slice_bound_in by nia.
  replace (Z.to_nat ((_rank self + 1) * Z.of_nat ps) - Z.to_nat (_rank self * Z.of_nat ps))
    with ps by nia.
  replace (Z.to_nat (_rank self * Z.of_nat ps)) with (Z.to_nat (_rank self) * ps) by nia.
  replace (Z.to_nat ((_rank self + 1) * Z.of_nat ps)) with ((Z.to_nat (_rank self) + 1) * ps)
    by nia.
  done.
Qed.

(** C2. For a shard-eligible tensor whose leading dimension [n] is below
    [world_size * part_size], [_partition] returns rows
    [rank*part_size .. (rank+1)*part_size - 1] of the tensor extended with
    zero rows up to [world_size * part_size] rows: row [i] of the result is
    row [rank*part_size + i] of the tensor where that exists and a zero row
    otherwise; the trailing dimensions are those of the tensor. For
    [world_size = 3], leading dimension 10 and [part_size = 4], rank 2 gets
    rows 8 and 9 followed by two zero rows. *)
Theorem C2_partition_padded :
  (∀ A (zero : A) (self : Adam) (g l : tensor A) (n ps : nat) (tr tr' : list nat),
     _need_partition self g = ok true →
     shape g = n :: tr →
     wf_tensor g →
     shape l = ps :: tr' →
     (_world_size self * Z.of_nat ps > Z.of_nat n)%Z →
     (0 ≤ _rank self < _world_size self)%Z →
     ∃ part,
       _partition zero self g l = ok (FreshTensor, part)
       ∧ shape part = ps :: tr
       ∧ dtype part = dtype g ∧ device part = device g
       ∧ data part
         = take (ps * numel tr)
             (drop (Z.to_nat (_rank self) * ps * numel tr)
                (data g ++ replicate
                   ((Z.to_nat (_world_size self) * ps - n) * numel tr) zero))
       ∧ ∀ i, i < ps →
           row part i
           = if decide (Z.to_nat (_rank self) * ps + i < n)
             then row g (Z.to_nat (_rank self) * ps + i)
             else replicate (numel tr) zero)
  ∧ (∀ A (zero : A) groups lvl lm (g l : tensor A) (tr tr' : list nat),
       (lvl > 0)%Z →
       shape g = 10 :: tr →
       wf_tensor g →
       shape l = 4 :: tr' →
       ∃ part,
         _partition zero (mkAdam groups lvl 2 3 lm) g l = ok (FreshTensor, part)
         ∧ shape part = 4 :: tr
         ∧ data part = row g 8 ++ row g 9 ++ replicate (2 * numel tr) zero).
Proof.
  split.
  - intros A zero self g l n ps tr tr' Hneed Hg Hwf Hl Hgt Hrank.
    eexists. split; [by eapply partition_padded|]. simpl.
    replace (Z.to_nat (_world_size self * Z.of_nat ps - Z.of_nat n))
      with (Z.to_nat (_world_size self) * ps - n) by nia.
    repeat split; try done.
    intros i Hi. unfold row. simpl. rewrite Hg. simpl.
    unfold wf_tensor in Hwf. rewrite Hg, numel_cons in Hwf.
    rewrite take_drop_slice by done.
    case_decide.
    + by eapply row_app_l.
    + eapply row_app_r; [done|]. nia.
  - intros A zero groups lvl lm g l tr tr' Hlvl Hg Hwf Hl.
    eexists. split.
    { eapply partition_padded; simpl; try done; try lia.
      rewrite (need_partition_cons _ _ _ _ Hg). simpl.
      rewrite !bool_decide_eq_true_2 by lia. done. }
    simpl. split; [done|].
    unfold wf_tensor in Hwf. rewrite Hg, numel_cons in Hwf.
    unfold row. rewrite Hg. simpl. set (s := numel tr) in *.
    replace (Z.to_nat (3 * 4 - 10)) with 2 by lia.
    replace (s + (s + (s + (s + 0)))) with (4 * s) by lia.
    replace ((s + (s + (s + (s + (s + (s + (s + (s + 0))))))))) with (8 * s) by lia.
    rewrite drop_app_le by lia.
    rewrite take_ge by (rewrite length_app, length_drop, length_replicate; lia).
    rewrite app_assoc. f_equal.
    rewrite <- (take_drop s (drop (8 * s) (data g))) at 1. f_equal.
    rewrite drop_drop. replace (8 * s + s) with (9 * s) by lia.
    symmetry. apply take_ge. rewrite length_drop. lia.
Qed.

Lemma C2_partition_padded_witness :
  ∃ part,
    _partition 0%Z (mkAdam [] 1 2 3 false)
      (Tensor [10; 1] float32 "cpu" false false [0; 1; 2; 3; 4; 5; 6; 7; 8; 9]%Z)
      (Tensor [4; 1] float32 "cpu" false false [0; 0; 0; 0]%Z)
    = ok (FreshTensor, part)
    ∧ data part = [8; 9; 0; 0]%Z.
Proof.
  destruct (proj1 C2_partition_padded Z 0%Z (mkAdam [] 1 2 3 false)
              (Tensor [10; 1] float32 "cpu" false false [0; 1; 2; 3; 4; 5; 6; 7; 8; 9]%Z)
              (Tensor [4; 1] float32 "cpu" false false [0; 0; 0; 0]%Z)
              10 4 [1] [1])
    as (part & Hpart & _ & _ & _ & Hdata & _);
    [reflexivity | reflexivity | reflexivity | reflexivity | simpl; lia | simpl; lia |].
  exists part. split; [exact Hpart|]. rewrite Hdata. reflexivity.
Defined.

(** C5. When the tensor is not shard-eligible, [_partition] returns the
    tensor itself (the same object). When it is eligible and
    [world_size * part_size] equals the leading dimension, nothing is
    padded and the result is the view of rows
    [rank*part_size .. (rank+1)*part_size - 1]: row [i] of the result is row
    [rank*part_size + i] of the tensor. For [world_size = 2] and a [4, 3]
    tensor with rows [r0, r1, r2, r3], rank 0 gets [r0, r1] and rank 1 gets
    [r2, r3]. *)
Theorem C5_partition_alias_and_even_split :
  (∀ A (zero : A) (self : Adam) (g l : tensor A),
     _need_partition self g = ok false →
     _partition zero self g l = ok (SameObject, g))
  ∧ (∀ A (zero : A) (self : Adam) (g l : tensor A) (n ps : nat) (tr tr' : list nat),
       _need_partition self g = ok true →
       shape g = n :: tr →
       shape l = ps :: tr' →
       (_world_size self * Z.of_nat ps = Z.of_nat n)%Z →
       (0 ≤ _rank self < _world_size self)%Z →
       ∃ part,
         _partition zero self g l
         = ok (ViewOf (Z.to_nat (_rank self) * ps) ((Z.to_nat (_rank self) + 1) * ps), part)
         ∧ shape part = ps :: tr
         ∧ dtype part = dtype g ∧ device part = device g
         ∧ data part
           = take (ps * numel tr) (drop (Z.to_nat (_rank self) * ps * numel tr) (data g))
         ∧ ∀ i, i < ps → row part i = row g (Z.to_nat (_rank self) * ps + i))
  ∧ (∀ A (zero : A) groups lvl lm dt dev rg sp (r0 r1 r2 r3 : list A) (l : tensor A) tr',
       (lvl > 0)%Z →
       length r0 = 3 → length r1 = 3 → length r2 = 3 → length r3 = 3 →
       shape l = 2 :: tr' →
       _partition zero (mkAdam groups lvl 0 2 lm)
         (Tensor [4; 3] dt dev rg sp (r0 ++ r1 ++ r2 ++ r3)) l
       = ok (ViewOf 0 2, Tensor [2; 3] dt dev rg sp (r0 ++ r1))
       ∧ _partition zero (mkAdam groups lvl 1 2 lm)
           (Tensor [4; 3] dt dev rg sp (r0 ++ r1 ++ r2 ++ r3)) l
         = ok (ViewOf 2 4, Tensor [2; 3] dt dev rg sp (r2 ++ r3))).
Proof.
  split; [|split].
  - intros A zero self g l Hneed. unfold _partition. by rewrite Hneed.
  - intros A zero self g l n ps tr tr' Hneed Hg Hl Heq Hrank.
    eexists. split; [eapply partition_unpadded; try done; lia|]. simpl.
    repeat split; try done.
    intros i Hi. unfold row. simpl. rewrite Hg. simpl.
    by rewrite take_drop_slice.
  - intros A zero groups lvl lm dt dev rg sp r0 r1 r2 r3 l tr' Hlvl H0 H1 H2 H3 Hl.
    assert (Hneed : ∀ rk, _need_partition (mkAdam groups lvl rk 2 lm)
                            (Tensor [4; 3] dt dev rg sp (r0 ++ r1 ++ r2 ++ r3)) = ok true).
    { intros rk. erewrite need_partition_cons by reflexivity. simpl.
      rewrite !bool_decide_eq_true_2 by lia. done. }
    split.
    + erewrite partition_unpadded; [|apply Hneed|reflexivity|exact Hl|simpl; lia|simpl; lia].
      simpl. do 3 f_equal. rewrite drop_0.
      rewrite app_assoc. rewrite take_app_length'; [done|]. rewrite length_app. lia.
    + erewrite partition_unpadded; [|apply Hneed|reflexivity|exact Hl|simpl; lia|simpl; lia].
      simpl. do 3 f_equal.
      rewrite app_assoc. rewrite drop_app_length' by (rewrite length_app; lia).
      apply take_ge. rewrite length_app. lia.
Qed.

Lemma C5_partition_alias_and_even_split_witness :
  _partition 0%Z (mkAdam [] 0 1 2 false)
    (Tensor [4; 1] float32 "cpu" false false [5; 6; 7; 8]%Z)
    (Tensor [4; 1] float32 "cpu" false false [0; 0; 0; 0]%Z)
  = ok (SameObject, Tensor [4; 1] float32 "cpu" false false [5; 6; 7; 8]%Z)
  ∧ ∃ part,
      _partition 0%Z (mkAdam [] 1 1 2 false)
        (Tensor [4; 1] float32 "cpu" false false [5; 6; 7; 8]%Z)
        (Tensor [2; 1] float32 "cpu" false false [0; 0]%Z)
      = ok (ViewOf 2 4, part)
      ∧ data part = [7; 8]%Z.
Proof.
  split.
  - apply (proj1 C5_partition_alias_and_even_split). reflexivity.
  - destruct (proj1 (proj2 C5_partition_alias_and_even_split) Z 0%Z (mkAdam [] 1 1 2 false)
                (Tensor [4; 1] float32 "cpu" false false [5; 6; 7; 8]%Z)
                (Tensor [2; 1] float32 "cpu" false false [0; 0]%Z) 4 2 [1] [1])
      as (part & Hpart & _ & _ & _ & Hdata & _);
      [reflexivity | reflexivity | reflexivity | simpl; lia | simpl; lia |].
    exists part. split; [exact Hpart|]. rewrite Hdata. reflexivity.
Defined.

(** ** The write-back *)

Lemma ravel_lt (sh idx : list nat) : Forall2 lt idx sh → ravel sh idx < numel sh.
Proof.
  intros H. induction H as [|i d idx sh Hi _ IH]; simpl; [lia|].
  fold (numel sh). nia.
Qed.

Lemma Forall2_lt_le (xs ys zs : list nat) :
  Forall2 lt xs ys → Forall2 le ys zs → Forall2 lt xs zs.
Proof.
  intros H. revert zs. induction H as [|x y xs ys Hxy _ IH]; intros zs Hz.
  - inversion Hz. constructor.
  - inversion Hz as [|? z ? zs' Hyz Hrest]; subst. constructor; [lia|by apply IH].
Qed.

(** With an all-zero index, every write of [scatter_] lands in the first
    entry along the leading dimension. *)
Lemma scatter_writes_frame {A} (ssh ish rsh : list nat) (index : list Z) (src : list A)
    (os : list nat) (acc d : list A) :
  ish ≠ [] → ssh ≠ [] →
  Forall (λ o, o < numel ish) os →
  Forall2 le (tail ish) (tail ssh) →
  Forall (λ r, r = 0%Z) index →
  scatter_writes ssh ish rsh index src os acc = ok d →
  length d = length acc ∧ ∀ pos, numel (tail ssh) ≤ pos → d !! pos = acc !! pos.
Proof.
  intros Hish Hssh Hos Hle Hzero. revert acc.
  induction Hos as [|o os Ho _ IH]; intros acc Hrun; simpl in Hrun.
  { injection Hrun as <-. done. }
  destruct ish as [|d0 ish']; [done|]. destruct ssh as [|s0 ssh']; [done|].
  pose proof (unravel_lt _ _ Ho) as Hlt. simpl in *.
  inversion Hlt as [|? ? js ? Hi Hjs]; subst.
  destruct (index !! o) as [r|] eqn:Hr; [|done].
  assert (r = 0%Z) as -> by (eapply (proj1 (Forall_lookup _ _) Hzero); done).
  case_bool_decide; [|done].
  destruct (src !! _) as [v|]; [|done].
  apply IH in Hrun as [Hlen Hframe].
  rewrite length_insert in Hlen. split; [done|].
  intros pos Hpos. rewrite Hframe by done.
  apply list_lookup_insert_ne. simpl.
  pose proof (ravel_lt _ _ (Forall2_lt_le _ _ _ Hjs Hle)). fold (numel ssh') in *. lia.
Qed.

Lemma seq_below (n : nat) : Forall (λ o, o < n) (seq 0 n).
Proof. apply Forall_forall. intros o Ho%elem_of_seq. lia. Qed.

Lemma nonempty_dims_ne sh : nonempty_dims sh ≠ [].
Proof. by destruct sh. Qed.

Lemma scatter_0_frame {A} (self : tensor A) (index : tensor Z) (src t' : tensor A) :
  shape self ≠ [] →
  Forall (λ r, r = 0%Z) (data index) →
  scatter_0 self index src = ok t' →
  shape t' = shape self ∧ dtype t' = dtype self ∧ device t' = device self
  ∧ length (data t') = length (data self)
  ∧ ∀ pos, numel (tail (shape self)) ≤ pos → data t' !! pos = data self !! pos.
Proof.
  intros Hne Hzero. unfold scatter_0.
  case_bool_decide as Hdims; simpl; [|done].
  case_bool_decide as Hsz; simpl; [|done].
  destruct (scatter_writes _ _ _ _ _ _ _) as [e|d] eqn:Hrun; simpl; [done|].
  intros [= <-]. simpl.
  assert (nonempty_dims (shape self) = shape self) as Hself by (by destruct (shape self)).
  rewrite Hself in *.
  eapply scatter_writes_frame in Hrun as [Hlen Hframe];
    [|apply nonempty_dims_ne|done|apply seq_below|apply Hsz|done].
  done.
Qed.

Lemma row_frame {A} (d d' : list A) (s i : nat) :
  (∀ pos, s ≤ pos → d' !! pos = d !! pos) →
  1 ≤ i →
  take s (drop (i * s) d') = take s (drop (i * s) d).
Proof.
  intros Hframe Hi. apply list_eq. intros j.
  destruct (decide (j < s)).
  - rewrite !lookup_take_lt, !lookup_drop by done. apply Hframe. nia.
  - by rewrite !lookup_take_ge by lia.
Qed.

Lemma zip_with_broadcast_id (sh idx : list nat) :
  Forall2 lt idx sh → zip_with (λ s i, if s =? 1 then 0 else i) sh idx = idx.
Proof.
  intros H. induction H as [|i d idx sh Hi _ IH]; [done|]. simpl. rewrite IH. f_equal.
  destruct (Nat.eqb_spec d 1); lia.
Qed.

Lemma broadcastable_refl (sh : list nat) : broadcastable sh sh = true.
Proof.
  unfold broadcastable. apply bool_decide_eq_true_2. split; [done|].
  rewrite Nat.sub_diag, drop_0. induction sh; constructor; auto.
Qed.

(** Assigning a value of the same shape replaces the whole storage. *)
Lemma setitem_all_same_shape {A} (self value : tensor A) :
  shape self ≠ [] →
  shape value = shape self →
  wf_tensor self → wf_tensor value →
  setitem_all self value
  = ok (Tensor (shape self) (dtype self) (device self) (requires_grad self) (is_sparse self)
          (data value)).
Proof.
  intros Hne Hsh Hwf Hwfv. unfold setitem_all.
  destruct (shape self) as [|n tr] eqn:Hself; [done|].
  rewrite Hsh, broadcastable_refl. unfold ok. do 2 f_equal.
  unfold wf_tensor in *. rewrite Hsh in Hwfv. rewrite Hself in Hwf.
  apply list_eq. intros i. rewrite list_lookup_imap.
  destruct (decide (i < numel (n :: tr))) as [Hi|Hi].
  - unfold broadcast_index. rewrite Nat.sub_diag, drop_0.
    rewrite zip_with_broadcast_id by (by apply unravel_lt).
    rewrite ravel_unravel by done.
    destruct (data self !! i) eqn:E1; [|apply lookup_ge_None in E1; lia].
    destruct (data value !! i) eqn:E2; [done|apply lookup_ge_None in E2; lia].
  - rewrite (proj2 (lookup_ge_None (data self) i)) by lia.
    rewrite (proj2 (lookup_ge_None (data value) i)) by lia. done.
Qed.

Lemma setitem_all_shape {A} (self value t' : tensor A) :
  setitem_all self value = ok t' →
  shape t' = shape self ∧ length (data t') = length (data self).
Proof.
  unfold setitem_all. destruct (shape self) eqn:Hsh; [done|].
  destruct (broadcastable _ _); [|done]. intros [= <-]. simpl.
  by rewrite length_imap.
Qed.

Section StepProperties.
Context `{RT : Runtime}.

Lemma zero_index_zeros (u : tensor elem) : Forall (λ r, r = 0%Z) (data (zero_index u)).
Proof. simpl. apply Forall_replicate. done. Qed.

Lemma write_back_sharded (self : Adam) (k : nat) (p : param) (u : tensor elem) :
  _need_partition self (p_data p) = ok true →
  write_back self k p u
  = mseq (mlift (scatter_0 (p_data p) (zero_index u) u)) (set_param_data k).
Proof. intros Hneed. unfold write_back. by rewrite Hneed. Qed.

Lemma write_back_unsharded (self : Adam) (k : nat) (p : param) (u : tensor elem) :
  _need_partition self (p_data p) = ok false →
  write_back self k p u = mseq (mlift (setitem_all (p_data p) u)) (set_param_data k).
Proof. intros Hneed. unfold write_back. by rewrite Hneed. Qed.

(** C10. For a shard-eligible parameter the write-back is a [scatter_]
    along dimension 0 whose index tensor holds only zeros (and has the
    shape of the updated value); whatever the rank and whether or not the
    scatter raises, the parameter keeps its shape and every row at index
    1 or more keeps the value it had before the write-back. *)
Theorem C10_write_back_touches_row_zero_only (self : Adam) (k : nat) (p : param)
    (u : tensor elem) (w w' : world) (r : result unit) :
  _need_partition self (p_data p) = ok true →
  heap w k = p →
  write_back self k p u w = (w', r) →
  write_back self k p u
  = mseq (mlift (scatter_0 (p_data p) (zero_index u) u)) (set_param_data k)
  ∧ Forall (λ i, i = 0%Z) (data (zero_index u))
  ∧ shape (zero_index u) = shape u
  ∧ shape (p_data (heap w' k)) = shape (p_data p)
  ∧ ∀ i, 1 ≤ i → row (p_data (heap w' k)) i = row (p_data p) i.
Proof.
  intros Hneed Hp Hrun.
  split; [by apply write_back_sharded|].
  split; [apply zero_index_zeros|]. split; [done|].
  rewrite write_back_sharded in Hrun by done.
  unfold mseq, mlift, set_param_data in Hrun.
  destruct (scatter_0 (p_data p) (zero_index u) u) as [e|t'] eqn:Hsc.
  - injection Hrun as <- <-. by rewrite Hp.
  - injection Hrun as <- <-. simpl. rewrite fn_lookup_insert. simpl.
    apply need_partition_true in Hneed as (_ & n & tr & Hsh & _).
    apply scatter_0_frame in Hsc as (Hshape & _ & _ & _ & Hframe);
      [|by rewrite Hsh|apply zero_index_zeros].
    split; [done|]. intros i Hi. unfold row. rewrite Hshape.
    by apply row_frame.
Qed.

(** The part of C1 that concerns a parameter that is not shard-eligible:
    the write-back assigns the updated value to the whole parameter. *)
Lemma write_back_unsharded_overwrites (self : Adam) (k : nat) (p : param)
    (u : tensor elem) (w : world) :
  _need_partition self (p_data p) = ok false →
  heap w k = p →
  shape (p_data p) ≠ [] →
  shape u = shape (p_data p) →
  wf_tensor (p_data p) → wf_tensor u →
  ∃ w', write_back self k p u w = (w', ok tt)
        ∧ data (p_data (heap w' k)) = data u
        ∧ shape (p_data (heap w' k)) = shape (p_data p)
        ∧ p_grad (heap w' k) = p_grad p
        ∧ opt_state w' = opt_state w.
Proof.
  intros Hneed Hp Hne Hsh Hwf Hwfu.
  rewrite write_back_unsharded by done.
  unfold mseq, mlift, set_param_data.
  rewrite setitem_all_same_shape by done.
  eexists. split; [reflexivity|]. simpl. rewrite fn_lookup_insert. simpl.
  by rewrite Hp.
Qed.

End StepProperties.

Lemma C10_write_back_touches_row_zero_only_witness :
  row (@p_data toy_runtime
         (@heap toy_runtime
            (@write_back toy_runtime toy_optimizer 0 toy_param toy_updated toy_world).1 0)) 2
  = row (@p_data toy_runtime toy_param) 2.
Proof.
  apply (@C10_write_back_touches_row_zero_only toy_runtime toy_optimizer 0 toy_param
           toy_updated toy_world _
           (@write_back toy_runtime toy_optimizer 0 toy_param toy_updated toy_world).2).
  - reflexivity.
  - reflexivity.
  - reflexivity.
  - lia.
Defined.

(** C1. The claim fails on its sharded half. Take two ranks, seen from rank
    1, ZeRO level 1, and one [4, 1] parameter with values [10, 20, 30, 40]
    and gradient [1, 2, 3, 4]. The shard of rank 1 is rows 2 and 3; with the
    integer stand-in kernel its updated value is [27, 36]. Scattered at the
    offset of rank 1 it would give [10, 20, 27, 36]. [step] returns without
    raising and leaves [36, 20, 30, 40]: both writes went to row 0, rows
    2 and 3 were not updated. *)
Theorem C1_sharded_write_back_ignores_rank_offset :
  (@step toy_runtime toy_optimizer None toy_world).2 = ok None
  ∧ data (@p_data toy_runtime
            (@heap toy_runtime (@step toy_runtime toy_optimizer None toy_world).1 0))
    = [36; 20; 30; 40]%Z
  ∧ data (@p_data toy_runtime
            (@heap toy_runtime (@step toy_runtime toy_optimizer None toy_world).1 0))
    ≠ [10; 20; 27; 36]%Z.
Proof. split; [|split]; [vm_compute; reflexivity | vm_compute; reflexivity | vm_compute; discriminate]. Qed.

(** ** The body of [step], piece by piece *)

Section Body.
Context `{RT : Runtime}.

(** Unfold the monadic plumbing in a hypothesis. *)
Ltac unfold_M H :=
  unfold mseq, get_param, state_of, get_item, set_step, set_exp_avg, set_exp_avg_sq,
    update_state, set_param_data, mark_step, mlift, mpure, mthrow in H.

Ltac norm_lookups :=
  rewrite ?fn_lookup_insert, ?lookup_alter_eq, ?lookup_insert_eq;
  rewrite ?fn_lookup_insert_ne, ?lookup_alter_ne, ?lookup_insert_ne by done.

Lemma write_back_spec (self : Adam) (k : nat) (p : param) (u : tensor elem)
    (w w' : world) (r : result unit) :
  write_back self k p u w = (w', r) →
  heap w k = p →
  opt_state w' = opt_state w
  ∧ mark_steps w' = mark_steps w
  ∧ (∀ j, j ≠ k → heap w' j = heap w j)
  ∧ p_grad (heap w' k) = p_grad p
  ∧ shape (p_data (heap w' k)) = shape (p_data p)
  ∧ ((∃ e, r = raise e ∧ heap w' k = p)
     ∨ (r = ok tt ∧ ∃ d, p_data (heap w' k) = d
                         ∧ ((_need_partition self (p_data p) = ok true
                             ∧ scatter_0 (p_data p) (zero_index u) u = ok d)
                            ∨ (_need_partition self (p_data p) = ok false
                               ∧ setitem_all (p_data p) u = ok d)))).
Proof.
  intros Hrun <-. unfold write_back in Hrun. unfold_M Hrun.
  destruct (_need_partition self (p_data (heap w k))) as [e|[]] eqn:Hneed; simplify_eq/=.
  - repeat split; eauto.
  - destruct (scatter_0 _ _ _) as [e|d] eqn:Hsc; simplify_eq/=.
    { repeat split; eauto. }
    norm_lookups. simpl.
    apply need_partition_true in Hneed as Hsh. destruct Hsh as (_ & n & tr & Hsh & _).
    apply scatter_0_frame in Hsc as Hfr; [|by rewrite Hsh|apply zero_index_zeros].
    destruct Hfr as (Hshape & _).
    repeat split; try done.
    + intros j Hj. by norm_lookups.
    + right. split; [done|]. exists d. split; [done|]. left. done.
  - destruct (setitem_all _ _) as [e|d] eqn:Hset; simplify_eq/=.
    { repeat split; eauto. }
    norm_lookups. simpl.
    apply setitem_all_shape in Hset as Hfr. destruct Hfr as (Hshape & _).
    repeat split; try done.
    + intros j Hj. by norm_lookups.
    + right. split; [done|]. exists d. split; [done|]. right. done.
Qed.

Lemma lazy_init_spec (self : Adam) (k : nat) (p : param) (w w' : world) (r : result unit) :
  lazy_init self k p w = (w', r) →
  opt_state w !! k = Some empty_state →
  heap w' = heap w
  ∧ mark_steps w' = mark_steps w
  ∧ (∀ j, j ≠ k → opt_state w' !! j = opt_state w !! j)
  ∧ ((∃ e, r = raise e ∧ opt_state w' !! k = Some (PState (Some 0%Z) None None)
           ∧ (_need_partition self (p_data p) = raise e
              ∨ (_need_partition self (p_data p) = ok true
                 ∧ _create_partitioned_buffer zero self (p_data p) = raise e)))
     ∨ (r = ok tt
        ∧ ∃ m, opt_state w' !! k = Some (PState (Some 0%Z) (Some m) (Some m))
               ∧ ((_need_partition self (p_data p) = ok true
                   ∧ _create_partitioned_buffer zero self (p_data p) = ok m)
                  ∨ (_need_partition self (p_data p) = ok false
                     ∧ m = to_device (torch_zeros zero (shape (p_data p)) (dtype (p_data p))
                                        false) (device (p_data p)))))).
Proof.
  intros Hrun Hst. unfold lazy_init in Hrun. unfold_M Hrun. simpl in Hrun.
  destruct (_need_partition self (p_data p)) as [e|[]] eqn:Hneed; simplify_eq/=.
  - repeat split; try done.
    + intros j Hj. by norm_lookups.
    + left. exists e. split; [done|]. norm_lookups. rewrite Hst. split; [done|]. by left.
  - destruct (_create_partitioned_buffer zero self (p_data p)) as [e|m] eqn:Hbuf;
      simplify_eq/=.
    + repeat split; try done.
      * intros j Hj. by norm_lookups.
      * left. exists e. split; [done|]. norm_lookups. rewrite Hst. split; [done|]. by right.
    + repeat split; try done.
      * intros j Hj. by norm_lookups.
      * right. split; [done|]. exists m. norm_lookups. rewrite Hst. simpl. eauto.
  - repeat split; try done.
    + intros j Hj. by norm_lookups.
    + right. split; [done|]. eexists. norm_lookups. rewrite Hst. simpl. eauto.
Qed.

(** What [adam_update] does to the world: either it raises before touching
    anything, or it finds a complete state, runs the kernel on the
    incremented count and stores its moment buffers, and then the
    write-back decides the outcome. *)
Lemma adam_update_spec (self : Adam) (group : param_group) (k : nat) (p : param)
    (g : tensor elem) (w w' : world) (r : result unit) :
  adam_update self group k p g w = (w', r) →
  heap w k = p →
  (∀ j, j ≠ k → heap w' j = heap w j ∧ opt_state w' !! j = opt_state w !! j)
  ∧ p_grad (heap w' k) = p_grad p
  ∧ shape (p_data (heap w' k)) = shape (p_data p)
  ∧ ((∃ e, r = raise e ∧ opt_state w' !! k = opt_state w !! k ∧ heap w' k = p)
     ∨ ∃ s m v lp lg,
         opt_state w !! k = Some (PState (Some s) (Some m) (Some v))
         ∧ shape m = shape v
         ∧ _partition zero self (p_data p) m = ok lp
         ∧ _partition zero self g m = ok lg
         ∧ let out := F_adam lp.2 lg.2 m v (s + 1)%Z (amsgrad (group_hyper group))
                        (betas (group_hyper group)).1 (betas (group_hyper group)).2
                        (lr (group_hyper group)) (weight_decay (group_hyper group))
                        (eps (group_hyper group)) in
           opt_state w' !! k
           = Some (PState (Some (s + 1)%Z) (Some (exp_avg_out out)) (Some (exp_avg_sq_out out)))
           ∧ ((∃ e, r = raise e ∧ heap w' k = p)
              ∨ (r = ok tt
                 ∧ ((_need_partition self (p_data p) = ok true
                     ∧ scatter_0 (p_data p) (zero_index (updated out)) (updated out)
                       = ok (p_data (heap w' k)))
                    ∨ (_need_partition self (p_data p) = ok false
                       ∧ setitem_all (p_data p) (updated out) = ok (p_data (heap w' k))))))).
Proof.
  intros Hrun Hp. unfold adam_update in Hrun.
  destruct (betas (group_hyper group)) as [beta1 beta2]. simpl.
  unfold mseq at 1 in Hrun. unfold get_item at 1 in Hrun.
  destruct (opt_state w !! k) as [[os om ov]|] eqn:Hst; simpl in Hrun;
    [|simplify_eq; rewrite Hst; by eauto 10].
  destruct om as [m|]; simpl in Hrun; [|simplify_eq; rewrite Hst; by eauto 10].
  unfold mseq at 1 in Hrun. unfold get_item at 1 in Hrun. rewrite Hst in Hrun.
  destruct ov as [v|]; simpl in Hrun; [|simplify_eq; rewrite Hst; by eauto 10].
  unfold mseq at 1 in Hrun.
  case_bool_decide as Hshape; simpl in Hrun; unfold mpure, mthrow in Hrun;
    [|simplify_eq; rewrite Hst; by eauto 10].
  unfold mseq at 1 in Hrun. unfold mlift at 1 in Hrun.
  destruct (_partition zero self (p_data p) m) as [e|lp] eqn:Hlp;
    [simplify_eq; rewrite Hst; by eauto 10|].
  unfold mseq at 1 in Hrun. unfold mlift at 1 in Hrun.
  destruct (_partition zero self g m) as [e|lg] eqn:Hlg;
    [simplify_eq; rewrite Hst; by eauto 10|].
  unfold mseq at 1 in Hrun. unfold get_item at 1 in Hrun. rewrite Hst in Hrun.
  destruct os as [s|]; simpl in Hrun; [|simplify_eq; rewrite Hst; by eauto 10].
  unfold mseq at 1 2 3, set_step, set_exp_avg, set_exp_avg_sq, update_state in Hrun.
  simpl in Hrun.
  set (out := F_adam lp.2 lg.2 m v (s + 1)%Z (amsgrad (group_hyper group)) beta1 beta2
                (lr (group_hyper group)) (weight_decay (group_hyper group))
                (eps (group_hyper group))) in *.
  unfold mseq in Hrun.
  destruct (write_back self k p (updated out) _) as [w1 r1] eqn:Hwb.
  apply write_back_spec in Hwb as (Hos & Hms & Hother & Hgrad & Hsh & Hres); [|done].
  simpl in Hos.
  assert (Hw' : heap w' = heap w1 ∧ opt_state w' = opt_state w1 ∧ r = r1).
  { destruct r1 as [e|[]]; [by simplify_eq|].
    destruct (_lm self); unfold mark_step, mpure in Hrun; by simplify_eq. }
  destruct Hw' as (Hh & Ho & ->). rewrite Hh, Ho, Hos. clear Hrun.
  split; [|split; [done|split; [done|]]].
  { intros j Hj. split; [by apply Hother|]. by norm_lookups. }
  right. exists s, m, v, lp, lg. repeat split; try done.
  { norm_lookups. by rewrite Hst. }
  destruct Hres as [(e & -> & Hk)|(-> & d & Hd & Hcase)]; [left; eauto|].
  right. split; [done|]. by rewrite Hd.
Qed.

Lemma state_len_0 (st : pstate) : state_len st = 0 → st = empty_state.
Proof. destruct st as [[?|] [?|] [?|]]; simpl; intros; done || lia. Qed.

Lemma step_param_no_grad (self : Adam) (group : param_group) (k : nat) (w : world) :
  p_grad (heap w k) = None → step_param self group k w = (w, ok tt).
Proof. intros Hg. unfold step_param, mseq, get_param. simpl. by rewrite Hg. Qed.

Lemma step_param_sparse (self : Adam) (group : param_group) (k : nat) (w : world)
    (g : tensor elem) :
  p_grad (heap w k) = Some g → is_sparse g = true →
  step_param self group k w = (w, raise (RuntimeError sparse_msg)).
Proof. intros Hg Hsp. unfold step_param, mseq, get_param. simpl. by rewrite Hg, Hsp. Qed.

(** With a dense gradient the body either works on the state it finds, or
    finds none and creates it; creation may raise, which leaves a state
    with the step count only. *)
Lemma step_param_dense (self : Adam) (group : param_group) (k : nat) (w w' : world)
    (r : result unit) (g : tensor elem) :
  p_grad (heap w k) = Some g → is_sparse g = false →
  step_param self group k w = (w', r) →
  (state_len (default empty_state (opt_state w !! k)) ≠ 0
   ∧ adam_update self group k (heap w k) g w = (w', r))
  ∨ (state_len (default empty_state (opt_state w !! k)) = 0
     ∧ ∃ e, r = raise e ∧ heap w' = heap w
            ∧ (∀ j, j ≠ k → opt_state w' !! j = opt_state w !! j)
            ∧ opt_state w' !! k = Some (PState (Some 0%Z) None None)
            ∧ (_need_partition self (p_data (heap w k)) = raise e
               ∨ (_need_partition self (p_data (heap w k)) = ok true
                  ∧ _create_partitioned_buffer zero self (p_data (heap w k)) = raise e)))
  ∨ (state_len (default empty_state (opt_state w !! k)) = 0
     ∧ ∃ w1 m, heap w1 = heap w
               ∧ (∀ j, j ≠ k → opt_state w1 !! j = opt_state w !! j)
               ∧ opt_state w1 !! k = Some (PState (Some 0%Z) (Some m) (Some m))
               ∧ ((_need_partition self (p_data (heap w k)) = ok true
                   ∧ _create_partitioned_buffer zero self (p_data (heap w k)) = ok m)
                  ∨ (_need_partition self (p_data (heap w k)) = ok false
                     ∧ m = to_device (torch_zeros zero (shape (p_data (heap w k)))
                                        (dtype (p_data (heap w k))) false)
                                     (device (p_data (heap w k)))))
               ∧ adam_update self group k (heap w k) g w1 = (w', r)).
Proof.
  intros Hg Hsp Hrun. unfold step_param in Hrun.
  unfold mseq at 1 in Hrun. unfold get_param, ok in Hrun. cbn beta iota in Hrun.
  rewrite Hg, Hsp in Hrun.
  unfold mseq at 1 in Hrun.
  destruct (state_of k w) as [w0 r0] eqn:Hso.
  assert (Hw0 : r0 = ok (default empty_state (opt_state w !! k))
                ∧ heap w0 = heap w
                ∧ (∀ j, j ≠ k → opt_state w0 !! j = opt_state w !! j)
                ∧ opt_state w0 !! k = Some (default empty_state (opt_state w !! k))
                ∧ (is_Some (opt_state w !! k) → w0 = w)).
  { unfold state_of in Hso. destruct (opt_state w !! k) as [st|] eqn:Hst; simplify_eq/=.
    - split_and!; done.
    - split_and!; try done.
      + intros j Hj. by rewrite lookup_insert_ne.
      + by rewrite lookup_insert_eq. }
  destruct Hw0 as (-> & Hh0 & Ho0 & Hk0 & Hsame).
  unfold ok in Hrun. cbn beta iota in Hrun. unfold mseq at 1 in Hrun.
  destruct (state_len (default empty_state (opt_state w !! k)) =? 0) eqn:Hlen0.
  - right. apply Nat.eqb_eq in Hlen0 as Hlen.
    apply state_len_0 in Hlen as Hemp. rewrite Hemp in Hk0.
    destruct (lazy_init self k (heap w k) w0) as [w1 r1] eqn:Hli.
    apply lazy_init_spec in Hli as (Hh1 & _ & Ho1 & Hres); [|done].
    destruct Hres as [(e & -> & Hk1 & Hwhy)|(-> & m & Hk1 & Hbuf)];
      unfold raise, ok in Hrun; cbn beta iota in Hrun.
    + left. split; [done|]. exists e. simplify_eq. split_and!; try done.
      * congruence.
      * intros j Hj. rewrite Ho1, Ho0; done.
    + right. split; [done|]. exists w1, m. split_and!; try done.
      * congruence.
      * intros j Hj. rewrite Ho1, Ho0; done.
  - left. apply Nat.eqb_neq in Hlen0 as Hlen. split; [done|].
    unfold mpure, ok in Hrun. cbn beta iota in Hrun.
    rewrite Hsame in Hrun; [done|].
    destruct (opt_state w !! k); [eauto|]. done.
Qed.

(** Processing one parameter leaves every other parameter and its state
    alone, never changes a gradient, and never reshapes the parameter. *)
Lemma step_param_frame (self : Adam) (group : param_group) (k : nat) (w w' : world)
    (r : result unit) :
  step_param self group k w = (w', r) →
  (∀ j, j ≠ k → heap w' j = heap w j ∧ opt_state w' !! j = opt_state w !! j)
  ∧ p_grad (heap w' k) = p_grad (heap w k)
  ∧ shape (p_data (heap w' k)) = shape (p_data (heap w k)).
Proof.
  intros Hrun.
  destruct (p_grad (heap w k)) as [g|] eqn:Hg;
    [|rewrite step_param_no_grad in Hrun by done; by simplify_eq].
  destruct (is_sparse g) eqn:Hsp;
    [erewrite step_param_sparse in Hrun by done; by simplify_eq|].
  destruct (step_param_dense _ _ _ _ _ _ _ Hg Hsp Hrun)
    as [(_ & Hup)|[(_ & e & -> & Hh & Ho & _)|(_ & w1 & m & Hh & Ho & _ & _ & Hup)]].
  - apply adam_update_spec in Hup as (Hother & Hgr & Hsh & _); [|done].
    rewrite Hg in Hgr. done.
  - rewrite Hh. repeat split; try done. by apply Ho.
  - apply adam_update_spec in Hup as (Hother & Hgr & Hsh & _); [|by rewrite Hh].
    rewrite Hg in Hgr. repeat split; try done.
    + destruct (Hother j) as [-> _]; [done|]. by rewrite Hh.
    + destruct (Hother j) as [_ ->]; [done|]. by apply Ho.
Qed.

(** *** Loops *)

Lemma for_each_app {A} (xs ys : list A) (body : A → M unit) (w : world) :
  for_each (xs ++ ys) body w
  = match for_each xs body w with
    | (w1, inl e) => (w1, inl e)
    | (w1, inr _) => for_each ys body w1
    end.
Proof.
  revert w. induction xs as [|x xs IH]; intros w; simpl; [done|].
  unfold mseq. destruct (body x w) as [w1 [e|[]]]; [done|]. apply IH.
Qed.

Lemma for_each_inv {A} (I : world → Prop) (xs : list A) (body : A → M unit)
    (w w' : world) (r : result unit) :
  (∀ x w w' r, x ∈ xs → I w → body x w = (w', r) → I w') →
  I w → for_each xs body w = (w', r) → I w'.
Proof.
  revert w. induction xs as [|x xs IH]; intros w Hbody HI Hrun; simpl in Hrun.
  { unfold mpure in Hrun. by simplify_eq. }
  unfold mseq in Hrun. destruct (body x w) as [w1 [e|[]]] eqn:Hx.
  - simplify_eq. eapply (Hbody x); [|done..]. apply elem_of_cons. by left.
  - eapply IH; [| |done].
    + intros ? ? ? ? ?. apply Hbody. apply elem_of_cons. by right.
    + eapply (Hbody x); [|done..]. apply elem_of_cons. by left.
Qed.

(** A loop fails if one of its iterations fails from any world the loop
    can be in. *)
Lemma for_each_fails {A} (I : world → Prop) (xs : list A) (body : A → M unit) (x0 : A)
    (w w' : world) (r : result unit) :
  (∀ x w w' r, x ∈ xs → I w → body x w = (w', r) → I w') →
  (∀ w, I w → ∃ e, (body x0 w).2 = raise e) →
  x0 ∈ xs →
  I w → for_each xs body w = (w', r) → ∃ e, r = raise e.
Proof.
  revert w. induction xs as [|x xs IH]; intros w Hbody Hfail Hin HI Hrun; simpl in Hrun.
  { by apply elem_of_nil in Hin. }
  unfold mseq in Hrun. destruct (body x w) as [w1 [e|[]]] eqn:Hx.
  { simplify_eq. eauto. }
  apply elem_of_cons in Hin as [->|Hin].
  { destruct (Hfail w HI) as [e He]. rewrite Hx in He. done. }
  eapply IH; [|done|done| |done].
  - intros ? ? ? ? ?. apply Hbody. apply elem_of_cons. by right.
  - eapply (Hbody x); [|done..]. apply elem_of_cons. by left.
Qed.

(** While a parameter has a sparse gradient, no iteration of [step]
    changes it or its state. *)
Lemma step_param_keeps_sparse (self : Adam) (group : param_group) (k j : nat)
    (w0 w w' : world) (r : result unit) (g : tensor elem) :
  p_grad (heap w0 k) = Some g → is_sparse g = true →
  heap w k = heap w0 k ∧ opt_state w !! k = opt_state w0 !! k →
  step_param self group j w = (w', r) →
  heap w' k = heap w0 k ∧ opt_state w' !! k = opt_state w0 !! k.
Proof.
  intros Hg Hsp [Hh Ho] Hrun. destruct (decide (j = k)) as [->|Hj].
  - erewrite step_param_sparse in Hrun by (by rewrite ?Hh). by simplify_eq.
  - apply step_param_frame in Hrun as (Hother & _).
    destruct (Hother k) as [-> ->]; done.
Qed.

End Body.


(** ** The life of a parameter's state *)

Lemma create_partitioned_buffer_zeros {A} (zero : A) (self : Adam) (t m : tensor A) :
  _create_partitioned_buffer zero self t = ok m →
  data m = replicate (numel (shape m)) zero ∧ tail (shape m) = tail (shape t)
  ∧ dtype m = dtype t ∧ device m = device t ∧ requires_grad m = false.
Proof.
  intros Hbuf.
  apply create_partitioned_buffer_inv in Hbuf as (n & tr & q & Hsh & _ & _ & ->).
  rewrite Hsh. done.
Qed.

Section Lifecycle.
Context `{RT : Runtime}.

(** A completed update on [k]: where it started from and what it stored. *)
Lemma step_param_done (self : Adam) (group : param_group) (k : nat) (g : tensor elem)
    (w w' : world) :
  p_grad (heap w k) = Some g →
  is_sparse g = false →
  step_param self group k w = (w', ok tt) →
  ∃ s m v lp lg,
    ((opt_state w !! k = Some (PState (Some s) (Some m) (Some v)))
     ∨ ((opt_state w !! k = None ∨ opt_state w !! k = Some empty_state)
        ∧ s = 0%Z ∧ v = m
        ∧ data m = replicate (numel (shape m)) zero
        ∧ ((_need_partition self (p_data (heap w k)) = ok true
            ∧ _create_partitioned_buffer zero self (p_data (heap w k)) = ok m)
           ∨ (_need_partition self (p_data (heap w k)) = ok false
              ∧ shape m = shape (p_data (heap w k))))))
    ∧ shape m = shape v
    ∧ _partition zero self (p_data (heap w k)) m = ok lp
    ∧ _partition zero self g m = ok lg
    ∧ opt_state w' !! k
      = Some (PState (Some (s + 1)%Z)
                (Some (exp_avg_out
                         (F_adam lp.2 lg.2 m v (s + 1)%Z (amsgrad (group_hyper group))
                            (betas (group_hyper group)).1 (betas (group_hyper group)).2
                            (lr (group_hyper group)) (weight_decay (group_hyper group))
                            (eps (group_hyper group)))))
                (Some (exp_avg_sq_out
                         (F_adam lp.2 lg.2 m v (s + 1)%Z (amsgrad (group_hyper group))
                            (betas (group_hyper group)).1 (betas (group_hyper group)).2
                            (lr (group_hyper group)) (weight_decay (group_hyper group))
                            (eps (group_hyper group)))))).
Proof.
  intros Hg Hsp Hrun.
  destruct (step_param_dense _ _ _ _ _ _ _ Hg Hsp Hrun)
    as [(Hlen & Hup)|[(_ & e & ? & _)|(Hlen & w1 & m0 & Hh & Ho & Hk & Hbuf & Hup)]];
    [|done|].
  - apply adam_update_spec in Hup as (_ & _ & _ & Hres); [|done].
    destruct Hres as [(e & ? & _)|(s & m & v & lp & lg & Hst & Hsh & Hlp & Hlg & Hst' & _)];
      [done|].
    exists s, m, v, lp, lg. split_and!; try done. by left.
  - apply adam_update_spec in Hup as (_ & _ & _ & Hres); [|by rewrite Hh].
    destruct Hres as [(e & ? & _)|(s & m & v & lp & lg & Hst & Hsh & Hlp & Hlg & Hst' & _)];
      [done|].
    rewrite Hk in Hst. injection Hst as <- <- <-.
    exists 0%Z, m0, m0, lp, lg. split_and!; try done.
    right. split_and!; try done.
    + destruct (opt_state w !! k) as [st|]; [right|by left].
      simpl in Hlen. by rewrite (state_len_0 _ Hlen).
    + destruct Hbuf as [[_ Hb]|[_ ->]]; [|done].
      by apply create_partitioned_buffer_zeros in Hb as [? _].
    + destruct Hbuf as [[? ?]|[? ->]]; [by left|by right].
Qed.

End Lifecycle.


(** ** The shapes of the moment buffers *)

Lemma need_partition_shape {A B} (self : Adam) (t : tensor A) (t' : tensor B) :
  shape t = shape t' → _need_partition self t = _need_partition self t'.
Proof. intros Hsh. unfold _need_partition, shape0. by rewrite Hsh. Qed.

Lemma create_partitioned_buffer_shape {A} (zero : A) (self : Adam) (t m : tensor A) :
  _create_partitioned_buffer zero self t = ok m →
  ∃ n tr q, shape t = n :: tr
            ∧ ceil_div (Z.of_nat n) (_world_size self) = ok q
            ∧ shape m = Z.to_nat q :: tr.
Proof.
  intros Hbuf.
  apply create_partitioned_buffer_inv in Hbuf as (n & tr & q & Hsh & Hq & _ & ->).
  exists n, tr, q. done.
Qed.

(** For a shard-eligible parameter and a positive world size the buffer is
    made without an exception. *)
Lemma create_partitioned_buffer_total {A} (zero : A) (self : Adam) (t : tensor A) :
  shape t ≠ [] →
  (0 < _world_size self)%Z →
  ∃ m, _create_partitioned_buffer zero self t = ok m.
Proof.
  intros Hne Hws. destruct (shape t) as [|n tr] eqn:Hsh; [done|].
  destruct (ceil_div_nonneg (Z.of_nat n) (_world_size self)) as (q & Hq & Hq0); [lia|done|].
  rewrite (create_partitioned_buffer_rows zero self t n tr q) by done. eauto.
Qed.

(** The row count of an eligible parameter with fewer than 2^53 rows is the
    ceiling of the quotient. *)
Lemma eligible_rows_exact {A} (self : Adam) (t : tensor A) (n : nat) (tr : list nat) (q : Z) :
  _need_partition self t = ok true →
  shape t = n :: tr →
  (0 < _world_size self)%Z →
  (Z.of_nat n < 2 ^ 53)%Z →
  ceil_div (Z.of_nat n) (_world_size self) = ok q →
  (0 ≤ q)%Z
  ∧ ((Z.of_nat (Z.to_nat q) - 1) * _world_size self < Z.of_nat n
     ≤ Z.of_nat (Z.to_nat q) * _world_size self)%Z.
Proof.
  intros Hneed Hsh Hws Hn Hq.
  apply need_partition_true in Hneed as (_ & n' & tr' & Hsh' & Hge).
  rewrite Hsh in Hsh'. injection Hsh' as <- <-.
  destruct (ceil_div_spec (Z.of_nat n) (_world_size self)) as (q' & Hq' & Hb); [lia|lia|].
  rewrite Hq in Hq'. injection Hq' as <-.
  assert (0 ≤ q)%Z by nia. rewrite Z2Nat.id by done. done.
Qed.

Section Shapes.
Context `{RT : Runtime}.

Lemma moment_shape_ok_shape (self : Adam) (t t' : tensor elem) (sh : list nat) :
  shape t' = shape t → moment_shape_ok self t sh → moment_shape_ok self t' sh.
Proof.
  intros Hsh. unfold moment_shape_ok.
  rewrite (need_partition_shape self t' t Hsh), Hsh. done.
Qed.


Lemma created_shape_moment_shape_ok (self : Adam) (t : tensor elem) (sh : list nat) :
  created_shape self t sh → moment_shape_ok self t sh.
Proof.
  intros [[? ?]|(? & n & tr & q & ? & ? & ?)]; [by left|right].
  split; [done|]. by exists n, tr, (Z.to_nat q).
Qed.

Lemma fresh_created_shape (self : Adam) (t m : tensor elem) :
  (_need_partition self t = ok true ∧ _create_partitioned_buffer zero self t = ok m)
  ∨ (_need_partition self t = ok false
     ∧ m = to_device (torch_zeros zero (shape t) (dtype t) false) (device t)) →
  created_shape self t (shape m).
Proof.
  intros [[Hneed Hbuf]|[Hneed ->]].
  - right. split; [done|]. by eapply create_partitioned_buffer_shape.
  - left. done.
Qed.

Lemma fresh_moment_shape_ok (self : Adam) (t m : tensor elem) :
  (_need_partition self t = ok true ∧ _create_partitioned_buffer zero self t = ok m)
  ∨ (_need_partition self t = ok false
     ∧ m = to_device (torch_zeros zero (shape t) (dtype t) false) (device t)) →
  moment_shape_ok self t (shape m).
Proof. intros H. by apply created_shape_moment_shape_ok, fresh_created_shape. Qed.








End Shapes.

Lemma toy_moments_in_place : @moments_in_place toy_runtime.
Proof. intros p g m v s ams b1 b2 l wd e. split; reflexivity. Defined.


(** A parameter without dimensions under ZeRO: [step] raises at the
    eligibility test, after it has stored the count; the state exists and
    holds neither [exp_avg] nor [exp_avg_sq]. *)
Lemma C6_counterexample :
  (@step toy_runtime toy_optimizer None scalar_world).2
  = raise (IndexError "tuple index out of range")
  ∧ ∃ st,
      @opt_state toy_runtime (@step toy_runtime toy_optimizer None scalar_world).1 !! 0
      = Some st
      ∧ @st_exp_avg toy_runtime st = None
      ∧ @st_exp_avg_sq toy_runtime st = None.
Proof.
  split; [vm_compute; reflexivity|].
  exists (@PState toy_runtime (Some 0%Z) None None).
  split; [vm_compute; reflexivity|]. split; reflexivity.
Qed.

(** ** Updates that run to completion *)

Lemma Forall2_le_refl (l : list nat) : Forall2 le l l.
Proof. induction l; constructor; auto. Qed.

Lemma scatter_writes_total {A} (ssh sh : list nat) (src : list A) (os : list nat)
    (acc : list A) :
  sh ≠ [] →
  0 < hd 0 ssh →
  length src = numel sh →
  Forall (λ o, o < numel sh) os →
  ∃ d, scatter_writes ssh sh sh (replicate (numel sh) 0%Z) src os acc = ok d.
Proof.
  intros Hsh Hhd Hsrc Hos. revert acc.
  induction Hos as [|o os Ho _ IH]; intros acc; simpl; [eauto|].
  destruct sh as [|d0 sh']; [done|].
  pose proof (ravel_unravel (d0 :: sh') o Ho) as Hrav.
  cbn [unravel]. cbn [unravel] in Hrav.
  rewrite lookup_replicate_2 by done.
  rewrite bool_decide_eq_true_2 by lia.
  rewrite Hrav.
  destruct (src !! o) as [x|] eqn:Hx; [apply IH|].
  apply lookup_ge_None in Hx. lia.
Qed.

Lemma need_partition_total {A} (self : Adam) (t : tensor A) :
  shape t ≠ [] → ∃ b, _need_partition self t = ok b.
Proof.
  intros Hne. destruct (shape t) as [|n tr] eqn:Hsh; [done|].
  rewrite (need_partition_cons _ _ _ _ Hsh). eauto.
Qed.

Section Totality.
Context `{RT : Runtime}.

Lemma scatter_0_total (self src : tensor elem) (n ps : nat) (tr : list nat) :
  shape self = n :: tr →
  1 ≤ n →
  shape src = ps :: tr →
  wf_tensor src →
  ∃ d, scatter_0 self (zero_index src) src = ok d.
Proof.
  intros Hself Hn Hsrc Hwf. unfold scatter_0. simpl.
  rewrite Hself, Hsrc. simpl.
  rewrite bool_decide_eq_true_2 by done. simpl.
  rewrite bool_decide_eq_true_2 by (split; apply Forall2_le_refl). simpl.
  destruct (scatter_writes_total (n :: tr) (ps :: tr) (data src)
              (seq 0 (numel (ps :: tr))) (data self)) as [d Hd].
  - done.
  - simpl. lia.
  - unfold wf_tensor in Hwf. by rewrite Hsrc in Hwf.
  - apply seq_below.
  - simpl in Hd. fold (numel tr) in Hd. rewrite Hd. simpl. eauto.
Qed.

(** The local shard has the shape of the moment buffer it is cut for. *)
Lemma partition_local (self : Adam) (t m : tensor elem) :
  wf_config self →
  wf_tensor t →
  moment_shape_ok self t (shape m) →
  ∃ lp, _partition zero self t m = ok lp ∧ shape lp.2 = shape m ∧ wf_tensor lp.2.
Proof.
  intros [Hws Hrank] Hwf [[Hneed Hm]|(Hneed & n & tr & q & Ht & Hm)].
  - exists (SameObject, t). unfold _partition. rewrite Hneed. simpl. by rewrite Hm.
  - pose proof Hwf as Hwf0. unfold wf_tensor in Hwf. rewrite Ht, numel_cons in Hwf.
    destruct (decide (_world_size self * Z.of_nat q > Z.of_nat n)%Z) as [Hgt|Hle].
    + eexists. split; [by eapply partition_padded|]. simpl. split; [done|].
      unfold wf_tensor. simpl. fold (numel tr).
      rewrite length_take, length_drop, length_app, length_replicate, Hwf. nia.
    + eexists. split; [eapply partition_unpadded; try done; lia|]. simpl.
      split; [done|]. unfold wf_tensor. simpl. fold (numel tr).
      rewrite length_take, length_drop, Hwf. nia.
Qed.

Lemma write_back_total (self : Adam) (k : nat) (p : param) (u m : tensor elem) (w : world) :
  wf_config self →
  shape (p_data p) ≠ [] →
  wf_tensor (p_data p) →
  moment_shape_ok self (p_data p) (shape m) →
  shape u = shape m →
  wf_tensor u →
  ∃ w', write_back self k p u w = (w', ok tt).
Proof.
  intros [Hws Hrank] Hne Hwf [[Hneed Hm]|(Hneed & n & tr & q & Ht & Hm)] Hu Hwfu.
  - rewrite write_back_unsharded by done. unfold mseq, mlift, set_param_data.
    rewrite setitem_all_same_shape by (done || congruence). eauto.
  - rewrite write_back_sharded by done. unfold mseq, mlift, set_param_data.
    apply need_partition_true in Hneed as (_ & n' & tr' & Ht' & Hn').
    rewrite Ht in Ht'. injection Ht' as <- <-.
    destruct (scatter_0_total (p_data p) u n q tr) as [d ->]; try done; [lia|congruence|].
    eauto.
Qed.

Lemma lazy_init_total (self : Adam) (k : nat) (p : param) (w : world) :
  wf_config self →
  shape (p_data p) ≠ [] →
  ∃ w', lazy_init self k p w = (w', ok tt).
Proof.
  intros [Hws _] Hne. unfold lazy_init, mseq, mlift, set_step, set_exp_avg, set_exp_avg_sq,
    update_state. simpl.
  destruct (need_partition_total self (p_data p) Hne) as [[] ->]; simpl; [|eauto].
  destruct (create_partitioned_buffer_total zero self (p_data p) Hne Hws) as [m ->].
  simpl. eauto.
Qed.

Lemma adam_update_total (self : Adam) (group : param_group) (k : nat) (g : tensor elem)
    (w : world) (s : Z) (m v : tensor elem) :
  wf_config self →
  kernel_keeps_shape →
  wf_param (heap w k) →
  p_grad (heap w k) = Some g →
  is_sparse g = false →
  opt_state w !! k = Some (PState (Some s) (Some m) (Some v)) →
  shape m = shape v →
  moment_shape_ok self (p_data (heap w k)) (shape m) →
  ∃ w', adam_update self group k (heap w k) g w = (w', ok tt).
Proof.
  intros Hcfg Hker (Hne & Hwf & Hgrad) Hg Hsp Hst Hmv Hok.
  destruct (Hgrad g Hg Hsp) as [Hgsh Hgwf].
  destruct (partition_local self (p_data (heap w k)) m Hcfg Hwf Hok)
    as (lp & Hlp & Hlpsh & Hlpwf).
  destruct (partition_local self g m Hcfg Hgwf) as (lg & Hlg & Hlgsh & Hlgwf).
  { eapply moment_shape_ok_shape; [exact Hgsh|exact Hok]. }
  unfold adam_update. destruct (betas (group_hyper group)) as [beta1 beta2].
  unfold mseq at 1. unfold get_item at 1. rewrite Hst. simpl.
  unfold mseq at 1. unfold get_item at 1. rewrite Hst. simpl.
  unfold mseq at 1. rewrite bool_decide_eq_true_2 by done. unfold mpure at 1.
  unfold mseq at 1. unfold mlift at 1. rewrite Hlp.
  unfold mseq at 1. unfold mlift at 1. rewrite Hlg.
  unfold mseq at 1. unfold get_item at 1. rewrite Hst. simpl.
  unfold mseq at 1 2 3, set_step, set_exp_avg, set_exp_avg_sq, update_state. simpl.
  set (out := F_adam lp.2 lg.2 m v (s + 1)%Z _ _ _ _ _ _).
  destruct (Hker lp.2 lg.2 m v (s + 1)%Z (amsgrad (group_hyper group)) beta1 beta2
              (lr (group_hyper group)) (weight_decay (group_hyper group))
              (eps (group_hyper group))) as [Hush Huwf]; try done; try congruence.
  fold out in Hush, Huwf.
  unfold mseq.
  match goal with
  | |- context [write_back self k (heap w k) (updated out) ?w1] =>
      destruct (write_back_total self k (heap w k) (updated out) m w1) as [w2 ->];
        try done; try congruence
  end.
  destruct (_lm self); unfold mark_step, mpure; eauto.
Qed.

(** In a well-formed world, with a well-formed configuration and a kernel
    that keeps shapes, the update of a parameter with a dense gradient
    runs to completion. *)
Lemma step_param_total_at (self : Adam) (group : param_group) (k : nat) (g : tensor elem)
    (w : world) :
  wf_config self →
  kernel_keeps_shape →
  wf_param (heap w k) →
  (∀ st, opt_state w !! k = Some st → wf_state self (heap w k) st) →
  p_grad (heap w k) = Some g →
  is_sparse g = false →
  ∃ w', step_param self group k w = (w', ok tt).
Proof.
  intros Hcfg Hker Hp Hstate Hg Hsp.
  unfold step_param. unfold mseq at 1. unfold get_param, ok. cbn beta iota.
  rewrite Hg, Hsp. unfold mseq at 1. unfold state_of.
  destruct (opt_state w !! k) as [st|] eqn:Hst.
  - destruct (Hstate st eq_refl) as [->|(s & m & v & -> & Hmv & Hok)].
    + unfold ok. cbn beta iota. unfold mseq at 1. simpl.
      destruct (lazy_init self k (heap w k) w) as [w1 r1] eqn:Hli.
      destruct (lazy_init_total self k (heap w k) w Hcfg (proj1 Hp)) as [w1' Hli'].
      rewrite Hli in Hli'. injection Hli' as <- ->.
      apply lazy_init_spec in Hli as (Hh & _ & _ & [(e & ? & _)|(_ & m & Hk & Hbuf)]);
        [done| |done].
      rewrite <- Hh. eapply adam_update_total; try done; rewrite ?Hh; try done.
      by apply fresh_moment_shape_ok.
    + unfold ok. cbn beta iota. unfold mseq at 1. simpl. unfold mpure.
      by eapply adam_update_total.
  - unfold ok. cbn beta iota. unfold mseq at 1. simpl.
    match goal with
    | |- context [lazy_init self k (heap w k) ?w0] =>
        destruct (lazy_init self k (heap w k) w0) as [w1 r1] eqn:Hli;
        destruct (lazy_init_total self k (heap w k) w0 Hcfg (proj1 Hp)) as [w1' Hli']
    end.
    rewrite Hli in Hli'. injection Hli' as <- ->.
    apply lazy_init_spec in Hli as (Hh & _ & _ & [(e & ? & _)|(_ & m & Hk & Hbuf)]);
      [done| |simpl; by rewrite lookup_insert_eq].
    simpl in Hh. rewrite <- Hh. eapply adam_update_total; try done; rewrite ?Hh; try done.
    by apply fresh_moment_shape_ok.
Qed.

Lemma step_param_total (self : Adam) (group : param_group) (k : nat) (g : tensor elem)
    (w : world) :
  wf_config self →
  kernel_keeps_shape →
  wf_world self w →
  p_grad (heap w k) = Some g →
  is_sparse g = false →
  ∃ w', step_param self group k w = (w', ok tt).
Proof.
  intros Hcfg Hker Hwf Hg Hsp. destruct (Hwf k) as [Hp Hstate].
  by eapply step_param_total_at.
Qed.

Lemma adam_update_length (self : Adam) (group : param_group) (k : nat) (p : param)
    (g : tensor elem) (w w' : world) (r : result unit) :
  adam_update self group k p g w = (w', r) →
  heap w k = p →
  length (data (p_data (heap w' k))) = length (data (p_data p)).
Proof.
  intros Hup Hp. apply adam_update_spec in Hup as (_ & _ & _ & Hres); [|done].
  destruct Hres as [(e & _ & _ & ->)|(s & m & v & lp & lg & _ & _ & _ & _ & _ & Hwb)];
    [done|].
  destruct Hwb as [(e & _ & ->)|(_ & [[Hneed Hsc]|[Hneed Hset]])]; [done| |].
  - apply need_partition_true in Hneed as (_ & n & tr & Hsh & _).
    apply scatter_0_frame in Hsc as (_ & _ & _ & Hlen & _);
      [done|by rewrite Hsh|apply zero_index_zeros].
  - by apply setitem_all_shape in Hset as [_ ?].
Qed.

Lemma step_param_length (self : Adam) (group : param_group) (k : nat) (w w' : world)
    (r : result unit) :
  step_param self group k w = (w', r) →
  length (data (p_data (heap w' k))) = length (data (p_data (heap w k))).
Proof.
  intros Hrun.
  destruct (p_grad (heap w k)) as [g|] eqn:Hg;
    [|rewrite step_param_no_grad in Hrun by done; by simplify_eq].
  destruct (is_sparse g) eqn:Hsp;
    [erewrite step_param_sparse in Hrun by done; by simplify_eq|].
  destruct (step_param_dense _ _ _ _ _ _ _ Hg Hsp Hrun)
    as [(_ & Hup)|[(_ & e & -> & Hh & _)|(_ & w1 & m & Hh & _ & _ & _ & Hup)]].
  - by eapply adam_update_length.
  - by rewrite Hh.
  - eapply adam_update_length; [exact Hup|]. by rewrite Hh.
Qed.

(** Well-formed worlds stay well formed, and in them the body of [step]
    raises only for a sparse gradient. *)
Lemma step_param_wf (self : Adam) (group : param_group) (k : nat) (w w' : world)
    (r : result unit) :
  wf_config self →
  kernel_keeps_shape →
  moments_in_place →
  wf_world self w →
  step_param self group k w = (w', r) →
  wf_world self w'
  ∧ (r = ok tt
     ∨ (r = raise (RuntimeError sparse_msg)
        ∧ ∃ g, p_grad (heap w k) = Some g ∧ is_sparse g = true)).
Proof.
  intros Hcfg Hker Hin Hwf Hrun.
  destruct (p_grad (heap w k)) as [g|] eqn:Hg;
    [|rewrite step_param_no_grad in Hrun by done; simplify_eq; by eauto].
  destruct (is_sparse g) eqn:Hsp;
    [erewrite step_param_sparse in Hrun by done; simplify_eq; by eauto 6|].
  destruct (step_param_total self group k g w Hcfg Hker Hwf Hg Hsp) as [w'' Hok].
  rewrite Hrun in Hok. injection Hok as <- ->. split; [|by left].
  pose proof (step_param_frame _ _ _ _ _ _ Hrun) as (Hother & Hgrad & Hshape).
  pose proof (step_param_length _ _ _ _ _ _ Hrun) as Hlen.
  intros j. destruct (decide (j = k)) as [->|Hne].
  - destruct (Hwf k) as [(Hne & Hwfp & Hgr) Hstate]. split.
    + split_and!.
      * by rewrite Hshape.
      * unfold wf_tensor in *. by rewrite Hlen, Hshape.
      * intros g' Hg' Hsp'. rewrite Hgrad in Hg'. rewrite Hshape. by apply Hgr.
    + intros st' Hst'. right.
      destruct (step_param_done _ _ _ _ _ _ Hg Hsp Hrun)
        as (s & m & v & lp & lg & Hfrom & Hmv & _ & _ & Hnew).
      rewrite Hnew in Hst'. injection Hst' as <-.
      eexists _, _, _. split; [reflexivity|].
      match goal with
      | |- context [F_adam ?a ?b ?c ?d ?e ?f ?g1 ?h ?i ?j ?l] =>
          destruct (Hin a b c d e f g1 h i j l) as [-> ->]
      end.
      split; [done|].
      eapply moment_shape_ok_shape; [exact Hshape|].
      destruct Hfrom as [Hfull|(_ & _ & _ & _ & Hbuf)].
      * destruct (Hstate _ Hfull) as [?|(s0 & m0 & v0 & [= <- <- <-] & _ & ?)]; done.
      * destruct Hbuf as [[Hneed Hbuf]|[Hneed Hm]].
        -- apply fresh_moment_shape_ok. by left.
        -- left. done.
  - destruct (Hother j Hne) as [Hh Ho]. destruct (Hwf j) as [Hp Hstate].
    rewrite Hh, Ho. done.
Qed.

End Totality.

(** ** The whole step *)

Section WholeStep.
Context `{RT : Runtime}.

Lemma for_each_outcome {A} (I : world → Prop) (E : exn) (xs : list A) (body : A → M unit)
    (w w' : world) (r : result unit) :
  (∀ x w w' r, I w → body x w = (w', r) → I w' ∧ (r = ok tt ∨ r = raise E)) →
  I w → for_each xs body w = (w', r) → I w' ∧ (r = ok tt ∨ r = raise E).
Proof.
  intros Hbody. revert w. induction xs as [|x xs IH]; intros w HI Hrun; simpl in Hrun.
  { unfold mpure in Hrun. simplify_eq. eauto. }
  unfold mseq in Hrun. destruct (body x w) as [w1 [e|[]]] eqn:Hx.
  - simplify_eq. destruct (Hbody _ _ _ _ HI Hx) as [? [?|?]]; [done|]. eauto.
  - destruct (Hbody _ _ _ _ HI Hx) as [H1 _]. by eapply IH.
Qed.

(** In a well-formed world the loop of [step] completes or raises the
    sparse-gradient error, and leaves a well-formed world. *)
Lemma step_loop_wf (self : Adam) (w w' : world) (r : result unit) :
  wf_config self →
  kernel_keeps_shape →
  moments_in_place →
  wf_world self w →
  step_loop self w = (w', r) →
  wf_world self w' ∧ (r = ok tt ∨ r = raise (RuntimeError sparse_msg)).
Proof.
  intros Hcfg Hker Hin Hwf Hloop.
  eapply (for_each_outcome (wf_world self)); [|exact Hwf|exact Hloop].
  intros grp w1 w2 r1 H1 Hgrp.
  eapply (for_each_outcome (wf_world self)); [|exact H1|exact Hgrp].
  intros j w3 w4 r2 H3 Hj.
  destruct (step_param_wf _ _ _ _ _ _ Hcfg Hker Hin H3 Hj) as [? [?|[? _]]]; eauto.
Qed.

(** [step] is the closure followed by the loop. *)
Lemma step_after_closure (self : Adam) (closure : option (M (tensor elem)))
    (w0 w w' : world) (loss : option (tensor elem)) (r : result (option (tensor elem))) :
  eval_closure closure w0 = (w, ok loss) →
  step self closure w0 = (w', r) →
  ∃ r1, step_loop self w = (w', r1)
        ∧ ((r1 = ok tt ∧ r = ok loss) ∨ (∃ e, r1 = raise e ∧ r = raise e)).
Proof.
  intros Hcl Hrun. unfold step, mseq in Hrun. rewrite Hcl in Hrun. unfold ok in Hrun.
  destruct (step_loop self w) as [w1 [e|[]]]; unfold mpure in Hrun; simplify_eq; eauto 7.
Qed.

(** C7. A parameter whose gradient is sparse makes the body of [step]
    raise [RuntimeError] (the sparse-gradient message) before anything is
    touched: the world is returned as it was, so no state is created for
    the parameter and an existing one keeps its step count and moment
    buffers. A loop that gets as far as this parameter ends with that
    exception; and a [step] over groups that contain it always raises and
    leaves the parameter and its state as they were when the loop
    started (after the closure, if there is one). In a well-formed world
    (parameters with at least one dimension, dense gradients shaped like
    their parameter, states empty or complete), with a rank below a
    positive world size and a kernel that keeps shapes, the exception
    [step] raises is this very [RuntimeError]. *)
Theorem C7_sparse_gradient_rejected (self : Adam) (group : param_group) (k : nat)
    (g : tensor elem) (w : world) :
  p_grad (heap w k) = Some g →
  is_sparse g = true →
  step_param self group k w = (w, raise (RuntimeError sparse_msg))
  ∧ (∀ ks1 ks2 w1,
       for_each ks1 (step_param self group) w = (w1, ok tt) →
       for_each (ks1 ++ k :: ks2) (step_param self group) w
       = (w1, raise (RuntimeError sparse_msg))
       ∧ opt_state w1 !! k = opt_state w !! k)
  ∧ (∀ closure w0 loss w' r,
       (∃ grp, grp ∈ param_groups self ∧ k ∈ params grp) →
       eval_closure closure w0 = (w, ok loss) →
       step self closure w0 = (w', r) →
       (∃ e, r = raise e)
       ∧ opt_state w' !! k = opt_state w !! k
       ∧ heap w' k = heap w k)
  ∧ (∀ closure w0 loss w' r,
       wf_config self → kernel_keeps_shape → moments_in_place → wf_world self w →
       (∃ grp, grp ∈ param_groups self ∧ k ∈ params grp) →
       eval_closure closure w0 = (w, ok loss) →
       step self closure w0 = (w', r) →
       r = raise (RuntimeError sparse_msg)).
Proof.
  intros Hg Hsp.
  set (I := λ w1 : world, heap w1 k = heap w k ∧ opt_state w1 !! k = opt_state w !! k).
  assert (HI : I w) by done.
  assert (Hbody : ∀ grp j w1 w2 r, I w1 → step_param self grp j w1 = (w2, r) → I w2).
  { intros grp j w1 w2 r H1 Hrun. by eapply step_param_keeps_sparse. }
  assert (Hraise : ∀ grp w1, I w1 →
            step_param self grp k w1 = (w1, raise (RuntimeError sparse_msg))).
  { intros grp w1 [Hh _]. eapply step_param_sparse; [by rewrite Hh|done]. }
  assert (Hstep : ∀ closure w0 loss w' r,
            (∃ grp, grp ∈ param_groups self ∧ k ∈ params grp) →
            eval_closure closure w0 = (w, ok loss) →
            step self closure w0 = (w', r) →
            (∃ e, r = raise e)
            ∧ opt_state w' !! k = opt_state w !! k
            ∧ heap w' k = heap w k).
  { intros closure w0 loss w' r (grp & Hgrp & Hk) Hcl Hrun.
    destruct (step_after_closure _ _ _ _ _ _ _ Hcl Hrun) as (r1 & Hloop & Hr).
    assert (Hinner : ∀ grp' w1 w2 r, I w1 →
              for_each (params grp') (λ p, step_param self grp' p) w1 = (w2, r) → I w2).
    { intros grp' w2 w3 r2 H2 Hrun2.
      eapply (for_each_inv I); [|exact H2|exact Hrun2]. intros. by eapply Hbody. }
    assert (I w') as [Hh1 Ho1].
    { eapply (for_each_inv I); [|exact HI|exact Hloop].
      intros grp' w2 w3 r2 _ H2 Hb. eapply Hinner; [exact H2|exact Hb]. }
    assert (∃ e, r1 = raise e) as [e ->].
    { eapply (for_each_fails I _ _ grp); [| |exact Hgrp|exact HI|exact Hloop].
      - intros grp' w2 w3 r2 _ H2 Hb. eapply Hinner; [exact H2|exact Hb].
      - intros w2 H2.
        destruct (for_each (params grp) (λ p, step_param self grp p) w2) as [w3 r3] eqn:Hg3.
        eapply (for_each_fails I _ _ k); [| |exact Hk|exact H2|exact Hg3].
        + intros. by eapply Hbody.
        + intros w4 H4. rewrite Hraise by done. eauto. }
    destruct Hr as [[? _]|(e' & _ & ->)]; [done|]. eauto. }
  split; [by apply Hraise|]. split; [|split; [exact Hstep|]].
  - intros ks1 ks2 w1 Hpre.
    assert (I w1) as H1.
    { eapply (for_each_inv I); [|exact HI|exact Hpre]. intros. by eapply Hbody. }
    split; [|apply H1].
    rewrite for_each_app, Hpre. simpl. unfold mseq. by rewrite Hraise.
  - intros closure w0 loss w' r Hcfg Hker Hin Hwf Hmem Hcl Hrun.
    destruct (Hstep _ _ _ _ _ Hmem Hcl Hrun) as [[e He] _]. subst r.
    destruct (step_after_closure _ _ _ _ _ _ _ Hcl Hrun) as (r1 & Hloop & Hr).
    destruct (step_loop_wf _ _ _ _ Hcfg Hker Hin Hwf Hloop) as [_ [-> | ->]];
      destruct Hr as [[? ?]|(e' & ? & ?)]; simplify_eq; done.
Qed.


(** A state creation that raises has stored the count already. *)
Lemma lazy_init_raises (self : Adam) (k : nat) (p : param) (w : world) (e : exn) :
  _need_partition self (p_data p) = raise e
  ∨ (_need_partition self (p_data p) = ok true
     ∧ _create_partitioned_buffer zero self (p_data p) = raise e) →
  lazy_init self k p w
  = (World (heap w)
       (alter (λ st, PState (Some 0%Z) (st_exp_avg st) (st_exp_avg_sq st)) k (opt_state w))
       (mark_steps w), raise e).
Proof.
  intros Hfail. unfold lazy_init, mseq, set_step, update_state, mlift. simpl.
  destruct Hfail as [->|[-> ->]]; done.
Qed.

Lemma step_param_creation_raises (self : Adam) (group : param_group) (k : nat)
    (g : tensor elem) (w : world) (e : exn) :
  p_grad (heap w k) = Some g →
  is_sparse g = false →
  state_len (default empty_state (opt_state w !! k)) = 0 →
  (_need_partition self (p_data (heap w k)) = raise e
   ∨ (_need_partition self (p_data (heap w k)) = ok true
      ∧ _create_partitioned_buffer zero self (p_data (heap w k)) = raise e)) →
  ∃ w', step_param self group k w = (w', raise e)
        ∧ opt_state w' !! k = Some (PState (Some 0%Z) None None)
        ∧ heap w' = heap w.
Proof.
  intros Hg Hsp Hlen Hfail.
  unfold step_param. unfold mseq at 1. unfold get_param, ok. cbn beta iota.
  rewrite Hg, Hsp. unfold mseq at 1. unfold state_of.
  destruct (opt_state w !! k) as [st|] eqn:Hst; cbn beta iota.
  - simpl in Hlen. rewrite (state_len_0 _ Hlen) in *.
    unfold mseq at 1. simpl. rewrite (lazy_init_raises _ _ _ _ e Hfail).
    eexists. split; [reflexivity|]. simpl. rewrite lookup_alter_eq, Hst. done.
  - unfold mseq at 1. simpl. rewrite (lazy_init_raises _ _ _ _ e Hfail).
    eexists. split; [reflexivity|]. simpl. rewrite lookup_alter_eq, lookup_insert_eq. done.
Qed.

Lemma step_param_without_exp_avg (self : Adam) (group : param_group) (k : nat)
    (g : tensor elem) (w : world) (st : pstate) :
  p_grad (heap w k) = Some g →
  is_sparse g = false →
  opt_state w !! k = Some st →
  st_exp_avg st = None →
  state_len st ≠ 0 →
  step_param self group k w = (w, raise (KeyError "exp_avg")).
Proof.
  intros Hg Hsp Hst Hnone Hlen.
  unfold step_param. unfold mseq at 1. unfold get_param, ok. cbn beta iota.
  rewrite Hg, Hsp. unfold mseq at 1. unfold state_of. rewrite Hst. unfold ok.
  cbn beta iota.
  unfold mseq at 1. rewrite (proj2 (Nat.eqb_neq _ _) Hlen). unfold mpure. cbn beta iota.
  unfold adam_update. destruct (betas (group_hyper group)) as [b1 b2].
  unfold mseq at 1. unfold get_item at 1. rewrite Hst. simpl. by rewrite Hnone.
Qed.


End WholeStep.

Lemma toy_kernel_keeps_shape : @kernel_keeps_shape toy_runtime.
Proof.
  intros p g m v s ams b1 b2 l wd e Hp Hg Hgp _ _. split; [reflexivity|].
  unfold wf_tensor in *. cbv [elem toy_runtime] in *. simpl.
  rewrite length_zip_with, Hp, Hg, Hgp. lia.
Defined.

Lemma toy_world_wf : @wf_world toy_runtime toy_optimizer toy_world.
Proof.
  intros k. split.
  - split; [discriminate|]. split; [reflexivity|].
    intros g Hg _. injection Hg as <-. split; reflexivity.
  - intros st Hst. discriminate Hst.
Defined.

Lemma toy_config_wf : wf_config toy_optimizer.
Proof. unfold wf_config. simpl. lia. Defined.

Lemma toy_sparse_world_wf : @wf_world toy_runtime toy_optimizer toy_sparse_world.
Proof.
  intros k. split.
  - split; [discriminate|]. split; [reflexivity|].
    intros g Hg Hsp. injection Hg as <-. discriminate Hsp.
  - intros st Hst. discriminate Hst.
Defined.

Lemma C7_sparse_gradient_rejected_witness :
  @step_param toy_runtime toy_optimizer (ParamGroup [0] toy_hyper) 0 toy_sparse_world
  = (toy_sparse_world, raise (RuntimeError sparse_msg))
  ∧ (@step toy_runtime toy_optimizer None toy_sparse_world).2
    = raise (RuntimeError sparse_msg).
Proof.
  split.
  - apply (@C7_sparse_gradient_rejected toy_runtime toy_optimizer (ParamGroup [0] toy_hyper) 0
             (toy_tensor true []) toy_sparse_world); reflexivity.
  - apply (proj2 (proj2 (proj2
             (@C7_sparse_gradient_rejected toy_runtime toy_optimizer
                (ParamGroup [0] toy_hyper) 0 (toy_tensor true []) toy_sparse_world
                eq_refl eq_refl)))
             None toy_sparse_world None
             (@step toy_runtime toy_optimizer None toy_sparse_world).1
             (@step toy_runtime toy_optimizer None toy_sparse_world).2
             toy_config_wf toy_kernel_keeps_shape toy_moments_in_place toy_sparse_world_wf).
    + exists (ParamGroup [0] toy_hyper). split; constructor.
    + reflexivity.
    + reflexivity.
Defined.


(** A parameter without dimensions, with a dense gradient, under ZeRO: the
    first [step] raises [IndexError] and leaves the count 0 without moment
    buffers; the second raises [KeyError] and the count is still 0. *)
Lemma C9_counterexample :
  (∃ g, @p_grad toy_runtime (@heap toy_runtime scalar_world 0) = Some g
        ∧ is_sparse g = false)
  ∧ (@step toy_runtime toy_optimizer None scalar_world).2
    = raise (IndexError "tuple index out of range")
  ∧ @opt_state toy_runtime (@step toy_runtime toy_optimizer None scalar_world).1 !! 0
    = Some (@PState toy_runtime (Some 0%Z) None None)
  ∧ (@step toy_runtime toy_optimizer None
       (@step toy_runtime toy_optimizer None scalar_world).1).2
    = raise (KeyError "exp_avg")
  ∧ @opt_state toy_runtime
      (@step toy_runtime toy_optimizer None
         (@step toy_runtime toy_optimizer None scalar_world).1).1 !! 0
    = Some (@PState toy_runtime (Some 0%Z) None None).
Proof.
  split; [eexists; split; reflexivity|].
  split_and!; vm_compute; reflexivity.
Qed.

(** * Further properties *)

(** ** bfloat16 conversions *)

Lemma float2bf16_arith (x : Z) :
  (0 ≤ x < 2 ^ 32)%Z →
  float2bf16 x = (((x + (x / 65536) mod 2 + 32767) mod 4294967296) / 65536)%Z.
Proof.
  intros Hx. unfold float2bf16, uint32, uint16.
  rewrite !Z.shiftr_div_pow2 by lia.
  change 1%Z with (Z.ones 1). rewrite Z.land_ones by lia.
  change (2 ^ 1)%Z with 2%Z. change (2 ^ 16)%Z with 65536%Z.
  change (2 ^ 32)%Z with 4294967296%Z. change 0x7FFF%Z with 32767%Z.
  change (Z.ones 1) with 1%Z.
  rewrite (Z.mod_small ((x / 65536) mod 2 + 32767) 4294967296) by (Z.div_mod_to_equations; lia).
  rewrite Z.add_assoc.
  apply Z.mod_small. Z.div_mod_to_equations. lia.
Qed.

Lemma bf162float_arith (b : Z) :
  (0 ≤ b < 2 ^ 16)%Z → bf162float b = (b * 65536)%Z.
Proof.
  intros Hb. unfold bf162float, uint32.
  rewrite (Z.mod_small b) by lia. rewrite Z.shiftl_mul_pow2 by lia.
  change (2 ^ 16)%Z with 65536%Z. apply Z.mod_small. lia.
Qed.

(** X11. Widening a bfloat16 array to float32 and narrowing it again gives
    the array back, for every array of 16-bit values. *)
Theorem X11_bf16_round_trip (arr : list Z) :
  Forall (λ b, 0 ≤ b < 2 ^ 16)%Z arr →
  np_float2np_bf16 (np_bf162np_float arr) = arr.
Proof.
  intros Harr. unfold np_float2np_bf16, np_bf162np_float.
  apply list_eq. intros i. rewrite !list_lookup_fmap.
  destruct (arr !! i) as [b|] eqn:Hi; [|done]. simpl. f_equal.
  pose proof (proj1 (Forall_lookup _ _) Harr i b Hi) as Hb. simpl in Hb.
  rewrite bf162float_arith by done.
  rewrite float2bf16_arith by lia.
  Z.div_mod_to_equations. lia.
Qed.

Lemma X11_bf16_round_trip_witness :
  np_float2np_bf16 (np_bf162np_float [0; 16256; 49152; 65535]%Z) = [0; 16256; 49152; 65535]%Z.
Proof.
  apply X11_bf16_round_trip.
  repeat (constructor; [lia|]). constructor.
Defined.

(** X12. Narrowing rounds the float32 bit pattern to the nearest multiple of
    2^16, ties to the even one: for every pattern below [0xFFFF8000] the
    result [r] is within 2^15 of the pattern, and is even when it is exactly
    2^15 away. *)
Theorem X12_float2bf16_rounds_to_nearest_even (x : Z) :
  (0 ≤ x < 0xFFFF8000)%Z →
  (0 ≤ float2bf16 x < 2 ^ 16)%Z
  ∧ (Z.abs (x - float2bf16 x * 2 ^ 16) ≤ 2 ^ 15)%Z
  ∧ (Z.abs (x - float2bf16 x * 2 ^ 16) = 2 ^ 15 → Z.even (float2bf16 x) = true)%Z.
Proof.
  intros Hx. change 0xFFFF8000%Z with 4294934528%Z in Hx.
  rewrite float2bf16_arith by lia.
  change (2 ^ 16)%Z with 65536%Z. change (2 ^ 15)%Z with 32768%Z.
  set (r := (((x + (x / 65536) mod 2 + 32767) mod 4294967296) / 65536)%Z).
  assert (Hr : (r = x / 65536 ∧ x mod 65536 < 32768)%Z
               ∨ (r = x / 65536 + 1 ∧ 32768 < x mod 65536)%Z
               ∨ (r = x / 65536 + (x / 65536) mod 2 ∧ x mod 65536 = 32768)%Z).
  { subst r. Z.div_mod_to_equations. lia. }
  clearbody r.
  split; [|split].
  - Z.div_mod_to_equations. lia.
  - Z.div_mod_to_equations. lia.
  - intros Habs. apply Z.even_spec.
    destruct Hr as [[-> ?]|[[-> ?]|[-> ?]]].
    + exfalso. Z.div_mod_to_equations. lia.
    + exfalso. Z.div_mod_to_equations. lia.
    + exists ((x / 65536 + (x / 65536) mod 2) / 2)%Z. Z.div_mod_to_equations. lia.
Qed.

Lemma X12_float2bf16_rounds_to_nearest_even_witness :
  (Z.abs (0x3F808000 - float2bf16 0x3F808000 * 2 ^ 16) = 2 ^ 15)%Z
  ∧ Z.even (float2bf16 0x3F808000) = true.
Proof.
  split; [reflexivity|].
  apply (X12_float2bf16_rounds_to_nearest_even 0x3F808000); [lia|reflexivity].
Defined.

Lemma f32_fields (x : Z) :
  (0 ≤ x < 2 ^ 32)%Z →
  f32_sign x = (x / 2147483648)%Z
  ∧ f32_exponent x = ((x / 8388608) mod 256)%Z
  ∧ f32_mantissa x = (x mod 8388608)%Z.
Proof.
  intros Hx. unfold f32_sign, f32_exponent, f32_mantissa.
  rewrite !Z.shiftr_div_pow2 by lia.
  change 0xFF%Z with (Z.ones 8). change 0x7FFFFF%Z with (Z.ones 23).
  rewrite !Z.land_ones by lia. done.
Qed.

(** X13. The addition of the rounding bias wraps around in [uint32]: every
    pattern from [0xFFFF8000] up (all of them negative NaNs) is narrowed to
    0, the bfloat16 pattern of +0.0. *)
Theorem X13_float2bf16_wraps_to_zero (x : Z) :
  (0xFFFF8000 ≤ x < 2 ^ 32)%Z →
  float2bf16 x = 0%Z
  ∧ f32_sign x = 1%Z ∧ f32_exponent x = 255%Z ∧ f32_mantissa x ≠ 0%Z.
Proof.
  intros Hx. change 0xFFFF8000%Z with 4294934528%Z in Hx.
  change (2 ^ 32)%Z with 4294967296%Z in Hx.
  destruct (f32_fields x) as (-> & -> & ->); [lia|].
  rewrite float2bf16_arith by lia.
  split_and!; Z.div_mod_to_equations; lia.
Qed.

Lemma X13_float2bf16_wraps_to_zero_witness :
  float2bf16 0xFFFFFFFF = 0%Z.
Proof. apply (X13_float2bf16_wraps_to_zero 0xFFFFFFFF). lia. Defined.

(** X14. A NaN whose payload fits in the 15 low bits of the mantissa loses
    it: it is narrowed to the infinity of its sign ([0x7F80] or [0xFF80]),
    which widens to a pattern with exponent 255 and mantissa 0. *)
Theorem X14_float2bf16_low_nan_becomes_infinity (x : Z) :
  (0 ≤ x < 2 ^ 32)%Z →
  f32_exponent x = 255%Z →
  (0 < f32_mantissa x < 2 ^ 15)%Z →
  float2bf16 x = (f32_sign x * 2 ^ 15 + 0x7F80)%Z
  ∧ f32_exponent (bf162float (float2bf16 x)) = 255%Z
  ∧ f32_mantissa (bf162float (float2bf16 x)) = 0%Z.
Proof.
  intros Hx Hexp Hman. change (2 ^ 32)%Z with 4294967296%Z in Hx.
  change (2 ^ 15)%Z with 32768%Z in *. change 0x7F80%Z with 32640%Z.
  destruct (f32_fields x) as (Hs & He & Hm); [lia|].
  rewrite Hs. rewrite He in Hexp. rewrite Hm in Hman.
  assert (Hr : float2bf16 x = (x / 2147483648 * 32768 + 32640)%Z).
  { rewrite float2bf16_arith by lia. Z.div_mod_to_equations. lia. }
  rewrite Hr. split; [done|].
  assert (0 ≤ x / 2147483648 ≤ 1)%Z by (Z.div_mod_to_equations; lia).
  rewrite bf162float_arith by lia.
  destruct (f32_fields ((x / 2147483648 * 32768 + 32640) * 65536)) as (_ & -> & ->); [lia|].
  split; Z.div_mod_to_equations; lia.
Qed.

Lemma X14_float2bf16_low_nan_becomes_infinity_witness :
  float2bf16 0x7F800001 = (f32_sign 0x7F800001 * 2 ^ 15 + 0x7F80)%Z.
Proof.
  apply (X14_float2bf16_low_nan_becomes_infinity 0x7F800001); [lia|reflexivity|].
  split; reflexivity.
Defined.

(** ** Restoring an optimizer *)

Lemma setdefault_lookup (key : string) (v : pyval) (d : gmap string pyval) :
  is_Some (setdefault key v d !! key)
  ∧ (∀ u, d !! key = Some u → setdefault key v d = d)
  ∧ (d !! key = None → setdefault key v d !! key = Some v)
  ∧ (∀ key', key' ≠ key → setdefault key v d !! key' = d !! key').
Proof.
  unfold setdefault. destruct (d !! key) as [u|] eqn:Hk.
  - rewrite Hk. split_and!; eauto. done.
  - split_and!.
    + rewrite lookup_insert_eq. eauto.
    + done.
    + intros _. by rewrite lookup_insert_eq.
    + intros key' Hne. by rewrite lookup_insert_ne.
Qed.

(** X10. [__setstate__] keeps the groups in number and order; afterwards
    every group has the key [amsgrad]; a group that had it is left exactly
    as it was (whatever the value), a group that lacked it gets
    [amsgrad = False] and keeps every other key; and applying it twice
    changes nothing more. *)
Theorem X10_setstate_fills_amsgrad (groups : list (gmap string pyval)) :
  length (__setstate__ groups) = length groups
  ∧ (∀ i g, groups !! i = Some g →
       ∃ g', __setstate__ groups !! i = Some g'
             ∧ is_Some (g' !! "amsgrad")
             ∧ (∀ v, g !! "amsgrad" = Some v → g' = g)
             ∧ (g !! "amsgrad" = None → g' !! "amsgrad" = Some (PyBool false))
             ∧ (∀ key, key ≠ "amsgrad" → g' !! key = g !! key))
  ∧ __setstate__ (__setstate__ groups) = __setstate__ groups.
Proof.
  unfold __setstate__. split; [by rewrite length_fmap|]. split.
  - intros i g Hi. exists (setdefault "amsgrad" (PyBool false) g).
    rewrite list_lookup_fmap, Hi. split; [done|]. apply setdefault_lookup.
  - rewrite <- list_fmap_compose. apply list_fmap_ext. intros i g _. simpl.
    destruct (setdefault_lookup "amsgrad" (PyBool false) g) as ([u Hu] & _).
    by eapply setdefault_lookup.
Qed.

Lemma X10_setstate_fills_amsgrad_witness :
  ∃ g', __setstate__ [{["lr" := PyNum (1 # 10)]}; {["amsgrad" := PyBool true]}] !! 0 = Some g'
        ∧ g' !! "amsgrad" = Some (PyBool false)
        ∧ g' !! "lr" = Some (PyNum (1 # 10)).
Proof.
  destruct (proj1 (proj2 (X10_setstate_fills_amsgrad
              [{["lr" := PyNum (1 # 10)]}; {["amsgrad" := PyBool true]}]))
              0 {["lr" := PyNum (1 # 10)]} eq_refl)
    as (g' & Hg' & _ & _ & Hnew & Hother).
  exists g'. split; [exact Hg'|]. split.
  - apply Hnew. reflexivity.
  - rewrite Hother by discriminate. reflexivity.
Defined.

(** ** Shards across ranks *)

Lemma concat_chunks {A} (L : list A) (c w : nat) :
  concat ((λ r, take c (drop (r * c) L)) <$> seq 0 w) = take (w * c) L.
Proof.
  induction w as [|w IH]; [done|].
  rewrite seq_S, fmap_app, concat_app, IH. simpl. rewrite app_nil_r.
  rewrite take_take_drop. f_equal. lia.
Qed.

Lemma need_partition_with_rank {A} (self : Adam) (r : Z) (t : tensor A) :
  _need_partition (with_rank self r) t = _need_partition self t.
Proof. reflexivity. Qed.

Lemma partition_chunk {A} (zero : A) (self : Adam) (g l : tensor A)
    (n ps : nat) (tr tr' : list nat) :
  _need_partition self g = ok true →
  shape g = n :: tr →
  wf_tensor g →
  shape l = ps :: tr' →
  (_world_size self * Z.of_nat ps >= Z.of_nat n)%Z →
  (0 ≤ _rank self < _world_size self)%Z →
  ∃ o part,
    _partition zero self g l = ok (o, part)
    ∧ shape part = ps :: tr
    ∧ data part
      = take (ps * numel tr)
          (drop (Z.to_nat (_rank self) * (ps * numel tr))
             (data g ++ replicate ((Z.to_nat (_world_size self) * ps - n) * numel tr) zero)).
Proof.
  intros Hneed Hg Hwf Hl Hge Hrank.
  destruct (decide (_world_size self * Z.of_nat ps > Z.of_nat n)%Z) as [Hgt|Hle].
  - eexists _, _. split; [by eapply partition_padded|]. simpl. split; [done|].
    f_equal. f_equal; [lia|]. do 2 f_equal. nia.
  - eexists _, _. split; [eapply partition_unpadded; try done; lia|]. simpl. split; [done|].
    replace (Z.to_nat (_world_size self) * ps - n) with 0 by nia.
    simpl. rewrite app_nil_r. f_equal. f_equal. lia.
Qed.

(** X1. The shards of the ranks tile the padded tensor: for a shard-eligible
    tensor and a part size with [world_size * part_size >= n], every rank
    below [world_size] gets a shard of [part_size] rows, and the shards of
    ranks 0, 1, ... laid end to end are all the rows of the tensor followed
    by [world_size * part_size - n] zero rows. No row is lost and none is
    given to two ranks. *)
Theorem X1_shards_tile_the_tensor {A} (zero : A) (self : Adam) (g l : tensor A)
    (n ps : nat) (tr tr' : list nat) :
  _need_partition self g = ok true →
  shape g = n :: tr →
  wf_tensor g →
  shape l = ps :: tr' →
  (_world_size self * Z.of_nat ps >= Z.of_nat n)%Z →
  (∀ r, r < Z.to_nat (_world_size self) →
     ∃ o part, _partition zero (with_rank self (Z.of_nat r)) g l = ok (o, part)
               ∧ shape part = ps :: tr)
  ∧ concat ((λ r, match _partition zero (with_rank self (Z.of_nat r)) g l with
                  | inr (_, part) => data part
                  | inl _ => []
                  end) <$> seq 0 (Z.to_nat (_world_size self)))
    = data g ++ replicate ((Z.to_nat (_world_size self) * ps - n) * numel tr) zero.
Proof.
  intros Hneed Hg Hwf Hl Hge.
  set (L := data g ++ replicate ((Z.to_nat (_world_size self) * ps - n) * numel tr) zero).
  assert (Hchunk : ∀ r, r < Z.to_nat (_world_size self) →
            ∃ o part, _partition zero (with_rank self (Z.of_nat r)) g l = ok (o, part)
                      ∧ shape part = ps :: tr
                      ∧ data part = take (ps * numel tr) (drop (r * (ps * numel tr)) L)).
  { intros r Hr.
    destruct (partition_chunk zero (with_rank self (Z.of_nat r)) g l n ps tr tr')
      as (o & part & Hp & Hsh & Hd); try done; [simpl; lia|].
    exists o, part. split_and!; try done. simpl in Hd. by rewrite Nat2Z.id in Hd. }
  split.
  { intros r Hr. destruct (Hchunk r Hr) as (o & part & ? & ? & _). eauto. }
  transitivity (concat ((λ r, take (ps * numel tr) (drop (r * (ps * numel tr)) L))
                          <$> seq 0 (Z.to_nat (_world_size self)))).
  - f_equal. apply list_fmap_ext. intros i r Hi.
    apply lookup_seq in Hi as [-> Hi]. simpl.
    destruct (Hchunk i Hi) as (o & part & Hp & _ & Hd). rewrite Hp. exact Hd.
  - rewrite concat_chunks. apply take_ge.
    unfold L. rewrite length_app, length_replicate.
    unfold wf_tensor in Hwf. rewrite Hwf, Hg, numel_cons. nia.
Qed.

Lemma X1_shards_tile_the_tensor_witness :
  concat ((λ r, match _partition 0%Z (with_rank (mkAdam [] 1 0 3 false) (Z.of_nat r))
                        (Tensor [5; 1] float32 "cpu" false false [1; 2; 3; 4; 5]%Z)
                        (Tensor [2; 1] float32 "cpu" false false [0; 0]%Z) with
                | inr (_, part) => data part
                | inl _ => []
                end) <$> seq 0 3)
  = [1; 2; 3; 4; 5; 0]%Z.
Proof.
  apply (proj2 (X1_shards_tile_the_tensor 0%Z (mkAdam [] 1 0 3 false)
                  (Tensor [5; 1] float32 "cpu" false false [1; 2; 3; 4; 5]%Z)
                  (Tensor [2; 1] float32 "cpu" false false [0; 0]%Z) 5 2 [1] [1]
                  eq_refl eq_refl eq_refl eq_refl ltac:(simpl; lia))).
Defined.

(** X2. The buffer made by [_create_partitioned_buffer] for a shard-eligible
    parameter of fewer than 2^53 rows (where the double that
    [math.ceil(n / world_size)] goes through loses nothing) is the right
    template for [_partition]: it has between 1 and
    [n] rows, [world_size] such shards cover the [n] rows with fewer than
    [world_size] rows of padding, and the shard that [_partition] cuts out
    of the parameter with this buffer as template has exactly the buffer's
    shape, on every rank below [world_size]. *)
Theorem X2_shard_matches_buffer {A} (zero : A) (self : Adam) (t : tensor A)
    (n : nat) (tr : list nat) :
  _need_partition self t = ok true →
  shape t = n :: tr →
  (Z.of_nat n < 2 ^ 53)%Z →
  wf_tensor t →
  wf_config self →
  ∃ buf q,
    _create_partitioned_buffer zero self t = ok buf
    ∧ shape buf = q :: tr
    ∧ 1 ≤ q ≤ n
    ∧ (Z.of_nat n ≤ _world_size self * Z.of_nat q < Z.of_nat n + _world_size self)%Z
    ∧ ∃ o part, _partition zero self t buf = ok (o, part)
                ∧ shape part = shape buf
                ∧ wf_tensor part.
Proof.
  intros Hneed Ht Hn53 Hwf [Hws Hrank].
  destruct (create_partitioned_buffer_total zero self t) as [buf Hbuf];
    [by rewrite Ht|done|].
  destruct (create_partitioned_buffer_shape zero self t buf Hbuf)
    as (n' & tr' & q' & Ht' & Hq' & Hsh).
  rewrite Ht in Ht'. injection Ht' as <- <-.
  destruct (eligible_rows_exact self t n tr q' Hneed Ht Hws Hn53 Hq') as [_ Hq].
  set (q := Z.to_nat q') in *.
  apply need_partition_true in Hneed as Hel. destruct Hel as (_ & n' & tr' & Ht' & Hn).
  rewrite Ht in Ht'. injection Ht' as <- <-.
  exists buf, q. split; [done|]. split; [done|]. split; [nia|]. split; [nia|].
  destruct (partition_chunk zero self t buf n q tr tr Hneed Ht Hwf Hsh)
    as (o & part & Hp & Hpsh & Hd); [nia|done|].
  exists o, part. split; [done|]. split; [congruence|].
  unfold wf_tensor in *. rewrite Hpsh, Hd, numel_cons.
  rewrite length_take, length_drop, length_app, length_replicate, Hwf, Ht, numel_cons.
  nia.
Qed.

Lemma X2_shard_matches_buffer_witness :
  ∃ buf q, _create_partitioned_buffer 0%Z (mkAdam [] 1 2 3 false)
             (Tensor [10; 1] float32 "cpu" false false (replicate 10 7%Z)) = ok buf
           ∧ shape buf = [q; 1] ∧ 1 ≤ q ≤ 10.
Proof.
  destruct (X2_shard_matches_buffer 0%Z (mkAdam [] 1 2 3 false)
              (Tensor [10; 1] float32 "cpu" false false (replicate 10 7%Z)) 10 [1]
              eq_refl eq_refl ltac:(simpl; lia) eq_refl ltac:(unfold wf_config; simpl; lia))
    as (buf & q & Hbuf & Hsh & Hq & _).
  exists buf, q. split; [exact Hbuf|]. split; [exact Hsh|exact Hq].
Defined.

(** ** What a step leaves alone *)

Section StepFrame.
Context `{RT : Runtime}.

Lemma elem_of_visited (self : Adam) (k : nat) :
  k ∈ visited self ↔ ∃ grp, grp ∈ param_groups self ∧ k ∈ params grp.
Proof. unfold visited. rewrite list_elem_of_bind. split; intros (grp & ? & ?); eauto. Qed.

(** X4. Whatever its outcome, [step] never changes a gradient, never
    changes the shape or the number of elements of a parameter, and leaves
    a parameter that is in no group, and its state, exactly as the closure
    left them. *)
Theorem X4_step_frame (self : Adam) (closure : option (M (tensor elem)))
    (w0 w w' : world) (loss : option (tensor elem)) (r : result (option (tensor elem))) :
  eval_closure closure w0 = (w, ok loss) →
  step self closure w0 = (w', r) →
  ∀ k, p_grad (heap w' k) = p_grad (heap w k)
       ∧ shape (p_data (heap w' k)) = shape (p_data (heap w k))
       ∧ length (data (p_data (heap w' k))) = length (data (p_data (heap w k)))
       ∧ (k ∉ visited self →
          heap w' k = heap w k ∧ opt_state w' !! k = opt_state w !! k).
Proof.
  intros Hcl Hrun.
  destruct (step_after_closure _ _ _ _ _ _ _ Hcl Hrun) as (r1 & Hloop & _).
  set (I := λ w1 : world,
         ∀ k, p_grad (heap w1 k) = p_grad (heap w k)
              ∧ shape (p_data (heap w1 k)) = shape (p_data (heap w k))
              ∧ length (data (p_data (heap w1 k))) = length (data (p_data (heap w k)))
              ∧ (k ∉ visited self →
                 heap w1 k = heap w k ∧ opt_state w1 !! k = opt_state w !! k)).
  change (I w').
  eapply (for_each_inv I); [|by intros k|exact Hloop].
  intros grp w1 w2 r2 Hgrp H1 Hb.
  eapply (for_each_inv I); [|exact H1|exact Hb].
  intros j w3 w4 r3 Hj H3 Hstep k.
  pose proof (step_param_frame _ _ _ _ _ _ Hstep) as (Hother & Hgr & Hsh).
  pose proof (step_param_length _ _ _ _ _ _ Hstep) as Hlen.
  destruct (H3 k) as (H3g & H3s & H3l & H3o).
  destruct (decide (k = j)) as [->|Hne].
  - rewrite Hgr, Hsh, Hlen. split_and!; try done.
    intros Hnot. exfalso. apply Hnot. apply elem_of_visited. eauto.
  - destruct (Hother k Hne) as [Hh Ho]. rewrite Hh, Ho. done.
Qed.

Lemma for_each_skip {A} (xs : list A) (body : A → M unit) (w : world) :
  (∀ x, x ∈ xs → body x w = (w, ok tt)) → for_each xs body w = (w, ok tt).
Proof.
  induction xs as [|x xs IH]; intros Hbody; simpl; [done|].
  unfold mseq. rewrite Hbody by (apply elem_of_cons; by left).
  apply IH. intros y Hy. apply Hbody. apply elem_of_cons. by right.
Qed.

(** X5. Parameters without a gradient are skipped: if no visited parameter
    has one, [step] is the closure alone. It returns the closure's loss (or
    [None]) and neither creates state nor touches a parameter. *)
Theorem X5_step_without_gradients (self : Adam) (closure : option (M (tensor elem)))
    (w0 w : world) (loss : option (tensor elem)) :
  eval_closure closure w0 = (w, ok loss) →
  (∀ k, k ∈ visited self → p_grad (heap w k) = None) →
  step self closure w0 = (w, ok loss).
Proof.
  intros Hcl Hnone. unfold step, mseq. rewrite Hcl. unfold ok.
  unfold step_loop. rewrite for_each_skip; [done|].
  intros grp Hgrp. apply for_each_skip. intros k Hk.
  apply step_param_no_grad. apply Hnone. apply elem_of_visited. eauto.
Qed.

End StepFrame.

Lemma X4_step_frame_witness :
  p_grad (@heap toy_runtime (@step toy_runtime toy_optimizer None toy_world).1 0)
  = p_grad (@heap toy_runtime toy_world 0)
  ∧ @heap toy_runtime (@step toy_runtime toy_optimizer None toy_world).1 5
    = @heap toy_runtime toy_world 5.
Proof.
  destruct (@X4_step_frame toy_runtime toy_optimizer None toy_world toy_world
              (@step toy_runtime toy_optimizer None toy_world).1 None
              (@step toy_runtime toy_optimizer None toy_world).2 eq_refl eq_refl 0)
    as (Hg & _).
  destruct (@X4_step_frame toy_runtime toy_optimizer None toy_world toy_world
              (@step toy_runtime toy_optimizer None toy_world).1 None
              (@step toy_runtime toy_optimizer None toy_world).2 eq_refl eq_refl 5)
    as (_ & _ & _ & Hout).
  split; [exact Hg|]. apply Hout.
  intros Hin. apply list_elem_of_In in Hin. simpl in Hin. destruct Hin as [Hin|[]].
  discriminate Hin.
Defined.

Lemma X5_step_without_gradients_witness :
  @step toy_runtime toy_optimizer None
    (@World toy_runtime (λ _, @Param toy_runtime (toy_tensor false [10; 20; 30; 40]%Z) None)
       ∅ 0)
  = (@World toy_runtime (λ _, @Param toy_runtime (toy_tensor false [10; 20; 30; 40]%Z) None)
       ∅ 0, ok None).
Proof.
  apply (@X5_step_without_gradients toy_runtime); [reflexivity|].
  intros k _. reflexivity.
Defined.

(** ** Marking steps *)

Section Marks.
Context `{RT : Runtime}.

Lemma adam_update_marks (self : Adam) (group : param_group) (k : nat) (p : param)
    (g : tensor elem) (w w' : world) :
  adam_update self group k p g w = (w', ok tt) →
  heap w k = p →
  mark_steps w' = mark_steps w + (if _lm self then 1 else 0).
Proof.
  intros Hrun Hp. unfold adam_update in Hrun.
  destruct (betas (group_hyper group)) as [beta1 beta2].
  unfold mseq at 1 in Hrun. unfold get_item at 1 in Hrun.
  destruct (opt_state w !! k) as [[os om ov]|] eqn:Hst; simpl in Hrun; [|done].
  destruct om as [m|]; simpl in Hrun; [|done].
  unfold mseq at 1 in Hrun. unfold get_item at 1 in Hrun. rewrite Hst in Hrun.
  destruct ov as [v|]; simpl in Hrun; [|done].
  unfold mseq at 1 in Hrun.
  case_bool_decide as Hshape; simpl in Hrun; unfold mpure, mthrow in Hrun; [|done].
  unfold mseq at 1 in Hrun. unfold mlift at 1 in Hrun.
  destruct (_partition zero self (p_data p) m) as [e|lp] eqn:Hlp; [done|].
  unfold mseq at 1 in Hrun. unfold mlift at 1 in Hrun.
  destruct (_partition zero self g m) as [e|lg] eqn:Hlg; [done|].
  unfold mseq at 1 in Hrun. unfold get_item at 1 in Hrun. rewrite Hst in Hrun.
  destruct os as [s|]; simpl in Hrun; [|done].
  unfold mseq at 1 2 3, set_step, set_exp_avg, set_exp_avg_sq, update_state in Hrun.
  simpl in Hrun. unfold mseq in Hrun.
  match type of Hrun with
  | context [write_back self k p ?u ?w1] =>
      destruct (write_back self k p u w1) as [w2 r2] eqn:Hwb
  end.
  apply write_back_spec in Hwb as (_ & Hms & _); [|done]. simpl in Hms.
  destruct r2 as [e|[]]; [done|].
  destruct (_lm self); unfold mark_step, mpure in Hrun; simplify_eq/=; lia.
Qed.

Lemma step_param_marks (self : Adam) (group : param_group) (k : nat) (w w' : world) :
  step_param self group k w = (w', ok tt) →
  mark_steps w'
  = mark_steps w + (if p_grad (heap w k) is Some _ then if _lm self then 1 else 0 else 0).
Proof.
  intros Hrun.
  destruct (p_grad (heap w k)) as [g|] eqn:Hg;
    [|rewrite step_param_no_grad in Hrun by done; simplify_eq; lia].
  destruct (is_sparse g) eqn:Hsp;
    [erewrite step_param_sparse in Hrun by done; by simplify_eq|].
  unfold step_param in Hrun.
  unfold mseq at 1 in Hrun. unfold get_param, ok in Hrun. cbn beta iota in Hrun.
  rewrite Hg, Hsp in Hrun. unfold mseq at 1 in Hrun.
  destruct (state_of k w) as [w0 r0] eqn:Hso.
  assert (Hw0 : r0 = inr (default empty_state (opt_state w !! k))
                ∧ heap w0 = heap w ∧ mark_steps w0 = mark_steps w
                ∧ opt_state w0 !! k = Some (default empty_state (opt_state w !! k))).
  { unfold state_of in Hso. destruct (opt_state w !! k) as [st|] eqn:Hst; simplify_eq/=.
    - by rewrite Hst.
    - by rewrite lookup_insert_eq. }
  destruct Hw0 as (-> & Hh0 & Hm0 & Hk0). cbn beta iota in Hrun.
  unfold mseq at 1 in Hrun.
  destruct (state_len (default empty_state (opt_state w !! k)) =? 0) eqn:Hlen.
  - apply Nat.eqb_eq in Hlen. rewrite (state_len_0 _ Hlen) in Hk0.
    destruct (lazy_init self k (heap w k) w0) as [w1 r1] eqn:Hli.
    apply lazy_init_spec in Hli as (Hh1 & Hm1 & _ & _); [|done].
    destruct r1 as [e|[]]; [done|].
    apply adam_update_marks in Hrun; [|congruence]. lia.
  - unfold mpure, ok in Hrun. cbn beta iota in Hrun.
    apply adam_update_marks in Hrun; [|congruence]. lia.
Qed.

Lemma for_each_marks (self : Adam) (group : param_group) (ks : list nat) (w w' : world) :
  for_each ks (λ p, step_param self group p) w = (w', ok tt) →
  mark_steps w'
  = mark_steps w
    + (if _lm self then length (filter (λ k, is_Some (p_grad (heap w k))) ks) else 0)
  ∧ ∀ k, p_grad (heap w' k) = p_grad (heap w k).
Proof.
  revert w. induction ks as [|j ks IH]; intros w Hrun; simpl in Hrun.
  { unfold mpure in Hrun. simplify_eq. split; [|done]. destruct (_lm self); simpl; lia. }
  unfold mseq in Hrun. destruct (step_param self group j w) as [w1 [e|[]]] eqn:Hj; [done|].
  pose proof (step_param_marks _ _ _ _ _ Hj) as Hm.
  pose proof (step_param_frame _ _ _ _ _ _ Hj) as (Hother & Hgr & _).
  assert (Hgrads : ∀ k, p_grad (heap w1 k) = p_grad (heap w k)).
  { intros k. destruct (decide (k = j)) as [->|Hne]; [done|].
    by destruct (Hother k Hne) as [-> _]. }
  destruct (IH w1 Hrun) as [Hm' Hg']. split; [|intros k; by rewrite Hg', Hgrads].
  rewrite Hm', Hm.
  rewrite (list_filter_iff (λ k, is_Some (p_grad (heap w1 k)))
             (λ k, is_Some (p_grad (heap w k))) ks)
    by (intros k; by rewrite Hgrads).
  rewrite filter_cons. destruct (p_grad (heap w j)) as [g|]; destruct (_lm self).
  - rewrite decide_True by eauto. simpl. lia.
  - lia.
  - rewrite decide_False by (by intros [? ?]). lia.
  - lia.
Qed.

(** X6. A [step] that completes issues [mark_step] once for every visited
    parameter that has a gradient (counted as often as it is visited) when
    the optimizer was built with [mark_step=True], and never otherwise. *)
Theorem X6_mark_step_per_parameter (self : Adam) (closure : option (M (tensor elem)))
    (w0 w w' : world) (loss l' : option (tensor elem)) :
  eval_closure closure w0 = (w, ok loss) →
  step self closure w0 = (w', ok l') →
  mark_steps w'
  = mark_steps w
    + (if _lm self
       then length (filter (λ k, is_Some (p_grad (heap w k))) (visited self))
       else 0).
Proof.
  intros Hcl Hrun.
  destruct (step_after_closure _ _ _ _ _ _ _ Hcl Hrun) as (r1 & Hloop & Hr).
  destruct Hr as [[-> _]|(e & _ & ?)]; [|done].
  unfold step_loop in Hloop. unfold visited.
  clear Hcl Hrun. revert w Hloop.
  induction (param_groups self) as [|grp gs IH]; intros w Hloop; simpl in Hloop.
  { unfold mpure in Hloop. simplify_eq. destruct (_lm self); simpl; lia. }
  unfold mseq in Hloop.
  destruct (for_each (params grp) (λ p, step_param self grp p) w) as [w1 [e|[]]] eqn:Hg;
    [done|].
  apply for_each_marks in Hg as [Hm Hgrads].
  rewrite (IH w1 Hloop), Hm. rewrite bind_cons, filter_app, length_app.
  rewrite (list_filter_iff (λ k, is_Some (p_grad (heap w1 k)))
             (λ k, is_Some (p_grad (heap w k))) (gs ≫= params))
    by (intros k; by rewrite Hgrads).
  destruct (_lm self); lia.
Qed.

End Marks.

Lemma X6_mark_step_per_parameter_witness :
  mark_steps (@step toy_runtime (mkAdam [ParamGroup [0; 0] toy_hyper] 0 0 1 true) None
                toy_world).1 = 2.
Proof.
  apply (@X6_mark_step_per_parameter toy_runtime
           (mkAdam [ParamGroup [0; 0] toy_hyper] 0 0 1 true) None toy_world toy_world
           (@step toy_runtime (mkAdam [ParamGroup [0; 0] toy_hyper] 0 0 1 true) None
              toy_world).1 None None); reflexivity.
Defined.

(** ** A state creation that fails *)

Section PartialState.
Context `{RT : Runtime}.

(** X7. When the creation of the state raises (because [_need_partition]
    does, as on a 0-dim parameter with a positive ZeRO level, or because
    [_create_partitioned_buffer] does, as with a world size of 0), [step]
    has already stored [step = 0]: the parameter is left with the state
    [{step: 0}]. Every later update of a parameter whose non-empty state
    lacks [exp_avg] raises [KeyError('exp_avg')] and changes nothing, so the
    parameter is never updated again. *)
Theorem X7_failed_creation_poisons_state (self : Adam) (group : param_group) (k : nat)
    (g : tensor elem) (w : world) :
  p_grad (heap w k) = Some g →
  is_sparse g = false →
  (∀ e, state_len (default empty_state (opt_state w !! k)) = 0 →
        (_need_partition self (p_data (heap w k)) = raise e
         ∨ (_need_partition self (p_data (heap w k)) = ok true
            ∧ _create_partitioned_buffer zero self (p_data (heap w k)) = raise e)) →
        ∃ w', step_param self group k w = (w', raise e)
              ∧ opt_state w' !! k = Some (PState (Some 0%Z) None None)
              ∧ heap w' = heap w)
  ∧ (shape (p_data (heap w k)) = [] → (_zero_opt_level self > 0)%Z →
     _need_partition self (p_data (heap w k)) = raise (IndexError "tuple index out of range"))
  ∧ (shape (p_data (heap w k)) ≠ [] → _world_size self = 0%Z →
     (_zero_opt_level self > 0)%Z →
     _need_partition self (p_data (heap w k)) = ok true
     ∧ _create_partitioned_buffer zero self (p_data (heap w k)) = raise ZeroDivisionError)
  ∧ (∀ st, opt_state w !! k = Some st → st_exp_avg st = None → state_len st ≠ 0 →
           step_param self group k w = (w, raise (KeyError "exp_avg"))).
Proof.
  intros Hg Hsp. split; [|split; [|split]].
  - intros e Hlen Hfail. by apply (step_param_creation_raises self group k g w e).
  - intros Hsh Hlvl. unfold _need_partition, shape0.
    rewrite bool_decide_eq_true_2 by done. by rewrite Hsh.
  - intros Hsh Hws Hlvl. destruct (shape (p_data (heap w k))) as [|n tr] eqn:Hshape; [done|].
    split.
    + rewrite (need_partition_cons _ _ _ _ Hshape).
      rewrite !bool_decide_eq_true_2 by lia. done.
    + apply create_partitioned_buffer_raises; [by rewrite Hshape|done].
  - intros st Hst Hnone Hlen.
    by apply (step_param_without_exp_avg self group k g w st).
Qed.

End PartialState.

Lemma X7_failed_creation_poisons_state_witness :
  @step_param toy_runtime toy_optimizer (ParamGroup [0] toy_hyper) 0
    (@World toy_runtime (λ _, toy_param) {[0 := @PState toy_runtime (Some 0%Z) None None]} 0)
  = (@World toy_runtime (λ _, toy_param) {[0 := @PState toy_runtime (Some 0%Z) None None]} 0,
     raise (KeyError "exp_avg")).
Proof.
  apply (proj2 (proj2 (proj2
           (@X7_failed_creation_poisons_state toy_runtime toy_optimizer
              (ParamGroup [0] toy_hyper) 0 (toy_tensor false [1; 2; 3; 4]%Z)
              (@World toy_runtime (λ _, toy_param)
                 {[0 := @PState toy_runtime (Some 0%Z) None None]} 0)
              eq_refl eq_refl)))
           (@PState toy_runtime (Some 0%Z) None None)).
  - reflexivity.
  - reflexivity.
  - intros H. discriminate H.
Defined.

(** ** Steps that complete *)

Section Completion.
Context `{RT : Runtime}.

Lemma for_each_completes {A} (I : world → Prop) (xs : list A) (body : A → M unit)
    (w : world) :
  (∀ x w, x ∈ xs → I w → ∃ w', body x w = (w', ok tt) ∧ I w') →
  I w → ∃ w', for_each xs body w = (w', ok tt) ∧ I w'.
Proof.
  revert w. induction xs as [|x xs IH]; intros w Hbody HI; simpl; [by exists w|].
  destruct (Hbody x w) as (w1 & Hx & H1); [apply elem_of_cons; by left|done|].
  unfold mseq. rewrite Hx. apply IH; [|done].
  intros y w2 Hy. apply Hbody. apply elem_of_cons. by right.
Qed.

(** X8. In a well-formed world (parameters with at least one dimension,
    dense gradients shaped like their parameter, states empty or complete
    with buffers of a right shape), with a rank below a positive world size
    and a kernel that keeps shapes, a [step] over parameters none of which
    has a sparse gradient runs to completion: it returns the closure's loss
    ([None] without a closure) and leaves a well-formed world. *)
Theorem X8_step_completes (self : Adam) (closure : option (M (tensor elem)))
    (w0 w : world) (loss : option (tensor elem)) :
  wf_config self →
  kernel_keeps_shape →
  moments_in_place →
  eval_closure closure w0 = (w, ok loss) →
  wf_world self w →
  (∀ k g, k ∈ visited self → p_grad (heap w k) = Some g → is_sparse g = false) →
  ∃ w', step self closure w0 = (w', ok loss) ∧ wf_world self w'.
Proof.
  intros Hcfg Hker Hin Hcl Hwf Hdense.
  set (I := λ w1 : world,
         wf_world self w1 ∧ ∀ k, p_grad (heap w1 k) = p_grad (heap w k)).
  assert (Hbody : ∀ grp j w1, j ∈ visited self → I w1 →
            ∃ w2, step_param self grp j w1 = (w2, ok tt) ∧ I w2).
  { intros grp j w1 Hj [Hwf1 Hg1].
    destruct (step_param self grp j w1) as [w2 r2] eqn:Hstep.
    destruct (step_param_wf _ _ _ _ _ _ Hcfg Hker Hin Hwf1 Hstep) as [Hwf2 Hr].
    pose proof (step_param_frame _ _ _ _ _ _ Hstep) as (Hother & Hgr & _).
    assert (I w2).
    { split; [done|]. intros k. rewrite <- Hg1.
      destruct (decide (k = j)) as [->|Hne]; [done|]. by destruct (Hother k Hne) as [-> _]. }
    destruct Hr as [->|(_ & g & Hg & Hsp)]; [eauto|].
    rewrite Hg1 in Hg. by rewrite (Hdense j g Hj Hg) in Hsp. }
  destruct (for_each_completes I (param_groups self)
              (λ group, for_each (params group) (λ p, step_param self group p)) w)
    as (w' & Hloop & Hwf' & _).
  - intros grp w1 Hgrp H1. apply (for_each_completes I); [|done].
    intros j w2 Hj H2. apply Hbody; [|done]. apply elem_of_visited. eauto.
  - by split.
  - exists w'. split; [|done].
    unfold step, mseq. rewrite Hcl. unfold ok. unfold step_loop. rewrite Hloop. done.
Qed.

End Completion.

Lemma X8_step_completes_witness :
  ∃ w', @step toy_runtime toy_optimizer None toy_world = (w', ok None).
Proof.
  destruct (@X8_step_completes toy_runtime toy_optimizer None toy_world toy_world None
              toy_config_wf toy_kernel_keeps_shape toy_moments_in_place eq_refl toy_world_wf)
    as (w' & Hstep & _).
  - intros k g _ Hg. injection Hg as <-. reflexivity.
  - exists w'. exact Hstep.
Defined.

(** ** The update, forwards *)

Section Forward.
Context `{RT : Runtime}.

(** Once the state is complete and both shards are cut, [adam_update] is
    the kernel on the incremented count, its moment buffers stored, and
    then the write-back. *)
Lemma adam_update_forward (self : Adam) (group : param_group) (k : nat) (p : param)
    (g : tensor elem) (w : world) (s : Z) (m v : tensor elem) (lp lg : origin * tensor elem) :
  opt_state w !! k = Some (PState (Some s) (Some m) (Some v)) →
  shape m = shape v →
  _partition zero self (p_data p) m = ok lp →
  _partition zero self g m = ok lg →
  ∃ w1,
    heap w1 = heap w
    ∧ mark_steps w1 = mark_steps w
    ∧ (∀ j, j ≠ k → opt_state w1 !! j = opt_state w !! j)
    ∧ opt_state w1 !! k
      = Some (PState (Some (s + 1)%Z)
                (Some (exp_avg_out
                         (F_adam lp.2 lg.2 m v (s + 1)%Z (amsgrad (group_hyper group))
                            (betas (group_hyper group)).1 (betas (group_hyper group)).2
                            (lr (group_hyper group)) (weight_decay (group_hyper group))
                            (eps (group_hyper group)))))
                (Some (exp_avg_sq_out
                         (F_adam lp.2 lg.2 m v (s + 1)%Z (amsgrad (group_hyper group))
                            (betas (group_hyper group)).1 (betas (group_hyper group)).2
                            (lr (group_hyper group)) (weight_decay (group_hyper group))
                            (eps (group_hyper group))))))
    ∧ adam_update self group k p g w
      = mseq (write_back self k p
                (updated (F_adam lp.2 lg.2 m v (s + 1)%Z (amsgrad (group_hyper group))
                            (betas (group_hyper group)).1 (betas (group_hyper group)).2
                            (lr (group_hyper group)) (weight_decay (group_hyper group))
                            (eps (group_hyper group)))))
             (λ _, if _lm self then mark_step else mpure tt) w1.
Proof.
  intros Hst Hmv Hlp Hlg.
  unfold adam_update. destruct (betas (group_hyper group)) as [beta1 beta2]. simpl.
  eexists (World (heap w) _ (mark_steps w)). split; [reflexivity|]. split; [reflexivity|].
  split; [|split]; last first.
  - unfold mseq at 1. unfold get_item at 1. rewrite Hst. simpl.
    unfold mseq at 1. unfold get_item at 1. rewrite Hst. simpl.
    unfold mseq at 1. rewrite bool_decide_eq_true_2 by done. unfold mpure at 1.
    unfold mseq at 1. unfold mlift at 1. rewrite Hlp.
    unfold mseq at 1. unfold mlift at 1. rewrite Hlg.
    unfold mseq at 1. unfold get_item at 1. rewrite Hst. simpl.
    unfold mseq at 1 2 3, set_step, set_exp_avg, set_exp_avg_sq, update_state. simpl.
    reflexivity.
  - simpl. rewrite !lookup_alter_eq, Hst. done.
  - intros j Hj. simpl. by rewrite !lookup_alter_ne.
Qed.

Lemma write_back_scalar (self : Adam) (k : nat) (p : param) (u : tensor elem) (w : world) :
  shape (p_data p) = [] →
  (_zero_opt_level self ≤ 0)%Z →
  write_back self k p u w
  = (w, raise (IndexError "slice() cannot be applied to a 0-dim tensor.")).
Proof.
  intros Hsh Hlvl. unfold write_back, mseq, mlift, _need_partition.
  rewrite bool_decide_eq_false_2 by lia. simpl.
  unfold setitem_all. by rewrite Hsh.
Qed.

Lemma partition_level_zero (self : Adam) (t l : tensor elem) :
  (_zero_opt_level self ≤ 0)%Z → _partition zero self t l = ok (SameObject, t).
Proof.
  intros Hlvl. unfold _partition, _need_partition.
  by rewrite bool_decide_eq_false_2 by lia.
Qed.

Lemma lazy_init_unsharded (self : Adam) (k : nat) (p : param) (w : world) :
  _need_partition self (p_data p) = ok false →
  opt_state w !! k = Some empty_state →
  ∃ w1, lazy_init self k p w = (w1, ok tt)
        ∧ heap w1 = heap w
        ∧ opt_state w1 !! k
          = Some (PState (Some 0%Z)
                    (Some (to_device (torch_zeros zero (shape (p_data p)) (dtype (p_data p))
                                        false) (device (p_data p))))
                    (Some (to_device (torch_zeros zero (shape (p_data p)) (dtype (p_data p))
                                        false) (device (p_data p))))).
Proof.
  intros Hneed Hst.
  unfold lazy_init, mseq, mlift, set_step, set_exp_avg, set_exp_avg_sq, update_state.
  simpl. rewrite Hneed. simpl.
  eexists. split; [reflexivity|]. simpl. split; [done|].
  rewrite !lookup_alter_eq, Hst. done.
Qed.

(** X15. A 0-dim (scalar) parameter cannot be updated. With ZeRO off, every
    update of one raises [IndexError] at the write-back ([p[:] = ...] on a
    0-dim tensor), after the state has been created (on the first update)
    and the count and moment buffers have been advanced: the parameter
    keeps its value while its count grows by one with each failed update. *)
Theorem X15_scalar_parameter_never_updates (self : Adam) (group : param_group) (k : nat)
    (g : tensor elem) (w : world) :
  shape (p_data (heap w k)) = [] →
  (_zero_opt_level self ≤ 0)%Z →
  p_grad (heap w k) = Some g →
  is_sparse g = false →
  (opt_state w !! k = None →
   ∃ w' m v,
     step_param self group k w
     = (w', raise (IndexError "slice() cannot be applied to a 0-dim tensor."))
     ∧ heap w' = heap w
     ∧ opt_state w' !! k = Some (PState (Some 1%Z) (Some m) (Some v)))
  ∧ (∀ s m v,
       opt_state w !! k = Some (PState (Some s) (Some m) (Some v)) →
       shape m = shape v →
       ∃ w' m' v',
         step_param self group k w
         = (w', raise (IndexError "slice() cannot be applied to a 0-dim tensor."))
         ∧ heap w' = heap w
         ∧ opt_state w' !! k = Some (PState (Some (s + 1)%Z) (Some m') (Some v'))).
Proof.
  intros Hsh Hlvl Hg Hsp. split.
  - intros Hnone.
    unfold step_param. unfold mseq at 1. unfold get_param, ok. cbn beta iota.
    rewrite Hg, Hsp. unfold mseq at 1. unfold state_of. rewrite Hnone. cbn beta iota.
    unfold mseq at 1. simpl.
    match goal with
    | |- context [lazy_init self k (heap w k) ?w0] =>
        destruct (lazy_init_unsharded self k (heap w k) w0) as (w1 & -> & Hh1 & Hk1)
    end.
    { unfold _need_partition. by rewrite bool_decide_eq_false_2 by lia. }
    { simpl. by rewrite lookup_insert_eq. }
    simpl in Hh1.
    destruct (adam_update_forward self group k (heap w k) g w1 0%Z _ _
                (SameObject, p_data (heap w k)) (SameObject, g) Hk1 eq_refl)
      as (w2 & Hh & _ & _ & Hk & ->); try (by apply partition_level_zero).
    unfold mseq. rewrite write_back_scalar by done.
    eexists _, _, _. split; [reflexivity|]. split; [congruence|]. exact Hk.
  - intros s m v Hst Hmv.
    unfold step_param. unfold mseq at 1. unfold get_param, ok. cbn beta iota.
    rewrite Hg, Hsp. unfold mseq at 1. unfold state_of. rewrite Hst. cbn beta iota.
    unfold mseq at 1. simpl. unfold mpure.
    destruct (adam_update_forward self group k (heap w k) g w s m v
                (SameObject, p_data (heap w k)) (SameObject, g))
      as (w2 & Hh & _ & _ & Hk & ->); try done; try (by apply partition_level_zero).
    unfold mseq. rewrite write_back_scalar by done.
    eexists _, _, _. split; [reflexivity|]. split; [done|]. exact Hk.
Qed.

Lemma adam_update_unsharded (self : Adam) (group : param_group) (k : nat) (g : tensor elem)
    (w : world) (s : Z) (m v : tensor elem) :
  kernel_keeps_shape →
  _need_partition self (p_data (heap w k)) = ok false →
  wf_param (heap w k) →
  p_grad (heap w k) = Some g →
  is_sparse g = false →
  opt_state w !! k = Some (PState (Some s) (Some m) (Some v)) →
  shape m = shape (p_data (heap w k)) →
  shape v = shape (p_data (heap w k)) →
  ∃ w',
    adam_update self group k (heap w k) g w = (w', ok tt)
    ∧ data (p_data (heap w' k))
      = data (updated (F_adam (p_data (heap w k)) g m v (s + 1)%Z
                         (amsgrad (group_hyper group))
                         (betas (group_hyper group)).1 (betas (group_hyper group)).2
                         (lr (group_hyper group)) (weight_decay (group_hyper group))
                         (eps (group_hyper group))))
    ∧ opt_state w' !! k
      = Some (PState (Some (s + 1)%Z)
                (Some (exp_avg_out
                         (F_adam (p_data (heap w k)) g m v (s + 1)%Z
                            (amsgrad (group_hyper group))
                            (betas (group_hyper group)).1 (betas (group_hyper group)).2
                            (lr (group_hyper group)) (weight_decay (group_hyper group))
                            (eps (group_hyper group)))))
                (Some (exp_avg_sq_out
                         (F_adam (p_data (heap w k)) g m v (s + 1)%Z
                            (amsgrad (group_hyper group))
                            (betas (group_hyper group)).1 (betas (group_hyper group)).2
                            (lr (group_hyper group)) (weight_decay (group_hyper group))
                            (eps (group_hyper group)))))).
Proof.
  intros Hker Hneed (Hne & Hwf & Hgrad) Hg Hsp Hst Hm Hv.
  destruct (Hgrad g Hg Hsp) as [Hgsh Hgwf].
  assert (Hlp : _partition zero self (p_data (heap w k)) m = ok (SameObject, p_data (heap w k))).
  { unfold _partition. by rewrite Hneed. }
  assert (Hlg : _partition zero self g m = ok (SameObject, g)).
  { unfold _partition. rewrite (need_partition_shape self g (p_data (heap w k)) Hgsh).
    by rewrite Hneed. }
  destruct (adam_update_forward self group k (heap w k) g w s m v _ _ Hst
              ltac:(congruence) Hlp Hlg) as (w1 & Hh & _ & _ & Hk & ->).
  simpl in *.
  set (out := F_adam (p_data (heap w k)) g m v (s + 1)%Z _ _ _ _ _ _) in *.
  destruct (Hker (p_data (heap w k)) g m v (s + 1)%Z (amsgrad (group_hyper group))
              (betas (group_hyper group)).1 (betas (group_hyper group)).2
              (lr (group_hyper group)) (weight_decay (group_hyper group))
              (eps (group_hyper group))) as [Hush Huwf]; try done.
  fold out in Hush, Huwf.
  destruct (write_back_unsharded_overwrites self k (heap w k) (updated out) w1)
    as (w2 & Hwb & Hdata & _ & _ & Hos); try done; [by rewrite Hh|].
  unfold mseq. rewrite Hwb.
  destruct (_lm self); unfold mark_step, mpure; eexists; (split; [reflexivity|]); simpl;
    rewrite Hdata, Hos; done.
Qed.

(** X16. With sharding out of the picture (the parameter is not
    shard-eligible) an update is plain Adam on the whole tensor: in a
    well-formed setting the kernel is run on the parameter, its gradient and
    the stored moment buffers with the count plus one, the parameter's
    storage becomes the kernel's updated value, and the state holds the new
    count and the kernel's moment buffers. On the first update the buffers
    are zero tensors of the parameter's shape and the count passed is 1. *)
Theorem X16_unsharded_update_is_plain_adam (self : Adam) (group : param_group) (k : nat)
    (g : tensor elem) (w : world) :
  kernel_keeps_shape →
  _need_partition self (p_data (heap w k)) = ok false →
  wf_param (heap w k) →
  p_grad (heap w k) = Some g →
  is_sparse g = false →
  (∀ s m v,
     opt_state w !! k = Some (PState (Some s) (Some m) (Some v)) →
     shape m = shape (p_data (heap w k)) →
     shape v = shape (p_data (heap w k)) →
     ∃ w',
       step_param self group k w = (w', ok tt)
       ∧ data (p_data (heap w' k))
         = data (updated (F_adam (p_data (heap w k)) g m v (s + 1)%Z
                            (amsgrad (group_hyper group))
                            (betas (group_hyper group)).1 (betas (group_hyper group)).2
                            (lr (group_hyper group)) (weight_decay (group_hyper group))
                            (eps (group_hyper group))))
       ∧ (opt_state w' !! k ≫= st_step) = Some (s + 1)%Z)
  ∧ (opt_state w !! k = None →
     ∃ w',
       step_param self group k w = (w', ok tt)
       ∧ data (p_data (heap w' k))
         = data (updated
                   (F_adam (p_data (heap w k)) g
                      (to_device (torch_zeros zero (shape (p_data (heap w k)))
                                    (dtype (p_data (heap w k))) false)
                                 (device (p_data (heap w k))))
                      (to_device (torch_zeros zero (shape (p_data (heap w k)))
                                    (dtype (p_data (heap w k))) false)
                                 (device (p_data (heap w k))))
                      1%Z (amsgrad (group_hyper group))
                      (betas (group_hyper group)).1 (betas (group_hyper group)).2
                      (lr (group_hyper group)) (weight_decay (group_hyper group))
                      (eps (group_hyper group))))
       ∧ (opt_state w' !! k ≫= st_step) = Some 1%Z).
Proof.
  intros Hker Hneed Hwfp Hg Hsp. split.
  - intros s m v Hst Hm Hv.
    destruct (adam_update_unsharded self group k g w s m v) as (w' & Hup & Hdata & Hk);
      try done.
    exists w'. split; [|split; [done|by rewrite Hk]].
    unfold step_param. unfold mseq at 1. unfold get_param, ok. cbn beta iota.
    rewrite Hg, Hsp. unfold mseq at 1. unfold state_of. rewrite Hst. cbn beta iota.
    unfold mseq at 1. simpl. unfold mpure. exact Hup.
  - intros Hnone.
    unfold step_param. unfold mseq at 1. unfold get_param, ok. cbn beta iota.
    rewrite Hg, Hsp. unfold mseq at 1. unfold state_of. rewrite Hnone. cbn beta iota.
    unfold mseq at 1. simpl.
    match goal with
    | |- context [lazy_init self k (heap w k) ?w0] =>
        destruct (lazy_init_unsharded self k (heap w k) w0) as (w1 & -> & Hh1 & Hk1)
    end.
    { done. }
    { simpl. by rewrite lookup_insert_eq. }
    simpl in Hh1.
    destruct (adam_update_unsharded self group k g w1 0%Z
                (to_device (torch_zeros zero (shape (p_data (heap w k)))
                              (dtype (p_data (heap w k))) false)
                           (device (p_data (heap w k))))
                (to_device (torch_zeros zero (shape (p_data (heap w k)))
                              (dtype (p_data (heap w k))) false)
                           (device (p_data (heap w k)))))
      as (w' & Hup & Hdata & Hk); rewrite ?Hh1; try done.
    rewrite Hh1 in Hup, Hdata.
    exists w'. split; [exact Hup|]. split; [exact Hdata|]. by rewrite Hk.
Qed.

End Forward.

Lemma X15_scalar_parameter_never_updates_witness :
  ∃ w' m v,
    @step_param toy_runtime (mkAdam [ParamGroup [0] toy_hyper] 0 0 1 false)
      (ParamGroup [0] toy_hyper) 0
      (@World toy_runtime
         (λ _, @Param toy_runtime (Tensor [] float32 "cpu" true false [5%Z])
                 (Some (Tensor [] float32 "cpu" false false [1%Z]))) ∅ 0)
    = (w', raise (IndexError "slice() cannot be applied to a 0-dim tensor."))
    ∧ @opt_state toy_runtime w' !! 0 = Some (@PState toy_runtime (Some 1%Z) (Some m) (Some v)).
Proof.
  destruct (@X15_scalar_parameter_never_updates toy_runtime
              (mkAdam [ParamGroup [0] toy_hyper] 0 0 1 false)
              (ParamGroup [0] toy_hyper) 0 (Tensor [] float32 "cpu" false false [1%Z])
              (@World toy_runtime
                 (λ _, @Param toy_runtime (Tensor [] float32 "cpu" true false [5%Z])
                         (Some (Tensor [] float32 "cpu" false false [1%Z]))) ∅ 0))
    as [Hfresh _]; [reflexivity|simpl; lia|reflexivity|reflexivity|].
  destruct Hfresh as (w' & m & v & Hstep & _ & Hst); [reflexivity|].
  exists w', m, v. split; [exact Hstep|exact Hst].
Defined.

Lemma X16_unsharded_update_is_plain_adam_witness :
  ∃ w',
    @step_param toy_runtime (mkAdam [ParamGroup [0] toy_hyper] 0 0 1 false)
      (ParamGroup [0] toy_hyper) 0 toy_world = (w', ok tt)
    ∧ data (@p_data toy_runtime (@heap toy_runtime w' 0)) = [9; 18; 27; 36]%Z.
Proof.
  destruct (@X16_unsharded_update_is_plain_adam toy_runtime
              (mkAdam [ParamGroup [0] toy_hyper] 0 0 1 false)
              (ParamGroup [0] toy_hyper) 0 (toy_tensor false [1; 2; 3; 4]%Z) toy_world)
    as [_ Hfresh];
    [exact toy_kernel_keeps_shape|reflexivity|exact (proj1 (toy_world_wf 0))
    |reflexivity|reflexivity|].
  destruct Hfresh as (w' & Hstep & Hdata & _); [reflexivity|].
  exists w'. split; [exact Hstep|]. rewrite Hdata. reflexivity.
Defined.

(** ** More on the bfloat16 conversions *)

(** X3. Narrowing is monotone on bit patterns below the wrap-around: a
    larger pattern never gets a smaller bfloat16 pattern, and the results
    fit in 16 bits. *)
Theorem X3_float2bf16_monotone (x y : Z) :
  (0 ≤ x)%Z → (x ≤ y)%Z → (y < 0xFFFF8000)%Z →
  (0 ≤ float2bf16 x ≤ float2bf16 y)%Z ∧ (float2bf16 y < 2 ^ 16)%Z.
Proof.
  intros Hx Hxy Hy. change 0xFFFF8000%Z with 4294934528%Z in Hy.
  rewrite !float2bf16_arith by lia. change (2 ^ 16)%Z with 65536%Z.
  Z.div_mod_to_equations. lia.
Qed.

Lemma X3_float2bf16_monotone_witness :
  (0 ≤ float2bf16 0x3F800000 ≤ float2bf16 0x40490FDB)%Z.
Proof. apply (X3_float2bf16_monotone 0x3F800000 0x40490FDB); lia. Defined.

(** ** The order of the checks in the constructor *)

(** X9. [__init__] reports the first check that fails, in the order
    learning rate, epsilon, beta 0, beta 1, weight decay; with valid
    numbers and [amsgrad = False], an exception of the base-class
    constructor is passed on, and so is a failing import of the lazy-tensor
    module when [mark_step] is set (it comes after the base class and the
    distributed context). In none of these cases is an optimizer returned. *)
Theorem X9_init_reports_first_failure (h : host) (ps : list nat) (lr : Q) (betas : Q * Q)
    (eps wd : Q) (ams mark : bool) :
  ((lr < 0)%Q →
   __init__ h ps lr betas eps wd ams mark = raise (ValueError "Invalid learning rate"))
  ∧ ((0 <= lr)%Q → (eps < 0)%Q →
     __init__ h ps lr betas eps wd ams mark = raise (ValueError "Invalid epsilon value"))
  ∧ ((0 <= lr)%Q → (0 <= eps)%Q → ¬ (0 <= betas.1 ∧ betas.1 < 1)%Q →
     __init__ h ps lr betas eps wd ams mark
     = raise (ValueError "Invalid beta parameter at index 0"))
  ∧ ((0 <= lr)%Q → (0 <= eps)%Q → (0 <= betas.1 ∧ betas.1 < 1)%Q →
     ¬ (0 <= betas.2 ∧ betas.2 < 1)%Q →
     __init__ h ps lr betas eps wd ams mark
     = raise (ValueError "Invalid beta parameter at index 1"))
  ∧ ((0 <= lr)%Q → (0 <= eps)%Q → (0 <= betas.1 ∧ betas.1 < 1)%Q →
     (0 <= betas.2 ∧ betas.2 < 1)%Q → (wd < 0)%Q →
     __init__ h ps lr betas eps wd ams mark
     = raise (ValueError "Invalid weight_decay value"))
  ∧ (valid_numerics lr betas eps wd →
     (∀ e, Optimizer_init h ps (Hyper lr betas eps wd false) = raise e →
           __init__ h ps lr betas eps wd false mark = raise e)
     ∧ (∀ groups e, Optimizer_init h ps (Hyper lr betas eps wd false) = ok groups →
                    import_lazy_model h = raise e →
                    __init__ h ps lr betas eps wd false true = raise e)).
Proof.
  unfold __init__, Qlt_bool.
  split_and!.
  - intros Hlr. apply Qle_bool_false in Hlr. by rewrite Hlr.
  - intros Hlr Heps. apply Qle_bool_iff in Hlr. apply Qle_bool_false in Heps.
    by rewrite Hlr, Heps.
  - intros Hlr Heps Hb. apply Qle_bool_iff in Hlr, Heps. rewrite Hlr, Heps. simpl.
    destruct (Qle_bool 0 betas.1) eqn:H1; simpl; [|done].
    destruct (Qle_bool 1 betas.1) eqn:H2; simpl; [done|].
    exfalso. apply Hb. split; [by apply Qle_bool_iff|by apply Qle_bool_false].
  - intros Hlr Heps [Hb1 Hb1'] Hb. apply Qle_bool_iff in Hlr, Heps, Hb1.
    apply Qle_bool_false in Hb1'. rewrite Hlr, Heps, Hb1, Hb1'. simpl.
    destruct (Qle_bool 0 betas.2) eqn:H1; simpl; [|done].
    destruct (Qle_bool 1 betas.2) eqn:H2; simpl; [done|].
    exfalso. apply Hb. split; [by apply Qle_bool_iff|by apply Qle_bool_false].
  - intros Hlr Heps [Hb1 Hb1'] [Hb2 Hb2'] Hwd. apply Qle_bool_iff in Hlr, Heps, Hb1, Hb2.
    apply Qle_bool_false in Hb1', Hb2', Hwd.
    by rewrite Hlr, Heps, Hb1, Hb1', Hb2, Hb2', Hwd.
  - intros (Hlr & Heps & Hb1 & Hb1' & Hb2 & Hb2' & Hwd).
    apply Qle_bool_iff in Hlr, Heps, Hb1, Hb2, Hwd.
    apply Qle_bool_false in Hb1', Hb2'.
    rewrite Hlr, Heps, Hb1, Hb1', Hb2, Hb2', Hwd. simpl. split.
    + intros e ->. done.
    + intros groups e -> ->. done.
Qed.

Lemma X9_init_reports_first_failure_witness :
  __init__ (toy_host (DistContext 1 0 2)) [1] (-1 # 1) (2 # 1, 2 # 1) (-1 # 1) (-1 # 1)
    true false
  = raise (ValueError "Invalid learning rate")
  ∧ __init__ (toy_host (DistContext 1 0 2)) [] default_lr default_betas default_eps
      default_weight_decay false false
    = raise (ValueError "optimizer got an empty parameter list").
Proof.
  split.
  - apply (proj1 (X9_init_reports_first_failure (toy_host (DistContext 1 0 2)) [1] (-1 # 1)
                    (2 # 1, 2 # 1) (-1 # 1) (-1 # 1) true false)).
    reflexivity.
  - destruct (X9_init_reports_first_failure (toy_host (DistContext 1 0 2)) []
                default_lr default_betas default_eps default_weight_decay false false)
      as (_ & _ & _ & _ & _ & Hvalid).
    destruct Hvalid as [Hbase _].
    + repeat split; done.
    + apply Hbase. reflexivity.
Defined.
